(** * Voice-triggered recording, alignment and PESQ scoring

    A shallow embedding of [auto_record_and_pesq.py] and the properties of
    its capture-trigger / time-alignment / quality-scoring pipeline.

    Modelling conventions.
    - A floating-point number is the rational it denotes ([Q]).  The
      modules [trigger], [aligner] and [scorer] have the functions in exact
      arithmetic; module [fp] has them with the rounding of the
      floating-point operations ([fl.round], IEEE round-to-nearest-even in
      the array's format), and with the correlation routine of the library
      as a parameter, since its values depend on the method (direct sums
      or FFT) the library picks.  Where no operation rounds, the two
      agree.
    - 1-D numpy arrays are lists, numpy arrays that may be 1-D or 2-D are
      [ndarray].
    - A Python exception is the left injection of a sum; [ValueError] keeps
      the place that raised it, since every error of the program is a
      [ValueError].
    - The library routines the program calls (numpy, scipy.signal,
      soundfile, scipy.io.wavfile, glob) are written out from their
      documented behaviour; the PESQ oracle and the audio device are
      parameters. *)

From Stdlib Require Import String Ascii Bool Arith ZArith QArith Qabs Qround Qpower List.
From Stdlib Require Import Lia Lra Psatz.
Import ListNotations.

Open Scope Q_scope.

(* ================================================================== *)
(** * Exceptions *)

Inductive value_error : Type :=
| ve_sample_rate_mismatch (sr_ref sr : Z)
    (** [raise ValueError(f"Sample rate mismatch: ...")], the two guards *)
| ve_empty_array.
    (** numpy's [ValueError] on a zero-size array *)

Inductive exn (E : Type) : Type :=
| ValueError (why : value_error)
| OracleFailure (e : E).
Arguments ValueError {E} why.
Arguments OracleFailure {E} e.

Definition result (E A : Type) : Type := (exn E + A)%type.

Definition bind {E A B : Type} (m : result E A) (k : A -> result E B) : result E B :=
  match m with
  | inl e => inl e
  | inr a => k a
  end.

Notation "x <- m ;; k" := (bind m (fun x => k))
  (at level 61, m at next level, right associativity).

(* ================================================================== *)
(** * Floating-point formats *)

Module fl.

(** A binary format: the number of bits of the significand and the
    exponent of the smallest positive (subnormal) number.  Infinities and
    NaN are outside the model. *)
Record format : Type := { prec : Z; emin : Z }.

(** [np.float32], the dtype of a capture of the device. *)
Definition binary32 : format := {| prec := 24; emin := -149 |}.

(** [np.float64] and the Python [float]. *)
Definition binary64 : format := {| prec := 53; emin := -1074 |}.

Definition pow2 (k : Z) : Q := 2 ^ k.

(** [floor (log2 a)] for [0 < a]. *)
Definition ilog2 (a : Q) : Z :=
  let k := (Z.log2 (Qnum a) - Z.log2 (Zpos (Qden a)))%Z in
  if Qle_bool (pow2 k) a then k else (k - 1)%Z.

(** The nearest integer, a tie going to the even one. *)
Definition rne (q : Q) : Z :=
  let f := Qfloor q in
  let r := q - inject_Z f in
  if Qle_bool r (1 # 2)
  then (if Qle_bool (1 # 2) r then (if Z.even f then f else f + 1)%Z else f)
  else (f + 1)%Z.

(** The exponent of the unit in the last place of [q]. *)
Definition exponent (f : format) (q : Q) : Z :=
  Z.max (emin f) (ilog2 (Qabs q) - (prec f - 1)).

(** The number of format [f] nearest to [q], a tie going to the even
    significand: the result of every correctly rounded operation whose
    exact value is [q]. *)
Definition round (f : format) (q : Q) : Q :=
  let e := exponent f q in
  inject_Z (rne (q / pow2 e)) * pow2 e.

(** [m * 2^e] with a significand of at most [prec] bits and an exponent
    in range is a number of the format. *)
Definition representable (f : format) (x : Q) : Prop :=
  exists m e : Z, x == inject_Z m * pow2 e /\
    (Z.abs m < 2 ^ prec f)%Z /\ (emin f <= e)%Z.

End fl.

(* ================================================================== *)
(** * numpy *)

Module np.

(** An array of one or of two dimensions (rows of an [n x channels]
    array). *)
Inductive ndarray (A : Type) : Type :=
| Array1 (data : list A)
| Array2 (rows : list (list A)).
Arguments Array1 {A} data.
Arguments Array2 {A} rows.

Definition ndim {A} (a : ndarray A) : Z :=
  match a with
  | Array1 _ => 1
  | Array2 _ => 2
  end%Z.

Definition amap {A B} (f : A -> B) (a : ndarray A) : ndarray B :=
  match a with
  | Array1 d => Array1 (map f d)
  | Array2 r => Array2 (map (map f) r)
  end.

(** [len(a)]: the size of the first axis. *)
Definition len {A} (a : ndarray A) : nat :=
  match a with
  | Array1 d => length d
  | Array2 r => length r
  end.

Definition Qltb (x y : Q) : bool := negb (Qle_bool y x).

Definition sum (l : list Q) : Q := fold_right Qplus 0 l.

(** [a.mean(axis=1)] of a 2-D float64 array: the mean of every row, which
    numpy computes as the sum of the row divided by the number of its
    entries.  The division rounds to double precision; the sum of the
    samples of a 16-bit file is exact. *)
Definition mean (row : list Q) : Q :=
  fl.round fl.binary64 (sum row / inject_Z (Z.of_nat (length row))).
Definition mean_axis1 (rows : list (list Q)) : list Q := map mean rows.

(** [np.argmax]: the index of the first occurrence of the maximum. *)
Fixpoint argmax_from (best : nat) (vbest : Q) (i : nat) (l : list Q) : nat :=
  match l with
  | [] => best
  | v :: l' =>
      if Qltb vbest v then argmax_from i v (S i) l'
      else argmax_from best vbest (S i) l'
  end.

Definition argmax {E} (l : list Q) : result E nat :=
  match l with
  | [] => inl (ValueError ve_empty_array)
  | v :: l' => inr (argmax_from 0%nat v 1%nat l')
  end.

(** [a.max()]. *)
Fixpoint max_from (vbest : Q) (l : list Q) : Q :=
  match l with
  | [] => vbest
  | v :: l' => max_from (if Qltb vbest v then v else vbest) l'
  end.

Definition amax {E} (l : list Q) : result E Q :=
  match l with
  | [] => inl (ValueError ve_empty_array)
  | v :: l' => inr (max_from v l')
  end.

(** [np.abs]. *)
Definition abs (l : list Q) : list Q := map Qabs l.

(** [a[k:]] for an index [0 <= k]. *)
Definition slice_from {A} (a : list A) (k : Z) : list A := skipn (Z.to_nat k) a.

(** [a[:n]] for [0 <= n]. *)
Definition slice_to {A} (a : list A) (n : nat) : list A := firstn n a.

(** [np.pad(a, (k, 0), mode='constant')]: [k] zeros in front. *)
Definition pad_front (a : list Q) (k : Z) : list Q := repeat 0 (Z.to_nat k) ++ a.

(** Conversion of a float to an integer: the fraction is discarded
    (rounding toward zero). *)
Definition trunc (q : Q) : Z := Z.quot (Qnum q) (Zpos (Qden q)).

(** Two's-complement reduction to 16 bits. *)
Definition wrap16 (z : Z) : Z := ((z + 32768) mod 65536 - 32768)%Z.

(** [x.astype(np.int16)] on a float: a C conversion, which discards the
    fraction.  Outside the 16-bit range the C conversion is not defined;
    what x86-64 does is written out: the value is converted to 32 bits and
    its low 16 bits are kept, and a value beyond the 32-bit range
    converts to [0x80000000], whose low 16 bits are zero. *)
Definition astype_int16 (q : Q) : Z :=
  let t := trunc q in
  if ((-2147483648 <=? t) && (t <=? 2147483647))%Z then wrap16 t else 0%Z.

End np.

Import np.

(* ================================================================== *)
(** * scipy.signal *)

Module signal.

(** [y_m], with [y_m = 0] when [m] is outside the range of [y]. *)
Definition at0 (y : list Q) (m : Z) : Q :=
  if (m <? 0)%Z then 0 else nth (Z.to_nat m) y 0.

(** [z[k] = sum_{l=0}^{|x|-1} x_l * y_{l-k+|y|-1}]: the value of the full
    cross-correlation of [x] with [y] at output index [k]. *)
Definition corr_at (x y : list Q) (k : nat) : Q :=
  sum (map (fun l => nth l x 0
                     * at0 y (Z.of_nat l - Z.of_nat k + (Z.of_nat (length y) - 1)))
           (seq 0 (length x))).

(** [correlate(x, y, mode='full')] on 1-D real arrays, in exact
    arithmetic: the output has [|x| + |y| - 1] entries, index [|y| - 1] is
    lag zero.  An empty input is refused with a [ValueError].  The values
    the library returns are floating-point approximations of these
    ([fp.best_index] takes the routine as a parameter). *)
Definition correlate {E} (x y : list Q) : result E (list Q) :=
  match x, y with
  | [], _ | _, [] => inl (ValueError ve_empty_array)
  | _, _ => inr (map (corr_at x y) (seq 0 (length x + length y - 1)))
  end.

End signal.

(* ================================================================== *)
(** * WAV files *)

(** A 16-bit PCM WAV file: its sample rate and its frames.  Both readers
    return a 1-D array for a mono file and a 2-D array (frames by
    channels) otherwise. *)
Record wav_file : Type := {
  wav_rate : Z;
  wav_data : ndarray Z
}.

(** [soundfile.read]: amplitudes scaled to [-1, 1), then the rate. *)
Definition sf_read (f : wav_file) : ndarray Q * Z :=
  (amap (fun v => inject_Z v / 32768) (wav_data f), wav_rate f).

(** [scipy.io.wavfile.read]: the rate, then the integer samples as stored. *)
Definition wavfile_read (f : wav_file) : Z * ndarray Z :=
  (wav_rate f, wav_data f).

(* ================================================================== *)
(** * get_next_number *)

Module naming.

Open Scope string_scope.

(** [s.startswith(p)], returning what follows the prefix. *)
Fixpoint strip_prefix (p s : string) : option string :=
  match p, s with
  | EmptyString, _ => Some s
  | String a p', String b s' =>
      if Ascii.eqb a b then strip_prefix p' s' else None
  | String _ _, EmptyString => None
  end.

Fixpoint ends_with (suffix s : string) : bool :=
  if String.eqb suffix s then true
  else match s with
       | EmptyString => false
       | String _ s' => ends_with suffix s'
       end.

(** [fnmatch] of a name against ["Degraded_*.wav"]. *)
Definition matches_pattern (name : string) : bool :=
  match strip_prefix "Degraded_" name with
  | Some rest => ends_with ".wav" rest
  | None => false
  end.

(** [glob.glob("Degraded_*.wav")] over the names of the working
    directory. *)
Definition glob (dir : list string) : list string := filter matches_pattern dir.

(** [s.replace(old, "")] for a non-empty [old]: every occurrence found
    scanning from the left is removed.  [fuel] bounds the scan by the
    length of [s]. *)
Fixpoint remove_all (fuel : nat) (old s : string) : string :=
  match fuel with
  | O => s
  | S fuel' =>
      match strip_prefix old s with
      | Some rest => remove_all fuel' old rest
      | None =>
          match s with
          | EmptyString => EmptyString
          | String c s' => String c (remove_all fuel' old s')
          end
      end
  end.

Definition replace_with_empty (old s : string) : string :=
  remove_all (String.length s) old s.

(** [s.split(sep)[0]] for a one-character separator. *)
Fixpoint split_head (sep : ascii) (s : string) : string :=
  match s with
  | EmptyString => EmptyString
  | String c s' => if Ascii.eqb c sep then EmptyString else String c (split_head sep s')
  end.

(** The characters [int] strips from both ends of an ASCII string: the
    space and the control characters 9 to 13. *)
Definition is_space (c : ascii) : bool :=
  let n := nat_of_ascii c in
  ((9 <=? n) && (n <=? 13) || (n =? 32))%nat.

Definition digit_of (c : ascii) : option Z :=
  let n := nat_of_ascii c in
  if ((48 <=? n) && (n <=? 57))%nat then Some (Z.of_nat n - 48)%Z else None.

Fixpoint lstrip (s : string) : string :=
  match s with
  | String c s' => if is_space c then lstrip s' else s
  | EmptyString => EmptyString
  end.

Fixpoint all_space (s : string) : bool :=
  match s with
  | EmptyString => true
  | String c s' => is_space c && all_space s'
  end.

(** Decimal digits, then optional trailing space; [acc] is the value
    read so far and [seen] tells whether a digit was read. *)
Fixpoint digits (acc : Z) (seen : bool) (s : string) : option Z :=
  match s with
  | EmptyString => if seen then Some acc else None
  | String c s' =>
      match digit_of c with
      | Some d => digits (10 * acc + d)%Z true s'
      | None => if seen && all_space s then Some acc else None
      end
  end.

(** [int(s)] on a string of ASCII characters: optional surrounding
    space, an optional sign, at least one decimal digit.  [None] stands
    for the [ValueError]. *)
Definition int (s : string) : option Z :=
  match lstrip s with
  | String "+" s' => digits 0 false s'
  | String "-" s' => option_map Z.opp (digits 0 false s')
  | s' => digits 0 false s'
  end.

(** [f.replace("Degraded_", "").split("_")[0].split(".")[0]] *)
Definition num_str (f : string) : string :=
  split_head "." (split_head "_" (replace_with_empty "Degraded_" f)).

(** The body of the loop: the number appended for [f], if any. *)
Definition file_number (f : string) : option Z := int (num_str f).

Fixpoint numbers_of (files : list string) : list Z :=
  match files with
  | [] => []
  | f :: files' =>
      match file_number f with
      | Some n => n :: numbers_of files'
      | None => numbers_of files'
      end
  end.

(** [max(numbers)] of a non-empty list. *)
Definition max_list (n : Z) (ns : list Z) : Z := fold_left Z.max ns n.

Definition get_next_number (dir : list string) : Z :=
  match glob dir with
  | [] => 1
  | files =>
      match numbers_of files with
      | [] => 1
      | n :: ns => max_list n ns + 1
      end
  end%Z.

End naming.

(* ================================================================== *)
(** * record_with_voice_trigger *)

Module trigger.

(** The audio device: the chunks that the successive blocking reads
    ([sd.rec] followed by [sd.wait], one channel) deliver, in order. *)
Definition device : Type := list (list Q).

Inductive outcome (E : Type) : Type :=
| Triggered (polled : nat) (rest : device)
    (** the loop was left on frame number [polled] (from 0) *)
| Raised (e : exn E)
| Waiting.
    (** every modelled frame was read and the loop is still running *)
Arguments Triggered {E} polled rest.
Arguments Raised {E} e.
Arguments Waiting {E}.

(** [np.abs(chunk).max()] *)
Definition peak {E} (chunk : list Q) : result E Q := amax (np.abs chunk).

(** The [while True] loop; [polled] counts the frames read before, and
    [threshold] is the threshold as the comparison of line 52 sees it
    ([fp.compared]). *)
Fixpoint wait_for_voice {E} (threshold : Q) (polled : nat) (dev : device) : outcome E :=
  match dev with
  | [] => Waiting
  | chunk :: dev' =>
      match peak chunk with
      | inl e => Raised e
      | inr p =>
          if Qltb threshold p then Triggered polled dev'
          else wait_for_voice threshold (S polled) dev'
      end
  end.

(** The whole function: wait, then one more read, which is the recording
    ([audio.flatten()]); [None] when the modelled frames end before it. *)
Definition record_with_voice_trigger {E} (threshold : Q) (dev : device)
  : outcome E * option (list Q) :=
  match wait_for_voice threshold 0 dev with
  | Triggered n (audio :: rest) => (Triggered n rest, Some audio)
  | o => (o, None)
  end.

End trigger.

(* ================================================================== *)
(** * align_audio *)

Module aligner.

(** Lines 68-69: [ref.mean(axis=1)] when [ref.ndim > 1], which is the case
    of [Array2] exactly. *)
Definition to_mono (a : ndarray Q) : list Q :=
  match a with
  | Array1 d => d
  | Array2 r => mean_axis1 r
  end.

(** Lines 75-76:
    [corr = correlate(rec_audio, ref, mode='full')],
    [lag = np.argmax(corr) - (len(ref) - 1)]. *)
Definition best_index {E} (rec_audio ref : list Q) : result E nat :=
  corr <- signal.correlate rec_audio ref ;;
  argmax corr.

Definition lag_of (best : nat) (ref : list Q) : Z :=
  (Z.of_nat best - (Z.of_nat (length ref) - 1))%Z.

Definition lag_samples {E} (rec_audio ref : list Q) : result E Z :=
  best <- best_index rec_audio ref ;;
  inr (lag_of best ref).

(** Lines 82-85. *)
Definition resync (rec_audio : list Q) (lag : Z) : list Q :=
  if (0 <? lag)%Z then slice_from rec_audio lag
  else pad_front rec_audio (Z.abs lag).

(** Lines 87-88. *)
Definition truncate (aligned ref : list Q) : list Q :=
  let min_len := Nat.min (length aligned) (length ref) in
  slice_to aligned min_len.

(** Line 77: [offset_sec = lag / sr_ref] (the rate of a WAV file is
    positive). *)
Definition offset_of (lag sr_ref : Z) : Q := inject_Z lag / inject_Z sr_ref.

(** The function on the already loaded reference. *)
Definition align_loaded {E} (ref0 : ndarray Q) (sr_ref : Z)
                        (rec_audio : list Q) (rec_sr : Z) : result E (list Q * Q) :=
  let ref := to_mono ref0 in
  if negb (sr_ref =? rec_sr)%Z
  then inl (ValueError (ve_sample_rate_mismatch sr_ref rec_sr))
  else
    lag <- lag_samples rec_audio ref ;;
    let offset_sec := offset_of lag sr_ref in
    let aligned := resync rec_audio lag in
    inr (truncate aligned ref, offset_sec).

Definition align_audio {E} (ref_file : wav_file) (rec_audio : list Q) (rec_sr : Z)
  : result E (list Q * Q) :=
  let '(ref0, sr_ref) := sf_read ref_file in
  align_loaded ref0 sr_ref rec_audio rec_sr.

(** The value of [ref] from line 70 on. *)
Definition loaded_reference (ref_file : wav_file) : list Q :=
  to_mono (fst (sf_read ref_file)).

End aligner.

(* ================================================================== *)
(** * calculate_pesq *)

Module scorer.

Inductive pesq_mode : Type := nb | wb.

Definition mode_name (m : pesq_mode) : string :=
  match m with
  | nb => "narrowband"
  | wb => "wideband"
  end.

(** [(deg_audio * 32767).astype(np.int16)], one sample, where the product
    is exact (as it is in double precision for every sample read from a
    16-bit file); [fp.quantize] has the rounding of the product. *)
Definition quantize (x : Q) : Z := astype_int16 (x * 32767).

(** The arguments of the call [pesq(sample_rate, ref, deg_int16, mode)]. *)
Record pesq_call : Type := {
  call_fs : Z;
  call_ref : ndarray Z;
  call_deg : list Z;
  call_mode : pesq_mode
}.

(** Everything before the call of the oracle. *)
Definition prepare {E} (ref_file : wav_file) (deg_audio : list Q) (sample_rate : Z)
  : result E pesq_call :=
  let '(fs_ref, ref) := wavfile_read ref_file in
  if negb (fs_ref =? sample_rate)%Z
  then inl (ValueError (ve_sample_rate_mismatch fs_ref sample_rate))
  else
    let mode := if (sample_rate =? 8000)%Z then nb else wb in
    let deg_int16 := map quantize deg_audio in
    inr {| call_fs := sample_rate; call_ref := ref;
           call_deg := deg_int16; call_mode := mode |}.

Section Oracle.

(** The PESQ oracle: a score, or a failure of its own. *)
Variables (E Score : Type).
Variable pesq : Z -> ndarray Z -> list Z -> pesq_mode -> E + Score.

Definition call_oracle (c : pesq_call) : result E Score :=
  match pesq (call_fs c) (call_ref c) (call_deg c) (call_mode c) with
  | inl e => inl (OracleFailure e)
  | inr s => inr s
  end.

Definition calculate_pesq (ref_file : wav_file) (deg_audio : list Q) (sample_rate : Z)
  : result E (Score * string) :=
  c <- prepare ref_file deg_audio sample_rate ;;
  score <- call_oracle c ;;
  inr (score, mode_name (call_mode c)).

End Oracle.

End scorer.

(* ================================================================== *)
(** * The functions as computed in floating point *)

Module fp.

(** ** record_with_voice_trigger *)

(** Line 52 compares the float32 scalar [np.abs(chunk).max()] with the
    Python float [threshold].  NumPy 1 promotes both to double precision,
    where the two are compared as they are; NumPy 2 converts the threshold
    to float32 first. *)
Inductive promotion : Type :=
| numpy1
| numpy2.

(** The threshold as the comparison sees it. *)
Definition compared (p : promotion) (threshold : Q) : Q :=
  match p with
  | numpy1 => threshold
  | numpy2 => fl.round fl.binary32 threshold
  end.

Definition wait_for_voice {E} (p : promotion) (threshold : Q) (polled : nat)
                          (dev : trigger.device) : trigger.outcome E :=
  trigger.wait_for_voice (compared p threshold) polled dev.

Definition record_with_voice_trigger {E} (p : promotion) (threshold : Q)
                                     (dev : trigger.device)
  : trigger.outcome E * option (list Q) :=
  trigger.record_with_voice_trigger (compared p threshold) dev.

(** ** align_audio *)

Section Correlate.

Variable E : Type.

(** [correlate(x, y, mode='full')] as the library computes it: the values
    are floating-point results of the method it picks. *)
Variable correlate : list Q -> list Q -> result E (list Q).

(** Lines 75-76. *)
Definition best_index (rec_audio ref : list Q) : result E nat :=
  corr <- correlate rec_audio ref ;;
  argmax corr.

Definition lag_samples (rec_audio ref : list Q) : result E Z :=
  best <- best_index rec_audio ref ;;
  inr (aligner.lag_of best ref).

(** Line 77: [lag / sr_ref], a division in double precision. *)
Definition offset_of (lag sr_ref : Z) : Q :=
  fl.round fl.binary64 (inject_Z lag / inject_Z sr_ref).

Definition align_loaded (ref0 : ndarray Q) (sr_ref : Z)
                        (rec_audio : list Q) (rec_sr : Z) : result E (list Q * Q) :=
  let ref := aligner.to_mono ref0 in
  if negb (sr_ref =? rec_sr)%Z
  then inl (ValueError (ve_sample_rate_mismatch sr_ref rec_sr))
  else
    lag <- lag_samples rec_audio ref ;;
    let offset_sec := offset_of lag sr_ref in
    let aligned := aligner.resync rec_audio lag in
    inr (aligner.truncate aligned ref, offset_sec).

Definition align_audio (ref_file : wav_file) (rec_audio : list Q) (rec_sr : Z)
  : result E (list Q * Q) :=
  let '(ref0, sr_ref) := sf_read ref_file in
  align_loaded ref0 sr_ref rec_audio rec_sr.

(** What mode ['full'] fixes of the result, whatever the method: an empty
    input is refused, and otherwise there is one value for each of the
    [|x| + |y| - 1] lags. *)
Definition full_mode : Prop :=
  (forall x y, x = [] \/ y = [] -> correlate x y = inl (ValueError ve_empty_array))
  /\ (forall x y, x <> [] -> y <> [] ->
        exists corr, correlate x y = inr corr
                     /\ length corr = (length x + length y - 1)%nat).

End Correlate.

(** ** calculate_pesq *)

(** [(deg_audio * 32767).astype(np.int16)], one sample of an array of
    format [f]: the product is rounded to the format of the array, then
    converted. *)
Definition quantize (f : fl.format) (x : Q) : Z :=
  astype_int16 (fl.round f (x * 32767)).

Definition prepare {E} (f : fl.format) (ref_file : wav_file) (deg_audio : list Q)
                   (sample_rate : Z) : result E scorer.pesq_call :=
  let '(fs_ref, ref) := wavfile_read ref_file in
  if negb (fs_ref =? sample_rate)%Z
  then inl (ValueError (ve_sample_rate_mismatch fs_ref sample_rate))
  else
    let mode := if (sample_rate =? 8000)%Z then scorer.nb else scorer.wb in
    let deg_int16 := map (quantize f) deg_audio in
    inr {| scorer.call_fs := sample_rate; scorer.call_ref := ref;
           scorer.call_deg := deg_int16; scorer.call_mode := mode |}.

Section Oracle.

Variables (E Score : Type).
Variable pesq : Z -> ndarray Z -> list Z -> scorer.pesq_mode -> E + Score.

Definition calculate_pesq (f : fl.format) (ref_file : wav_file) (deg_audio : list Q)
                          (sample_rate : Z) : result E (Score * string) :=
  c <- prepare f ref_file deg_audio sample_rate ;;
  score <- scorer.call_oracle E Score pesq c ;;
  inr (score, scorer.mode_name (scorer.call_mode c)).

End Oracle.

End fp.

(* ================================================================== *)
(** * The specification's wording, where it differs from the code *)

Module spec.

(** Rounding to the nearest integer, ties to the even one ([round]). *)
Definition round (q : Q) : Z :=
  let f := Qfloor q in
  let r := q - inject_Z f in
  if Qltb r (1 # 2) then f
  else if Qltb (1 # 2) r then (f + 1)%Z
  else if Z.even f then f else (f + 1)%Z.

Definition clip16 (z : Z) : Z := Z.max (-32768) (Z.min 32767 z).

(** "[round(sample * 32767)] clipped to the representable range" *)
Definition quantize (x : Q) : Z := clip16 (round (x * 32767)).

(** "the index of the maximum-magnitude correlation value (ties broken by
    first occurrence)" *)
Definition best_index {E} (captured reference : list Q) : result E nat :=
  corr <- signal.correlate captured reference ;;
  argmax (np.abs corr).

(** "the next unused integer": no file carries [n], and every smaller
    positive integer is carried by some file. *)
Definition smallest_unused (numbers : list Z) (n : Z) : Prop :=
  (0 < n)%Z /\ ~ In n numbers /\ forall m, (0 < m < n)%Z -> In m numbers.

End spec.

(* ================================================================== *)
(** * Predicates used in the statements *)

(** [j] is the first index at which [l] takes its maximum. *)
Definition first_max (l : list Q) (j : nat) : Prop :=
  (j < length l)%nat
  /\ (forall i, (i < length l)%nat -> nth i l 0 <= nth j l 0)
  /\ (forall i, (i < j)%nat -> nth i l 0 < nth j l 0).

(** A frame is quiet when its peak exists and does not exceed the
    threshold (the loop reads the next frame); it is loud when its peak
    exceeds the threshold. *)
Definition quiet (E : Type) (threshold : Q) (chunk : list Q) : Prop :=
  exists q, @trigger.peak E chunk = inr q /\ q <= threshold.

Definition loud (E : Type) (threshold : Q) (chunk : list Q) : Prop :=
  exists p, @trigger.peak E chunk = inr p /\ threshold < p.

(** Some sample is not zero. *)
Definition nonzero (x : list Q) : Prop := exists i, ~ nth i x 0 == 0.

(** The inner product of two sequences laid side by side from their first
    elements, over their common length. *)
Fixpoint dot (x y : list Q) : Q :=
  match x, y with
  | a :: x', b :: y' => a * b + dot x' y'
  | _, _ => 0
  end.

(** The sum defining [corr_at], with the index into [y] starting at [c]. *)
Fixpoint wsum (x : list Q) (y : list Q) (c : Z) : Q :=
  match x with
  | [] => 0
  | a :: x' => a * signal.at0 y c + wsum x' y (c + 1)
  end.

(* ================================================================== *)
(** * The names [main] builds *)

Module names.

Open Scope string_scope.

(** The character of a decimal digit [0 <= d <= 9]. *)
Definition digit_char (d : Z) : ascii := ascii_of_nat (48 + Z.to_nat d).

(** The decimal digits of [n >= 0] in front of [acc]; [fuel] bounds the
    number of digits. *)
Fixpoint decimal (fuel : nat) (n : Z) (acc : string) : string :=
  match fuel with
  | O => acc
  | S fuel' =>
      let acc' := String (digit_char (n mod 10)) acc in
      if (n <? 10)%Z then acc' else decimal fuel' (n / 10) acc'
  end.

Definition digits_fuel (n : Z) : nat := S (Z.to_nat (Z.log2 n)).

(** [str(n)], as in [f"Degraded_{number}.wav"]. *)
Definition str (n : Z) : string :=
  if (n <? 0)%Z then String "-" (decimal (digits_fuel (- n)) (- n) "")
  else decimal (digits_fuel n) n "".

(** [s.replace(old, new)] for a non-empty [old]: every occurrence found
    scanning from the left is replaced.  [fuel] bounds the scan by the
    length of [s]. *)
Fixpoint replace_from (fuel : nat) (old new s : string) : string :=
  match fuel with
  | O => s
  | S fuel' =>
      match naming.strip_prefix old s with
      | Some rest => new ++ replace_from fuel' old new rest
      | None =>
          match s with
          | EmptyString => EmptyString
          | String c s' => String c (replace_from fuel' old new s')
          end
      end
  end.

Definition replace (old new s : string) : string :=
  replace_from (String.length s) old new s.

(** Strings without ["D"], ["_"] and ["."]: neither the removal of
    ["Degraded_"] nor the two splits cut inside them. *)
Definition plain_char (c : ascii) : bool :=
  negb (Ascii.eqb c "D") && negb (Ascii.eqb c "_") && negb (Ascii.eqb c ".").

Fixpoint plain (s : string) : bool :=
  match s with
  | EmptyString => true
  | String c s' => plain_char c && plain s'
  end.

(** [f"Degraded_{number}.wav"] *)
Definition filename (number : Z) : string := "Degraded_" ++ str number ++ ".wav".

(** [filename.replace('.wav', '_aligned.wav')] *)
Definition aligned_filename (number : Z) : string :=
  replace ".wav" "_aligned.wav" (filename number).

(** [f"Degraded_{number}_PESQ_{score:.3f}.wav"], the score already
    formatted. *)
Definition new_filename (number : Z) (score : string) : string :=
  "Degraded_" ++ str number ++ "_PESQ_" ++ score ++ ".wav".

(** [f"Degraded_{number}_PESQ_{score:.3f}_aligned.wav"] *)
Definition new_aligned_filename (number : Z) (score : string) : string :=
  "Degraded_" ++ str number ++ "_PESQ_" ++ score ++ "_aligned.wav".

(** The names a run with this number and score creates. *)
Definition run_names (n : Z) (score : string) : list string :=
  [filename n; aligned_filename n; new_filename n score; new_aligned_filename n score].

End names.

(* ================================================================== *)
(** * main *)

Module pipeline.

Open Scope string_scope.

(** The files of the working directory, by name; the first entry of a
    name is the file.  The reference is one of them: paths into other
    directories are outside the model. *)
Definition filesystem : Type := list (string * wav_file).

Fixpoint lookup (name : string) (fs : filesystem) : option wav_file :=
  match fs with
  | [] => None
  | (n, w) :: fs' => if String.eqb name n then Some w else lookup name fs'
  end.

Definition remove (name : string) (fs : filesystem) : filesystem :=
  filter (fun entry => negb (String.eqb name (fst entry))) fs.

(** Creating or overwriting a file. *)
Definition write (name : string) (w : wav_file) (fs : filesystem) : filesystem :=
  (name, w) :: remove name fs.

(** The names [glob] runs over. *)
Definition listdir (fs : filesystem) : list string := map fst fs.

(** The command line: [reference], [--threshold], [--sample-rate]
    ([--duration] only sets the length of the read that the device model
    delivers).  [threshold] stands for the threshold as the comparison of
    the trigger sees it ([fp.compared]); [main] is written over the
    exact-arithmetic functions. *)
Record args : Type := {
  reference : string;
  threshold : Q;
  sample_rate : Z
}.

(** Lines 180-189. *)
Inductive quality : Type := Excellent | Good | Fair | Poor | Bad.

Definition rating (score : Q) : quality :=
  if Qle_bool 4 score then Excellent
  else if Qle_bool (7 # 2) score then Good
  else if Qle_bool 3 score then Fair
  else if Qle_bool (5 # 2) score then Poor
  else Bad.

(** What the [try] block can raise. *)
Inductive failure (E : Type) : Type :=
| Raise (e : exn E)
| FileNotFoundError (path : string).
Arguments Raise {E} e.
Arguments FileNotFoundError {E} path.

(** A step either goes on, raises, or never returns (the device has no
    further frame in the model). *)
Inductive stop (E : Type) : Type :=
| Blocked
| Failed (e : failure E).
Arguments Blocked {E}.
Arguments Failed {E} e.

(** The results printed at the end of a successful run. *)
Record report : Type := {
  original_file : string;
  aligned_file : string;
  time_offset : Q;
  pesq_score : Q;
  pesq_mode : string;
  quality_rating : quality
}.

Inductive run_result (E : Type) : Type :=
| ReferenceNotFound
| StillBlocked
| Error (e : failure E)
| Completed (r : report).
Arguments ReferenceNotFound {E}.
Arguments StillBlocked {E}.
Arguments Error {E} e.
Arguments Completed {E} r.

(** Steps that read and change the files and may stop. *)
Definition io (E A : Type) : Type := filesystem -> filesystem * (stop E + A).

Definition ret {E A} (a : A) : io E A := fun fs => (fs, inr a).

Definition iobind {E A B} (m : io E A) (k : A -> io E B) : io E B :=
  fun fs =>
    match m fs with
    | (fs', inl s) => (fs', inl s)
    | (fs', inr a) => k a fs'
    end.

Notation "x <~ m ;; k" := (iobind m (fun x => k))
  (at level 61, m at next level, right associativity).

Definition lift {E A} (r : result E A) : io E A :=
  fun fs =>
    match r with
    | inl e => (fs, inl (Failed (Raise e)))
    | inr a => (fs, inr a)
    end.

(** Opening a file for reading. *)
Definition open_wav {E} (path : string) : io E wav_file :=
  fun fs =>
    match lookup path fs with
    | Some w => (fs, inr w)
    | None => (fs, inl (Failed (FileNotFoundError path)))
    end.

(** [os.rename(src, dst)], which replaces an existing [dst]. *)
Definition os_rename {E} (src dst : string) : io E unit :=
  fun fs =>
    match lookup src fs with
    | Some w => (write dst w (remove src fs), inr tt)
    | None => (fs, inl (Failed (FileNotFoundError src)))
    end.

(** [record_with_voice_trigger] on the frames of the device. *)
Definition record {E} (threshold : Q) (dev : trigger.device) : io E (list Q) :=
  fun fs =>
    match trigger.record_with_voice_trigger threshold dev with
    | (trigger.Triggered _ _, Some audio) => (fs, inr audio)
    | (trigger.Raised e, _) => (fs, inl (Failed (Raise e)))
    | _ => (fs, inl Blocked)
    end.

Section Main.

Variable E : Type.
(** The PESQ oracle. *)
Variable pesq : Z -> ndarray Z -> list Z -> scorer.pesq_mode -> E + Q.
(** The file that [sf.write] stores for an array and a rate. *)
Variable sf_encode : list Q -> Z -> wav_file.
(** [f"{score:.3f}"] *)
Variable format_score : Q -> string.

Definition sf_write (name : string) (audio : list Q) (sr : Z) : io E unit :=
  fun fs => (write name (sf_encode audio sr) fs, inr tt).

(** The [try] block, lines 137-193. *)
Definition body (a : args) (number : Z) (dev : trigger.device) : io E report :=
  let filename := names.filename number in
  audio <~ record (threshold a) dev ;;
  _ <~ sf_write filename audio (sample_rate a) ;;
  ref_file <~ open_wav (reference a) ;;
  r <~ lift (aligner.align_audio ref_file audio (sample_rate a)) ;;
  let aligned := fst r in
  let offset := snd r in
  let aligned_filename := names.aligned_filename number in
  _ <~ sf_write aligned_filename aligned (sample_rate a) ;;
  ref_file' <~ open_wav (reference a) ;;
  s <~ lift (scorer.calculate_pesq E Q pesq ref_file' aligned (sample_rate a)) ;;
  let score := fst s in
  let mode := snd s in
  let new_filename := names.new_filename number (format_score score) in
  let new_aligned_filename := names.new_aligned_filename number (format_score score) in
  _ <~ os_rename filename new_filename ;;
  _ <~ os_rename aligned_filename new_aligned_filename ;;
  ret {| original_file := new_filename;
         aligned_file := new_aligned_filename;
         time_offset := offset;
         pesq_score := score;
         pesq_mode := mode;
         quality_rating := rating score |}.

(** [main]: the files afterwards and how the run ended (what is printed
    is left out, but for the results, which make the report). *)
Definition main (a : args) (fs : filesystem) (dev : trigger.device)
  : filesystem * run_result E :=
  match lookup (reference a) fs with
  | None => (fs, ReferenceNotFound)
  | Some _ =>
      let number := naming.get_next_number (listdir fs) in
      match body a number dev fs with
      | (fs', inr r) => (fs', Completed r)
      | (fs', inl Blocked) => (fs', StillBlocked)
      | (fs', inl (Failed e)) => (fs', Error e)
      end
  end.

End Main.

End pipeline.

(* ================================================================== *)
(** * Rounding to a floating-point format *)

Lemma pow2_pos (k : Z) : 0 < fl.pow2 k.
Proof. apply Qpower_0_lt. reflexivity. Qed.

Lemma pow2_add (a b : Z) : fl.pow2 (a + b) == fl.pow2 a * fl.pow2 b.
Proof. apply Qpower_plus. discriminate. Qed.

Lemma pow2_le (a b : Z) : (a <= b)%Z -> fl.pow2 a <= fl.pow2 b.
Proof. intros H. apply Qpower_le_compat_l; [exact H | discriminate]. Qed.

Lemma pow2_lt (a b : Z) : (a < b)%Z -> fl.pow2 a < fl.pow2 b.
Proof. intros H. apply Qpower_lt_compat_l; [exact H | reflexivity]. Qed.

Lemma pow2_lt_inv (a b : Z) : fl.pow2 a < fl.pow2 b -> (a < b)%Z.
Proof. intros H. apply (Qpower_lt_compat_l_inv 2); [exact H | reflexivity]. Qed.

Lemma pow2_Z (k : Z) : (0 <= k)%Z -> fl.pow2 k == inject_Z (2 ^ k).
Proof. intros H. unfold fl.pow2. rewrite Zpower_Qpower by exact H. reflexivity. Qed.

Lemma pow2_sub (a b : Z) : fl.pow2 (a - b) * fl.pow2 b == fl.pow2 a.
Proof.
  rewrite <- pow2_add. replace (a - b + b)%Z with a by lia. reflexivity.
Qed.

Lemma ilog2_spec (a : Q) :
  0 < a -> fl.pow2 (fl.ilog2 a) <= a /\ a < fl.pow2 (fl.ilog2 a + 1).
Proof.
  intros Ha. destruct a as [n d].
  assert (Hn : (0 < n)%Z) by (unfold Qlt in Ha; simpl in Ha; lia).
  pose proof (Z.log2_spec n Hn) as [Hn1 Hn2].
  pose proof (Z.log2_spec (Zpos d) (Pos2Z.is_pos d)) as [Hd1 Hd2].
  pose proof (Z.log2_nonneg n) as Hln.
  pose proof (Z.log2_nonneg (Zpos d)) as Hld.
  set (ln := Z.log2 n) in *. set (ld := Z.log2 (Zpos d)) in *.
  assert (Hq : n # d == inject_Z n / inject_Z (Zpos d)) by apply Qmake_Qdiv.
  assert (Hdpos : 0 < inject_Z (Zpos d)) by reflexivity.
  assert (Hlo : fl.pow2 (ln - ld - 1) <= n # d).
  { rewrite Hq. apply Qle_shift_div_l; [exact Hdpos|].
    apply Qle_trans with (fl.pow2 (ln - ld - 1) * fl.pow2 (ld + 1)).
    - apply Qmult_le_l; [apply pow2_pos|].
      rewrite (pow2_Z (ld + 1)) by lia. rewrite <- Zle_Qle.
      replace (ld + 1)%Z with (Z.succ ld) by lia. lia.
    - rewrite <- pow2_add. replace (ln - ld - 1 + (ld + 1))%Z with ln by lia.
      rewrite (pow2_Z ln) by lia. rewrite <- Zle_Qle. exact Hn1. }
  assert (Hhi : n # d < fl.pow2 (ln - ld + 1)).
  { rewrite Hq. apply Qlt_shift_div_r; [exact Hdpos|].
    apply Qlt_le_trans with (fl.pow2 (ln - ld + 1) * fl.pow2 ld).
    - rewrite <- pow2_add. replace (ln - ld + 1 + ld)%Z with (Z.succ ln) by lia.
      rewrite (pow2_Z (Z.succ ln)) by lia. rewrite <- Zlt_Qlt. exact Hn2.
    - apply Qmult_le_l; [apply pow2_pos|].
      rewrite (pow2_Z ld) by lia. rewrite <- Zle_Qle. exact Hd1. }
  unfold fl.ilog2. cbn [Qnum Qden]. fold ln. fold ld.
  destruct (Qle_bool (fl.pow2 (ln - ld)) (n # d)) eqn:Hb.
  - apply Qle_bool_iff in Hb. split; [exact Hb | exact Hhi].
  - assert (Hlt : n # d < fl.pow2 (ln - ld)).
    { apply Qnot_le_lt. intros Hc. apply Qle_bool_iff in Hc. congruence. }
    split.
    + exact Hlo.
    + replace (ln - ld - 1 + 1)%Z with (ln - ld)%Z by lia. exact Hlt.
Qed.

Lemma ilog2_lt (a : Q) (k : Z) : 0 < a -> a < fl.pow2 k -> (fl.ilog2 a < k)%Z.
Proof.
  intros Ha Hk. destruct (ilog2_spec a Ha) as [H1 _].
  apply pow2_lt_inv. eapply Qle_lt_trans; eassumption.
Qed.

Lemma ilog2_ge (a : Q) (k : Z) : 0 < a -> fl.pow2 k <= a -> (k <= fl.ilog2 a)%Z.
Proof.
  intros Ha Hk. destruct (ilog2_spec a Ha) as [_ H2].
  assert (H : (k < fl.ilog2 a + 1)%Z)
    by (apply pow2_lt_inv; eapply Qle_lt_trans; eassumption).
  lia.
Qed.

Lemma ilog2_mono (a b : Q) : 0 < a -> a <= b -> (fl.ilog2 a <= fl.ilog2 b)%Z.
Proof.
  intros Ha Hab. apply ilog2_ge.
  - eapply Qlt_le_trans; eassumption.
  - destruct (ilog2_spec a Ha) as [H1 _]. eapply Qle_trans; eassumption.
Qed.

Lemma ilog2_comp (a b : Q) : 0 < a -> a == b -> fl.ilog2 a = fl.ilog2 b.
Proof.
  intros Ha Hab.
  assert (Hb : 0 < b) by (rewrite <- Hab; exact Ha).
  assert (fl.ilog2 a <= fl.ilog2 b)%Z by (apply ilog2_mono; [exact Ha | rewrite Hab; apply Qle_refl]).
  assert (fl.ilog2 b <= fl.ilog2 a)%Z by (apply ilog2_mono; [exact Hb | rewrite Hab; apply Qle_refl]).
  lia.
Qed.

Lemma rne_cases (q : Q) :
  let f := Qfloor q in
  (q - inject_Z f < 1 # 2 /\ fl.rne q = f) \/
  (1 # 2 < q - inject_Z f /\ fl.rne q = (f + 1)%Z) \/
  (q - inject_Z f == 1 # 2 /\ fl.rne q = if Z.even f then f else (f + 1)%Z).
Proof.
  intros f. unfold fl.rne. fold f.
  destruct (Qle_bool (q - inject_Z f) (1 # 2)) eqn:H1;
    destruct (Qle_bool (1 # 2) (q - inject_Z f)) eqn:H2.
  - apply Qle_bool_iff in H1. apply Qle_bool_iff in H2.
    right. right. split; [apply Qle_antisym; assumption | reflexivity].
  - apply Qle_bool_iff in H1. left. split; [|reflexivity].
    apply Qnot_le_lt. intros Hc. apply Qle_bool_iff in Hc. congruence.
  - right. left. split; [|reflexivity].
    apply Qnot_le_lt. intros Hc. apply Qle_bool_iff in Hc. congruence.
  - right. left. split; [|reflexivity].
    apply Qnot_le_lt. intros Hc. apply Qle_bool_iff in Hc. congruence.
Qed.

Lemma floor_bounds (q : Q) : inject_Z (Qfloor q) <= q /\ q < inject_Z (Qfloor q) + 1.
Proof.
  split; [apply Qfloor_le|].
  pose proof (Qlt_floor q) as H. rewrite inject_Z_plus in H. exact H.
Qed.

Lemma rne_range (q : Q) : (Qfloor q <= fl.rne q <= Qfloor q + 1)%Z.
Proof.
  destruct (rne_cases q) as [[_ H] | [[_ H] | [_ H]]]; rewrite H;
    try destruct (Z.even (Qfloor q)); lia.
Qed.

Lemma rne_inject (z : Z) : fl.rne (inject_Z z) = z.
Proof.
  pose proof (Qfloor_Z z) as Hf.
  destruct (rne_cases (inject_Z z)) as [[_ H] | [[Hr _] | [Hr _]]].
  - rewrite H. exact Hf.
  - rewrite Hf in Hr. exfalso. lra.
  - rewrite Hf in Hr. exfalso. lra.
Qed.

Lemma rne_mono (a b : Q) : a <= b -> (fl.rne a <= fl.rne b)%Z.
Proof.
  intros Hab.
  pose proof (Qfloor_resp_le _ _ Hab) as Hf.
  destruct (Z.eq_dec (Qfloor a) (Qfloor b)) as [He | Hne].
  - destruct (rne_cases a) as [[Ha H] | [[Ha H] | [Ha H]]];
      destruct (rne_cases b) as [[Hb H'] | [[Hb H'] | [Hb H']]];
      rewrite H, H'; rewrite He in *;
      try destruct (Z.even (Qfloor b)); try lia; exfalso; lra.
  - pose proof (rne_range a). pose proof (rne_range b). lia.
Qed.

Lemma rne_comp (a b : Q) : a == b -> fl.rne a = fl.rne b.
Proof.
  intros Hab.
  assert (fl.rne a <= fl.rne b)%Z by (apply rne_mono; rewrite Hab; apply Qle_refl).
  assert (fl.rne b <= fl.rne a)%Z by (apply rne_mono; rewrite Hab; apply Qle_refl).
  lia.
Qed.

(** Rounding to a multiple of [2^e]. *)
Lemma round_grid_mono (e : Z) (a b : Q) :
  a <= b ->
  inject_Z (fl.rne (a / fl.pow2 e)) * fl.pow2 e <=
  inject_Z (fl.rne (b / fl.pow2 e)) * fl.pow2 e.
Proof.
  intros Hab. apply Qmult_le_compat_r; [|apply Qlt_le_weak, pow2_pos].
  rewrite <- Zle_Qle. apply rne_mono.
  apply Qmult_le_compat_r; [exact Hab|].
  apply Qlt_le_weak, Qinv_lt_0_compat, pow2_pos.
Qed.

Lemma round_grid_fix (e e' m : Z) (x : Q) :
  (e <= e')%Z -> x == inject_Z m * fl.pow2 e' ->
  inject_Z (fl.rne (x / fl.pow2 e)) * fl.pow2 e == x.
Proof.
  intros He Hx.
  assert (Hq : x / fl.pow2 e == inject_Z (m * 2 ^ (e' - e))).
  { rewrite inject_Z_mult, <- (pow2_Z (e' - e)) by lia.
    rewrite Hx, <- (pow2_sub e' e). field.
    apply Qnot_eq_sym, Qlt_not_eq, pow2_pos. }
  rewrite (rne_comp _ _ Hq), rne_inject.
  rewrite inject_Z_mult, <- (pow2_Z (e' - e)) by lia.
  rewrite Hx, <- (pow2_sub e' e). ring.
Qed.

Lemma Qabs_pos_lt (a : Q) : ~ a == 0 -> 0 < Qabs a.
Proof.
  intros Ha. destruct (Qlt_le_dec 0 (Qabs a)) as [H | H]; [exact H|].
  exfalso. apply Ha.
  pose proof (Qabs_nonneg a) as Hn.
  pose proof (Qle_Qabs a) as H1.
  pose proof (Qle_Qabs (- a)) as H2. rewrite Qabs_opp in H2.
  lra.
Qed.

Lemma round_zero (f : fl.format) (q : Q) : q == 0 -> fl.round f q == 0.
Proof.
  intros Hq. unfold fl.round.
  generalize (fl.exponent f q). intros e.
  assert (H : q / fl.pow2 e == inject_Z 0).
  { rewrite Hq. unfold Qdiv. ring. }
  rewrite (rne_comp _ _ H), rne_inject. ring.
Qed.

Lemma exponent_comp (f : fl.format) (a b : Q) :
  ~ a == 0 -> a == b -> fl.exponent f a = fl.exponent f b.
Proof.
  intros Ha Hab. unfold fl.exponent. f_equal. f_equal.
  apply ilog2_comp.
  - apply Qabs_pos_lt, Ha.
  - rewrite Hab. reflexivity.
Qed.

Lemma round_comp (f : fl.format) (a b : Q) : a == b -> fl.round f a == fl.round f b.
Proof.
  intros Hab. destruct (Qeq_dec a 0) as [Ha | Ha].
  - rewrite (round_zero f a Ha), (round_zero f b); [reflexivity|].
    rewrite <- Hab. exact Ha.
  - unfold fl.round. rewrite <- (exponent_comp f a b Ha Hab).
    generalize (fl.exponent f a). intros e.
    assert (H : a / fl.pow2 e == b / fl.pow2 e) by (rewrite Hab; reflexivity).
    rewrite (rne_comp _ _ H). reflexivity.
Qed.

Lemma round_nonneg (f : fl.format) (q : Q) : 0 <= q -> 0 <= fl.round f q.
Proof.
  intros Hq. unfold fl.round. generalize (fl.exponent f q). intros e.
  apply Qmult_le_0_compat; [|apply Qlt_le_weak, pow2_pos].
  change 0 with (inject_Z 0). rewrite <- Zle_Qle.
  assert (H : inject_Z 0 <= q / fl.pow2 e).
  { change (inject_Z 0) with 0. apply Qle_shift_div_l; [apply pow2_pos|]. lra. }
  apply rne_mono in H. rewrite rne_inject in H. exact H.
Qed.

Lemma round_nonpos (f : fl.format) (q : Q) : q <= 0 -> fl.round f q <= 0.
Proof.
  intros Hq. unfold fl.round. generalize (fl.exponent f q). intros e.
  assert (H : (fl.rne (q / fl.pow2 e) <= 0)%Z).
  { assert (H : q / fl.pow2 e <= inject_Z 0).
    { change (inject_Z 0) with 0. apply Qle_shift_div_r; [apply pow2_pos|]. lra. }
    apply rne_mono in H. rewrite rne_inject in H. exact H. }
  rewrite Zle_Qle in H. change (inject_Z 0) with 0 in H.
  pose proof (pow2_pos e). nra.
Qed.

Lemma exponent_le (f : fl.format) (x : Q) (e : Z) :
  (0 < fl.prec f)%Z -> ~ x == 0 -> (fl.emin f <= e)%Z ->
  Qabs x < fl.pow2 (fl.prec f + e) ->
  (fl.exponent f x <= e)%Z.
Proof.
  intros Hp Hx He Hlt. unfold fl.exponent.
  pose proof (ilog2_lt (Qabs x) _ (Qabs_pos_lt x Hx) Hlt). lia.
Qed.

Lemma round_representable (f : fl.format) (x : Q) :
  (0 < fl.prec f)%Z -> fl.representable f x -> fl.round f x == x.
Proof.
  intros Hp (m & e & Hx & Hm & He).
  destruct (Qeq_dec x 0) as [H0 | H0].
  - rewrite (round_zero f x H0). symmetry. exact H0.
  - unfold fl.round. apply (round_grid_fix _ e m); [|exact Hx].
    apply exponent_le; try assumption.
    rewrite Hx, Qabs_Qmult, (Qabs_pos (fl.pow2 e)) by apply Qlt_le_weak, pow2_pos.
    rewrite pow2_add. apply Qmult_lt_compat_r; [apply pow2_pos|].
    rewrite (pow2_Z (fl.prec f)) by lia.
    change (Qabs (inject_Z m)) with (inject_Z (Z.abs m)).
    rewrite <- Zlt_Qlt. exact Hm.
Qed.

Lemma exponent_mono (f : fl.format) (a b : Q) :
  ~ a == 0 -> Qabs a <= Qabs b -> (fl.exponent f a <= fl.exponent f b)%Z.
Proof.
  intros Ha Hab. unfold fl.exponent.
  pose proof (ilog2_mono _ _ (Qabs_pos_lt a Ha) Hab). lia.
Qed.

(** Between two values of different exponents lies a power of two, which
    rounding at either exponent keeps. *)
Lemma exponent_step (f : fl.format) (a b : Q) :
  (0 < fl.prec f)%Z -> ~ a == 0 -> ~ b == 0 ->
  (fl.exponent f a < fl.exponent f b)%Z ->
  exists k : Z, (fl.exponent f b <= k)%Z /\ Qabs a < fl.pow2 k /\ fl.pow2 k <= Qabs b.
Proof.
  intros Hp Ha Hb Hlt. exists (fl.ilog2 (Qabs b)).
  unfold fl.exponent in *.
  destruct (ilog2_spec _ (Qabs_pos_lt a Ha)) as [_ Ha2].
  destruct (ilog2_spec _ (Qabs_pos_lt b Hb)) as [Hb1 _].
  split; [lia|]. split; [|exact Hb1].
  eapply Qlt_le_trans; [exact Ha2|]. apply pow2_le. lia.
Qed.

Lemma round_grid_le (e k m : Z) (a : Q) :
  (e <= k)%Z -> a <= inject_Z m * fl.pow2 k ->
  inject_Z (fl.rne (a / fl.pow2 e)) * fl.pow2 e <= inject_Z m * fl.pow2 k.
Proof.
  intros He Ha.
  eapply Qle_trans; [apply round_grid_mono, Ha|].
  rewrite (round_grid_fix e k m) by (try lia; reflexivity). apply Qle_refl.
Qed.

Lemma round_grid_ge (e k m : Z) (a : Q) :
  (e <= k)%Z -> inject_Z m * fl.pow2 k <= a ->
  inject_Z m * fl.pow2 k <= inject_Z (fl.rne (a / fl.pow2 e)) * fl.pow2 e.
Proof.
  intros He Ha.
  eapply Qle_trans; [|apply round_grid_mono, Ha].
  rewrite (round_grid_fix e k m) by (try lia; reflexivity). apply Qle_refl.
Qed.

Lemma round_mono (f : fl.format) (a b : Q) :
  (0 < fl.prec f)%Z -> a <= b -> fl.round f a <= fl.round f b.
Proof.
  intros Hp Hab.
  destruct (Qlt_le_dec 0 a) as [Ha | Ha].
  - (* 0 < a <= b *)
    assert (Hb : 0 < b) by lra.
    assert (Ha0 : ~ a == 0) by lra. assert (Hb0 : ~ b == 0) by lra.
    assert (Habs : Qabs a <= Qabs b) by (rewrite !Qabs_pos by lra; exact Hab).
    pose proof (exponent_mono f a b Ha0 Habs) as He.
    destruct (Z.eq_dec (fl.exponent f a) (fl.exponent f b)) as [Heq | Hne].
    + unfold fl.round. rewrite Heq. apply round_grid_mono, Hab.
    + destruct (exponent_step f a b Hp Ha0 Hb0 ltac:(lia)) as (k & Hk & H1 & H2).
      rewrite Qabs_pos in H1 by lra. rewrite Qabs_pos in H2 by lra.
      apply Qle_trans with (inject_Z 1 * fl.pow2 k).
      * apply round_grid_le; [lia|]. change (inject_Z 1) with 1. lra.
      * apply round_grid_ge; [lia|]. change (inject_Z 1) with 1. lra.
  - destruct (Qlt_le_dec b 0) as [Hb | Hb].
    + (* a <= b < 0 *)
      assert (Ha0 : ~ a == 0) by lra. assert (Hb0 : ~ b == 0) by lra.
      assert (Habs : Qabs b <= Qabs a) by (rewrite !Qabs_neg by lra; lra).
      pose proof (exponent_mono f b a Hb0 Habs) as He.
      destruct (Z.eq_dec (fl.exponent f b) (fl.exponent f a)) as [Heq | Hne].
      * unfold fl.round. rewrite Heq. apply round_grid_mono, Hab.
      * destruct (exponent_step f b a Hp Hb0 Ha0 ltac:(lia)) as (k & Hk & H1 & H2).
        rewrite Qabs_neg in H1 by lra. rewrite Qabs_neg in H2 by lra.
        apply Qle_trans with (inject_Z (-1) * fl.pow2 k).
        -- apply round_grid_le; [lia|]. change (inject_Z (-1)) with (-1). lra.
        -- apply round_grid_ge; [lia|]. change (inject_Z (-1)) with (-1). lra.
    + (* a <= 0 <= b *)
      apply Qle_trans with 0; [apply round_nonpos, Ha | apply round_nonneg, Hb].
Qed.

Lemma round_integer (f : fl.format) (z : Z) :
  (0 < fl.prec f)%Z -> (fl.emin f <= 0)%Z -> (Z.abs z < 2 ^ fl.prec f)%Z ->
  fl.round f (inject_Z z) == inject_Z z.
Proof.
  intros Hp He Hz. apply round_representable; [exact Hp|].
  exists z, 0%Z. split; [|split; assumption].
  unfold fl.pow2. rewrite Qpower_0_r. ring.
Qed.

(* ================================================================== *)
(** * Comparisons and maxima *)

Lemma Qltb_lt (x y : Q) : Qltb x y = true <-> x < y.
Proof.
  unfold Qltb. rewrite negb_true_iff.
  split; intro H.
  - apply Qnot_le_lt. intro Hle. apply Qle_bool_iff in Hle. congruence.
  - destruct (Qle_bool y x) eqn:Hb; [|reflexivity].
    apply Qle_bool_iff in Hb. exfalso. apply (Qlt_not_le _ _ H Hb).
Qed.

Lemma Qltb_ge (x y : Q) : Qltb x y = false <-> y <= x.
Proof.
  unfold Qltb. rewrite negb_false_iff. apply Qle_bool_iff.
Qed.

Lemma nth_snoc_old {A} (pre : list A) (v d : A) (i : nat) :
  (i < length pre)%nat -> nth i (pre ++ [v]) d = nth i pre d.
Proof. intro H. now rewrite app_nth1. Qed.

Lemma nth_snoc_new {A} (pre : list A) (v d : A) :
  nth (length pre) (pre ++ [v]) d = v.
Proof. rewrite app_nth2, Nat.sub_diag by lia. reflexivity. Qed.

Lemma first_max_keep (pre : list Q) (j : nat) (v : Q) :
  first_max pre j -> v <= nth j pre 0 -> first_max (pre ++ [v]) j.
Proof.
  intros (Hj & Hmax & Hfirst) Hv.
  unfold first_max. rewrite length_app. simpl.
  split; [lia|]. rewrite (nth_snoc_old pre v 0 j Hj). split.
  - intros i Hi. destruct (Nat.eq_dec i (length pre)) as [->|Hne].
    + now rewrite nth_snoc_new.
    + rewrite nth_snoc_old by lia. apply Hmax. lia.
  - intros i Hi. rewrite nth_snoc_old by lia. now apply Hfirst.
Qed.

Lemma first_max_move (pre : list Q) (j : nat) (v : Q) :
  first_max pre j -> nth j pre 0 < v -> first_max (pre ++ [v]) (length pre).
Proof.
  intros (Hj & Hmax & Hfirst) Hv.
  unfold first_max. rewrite length_app. simpl.
  split; [lia|]. rewrite nth_snoc_new. split.
  - intros i Hi. destruct (Nat.eq_dec i (length pre)) as [->|Hne].
    + rewrite nth_snoc_new. apply Qle_refl.
    + rewrite nth_snoc_old by lia.
      apply Qle_trans with (nth j pre 0); [apply Hmax; lia | now apply Qlt_le_weak].
  - intros i Hi. rewrite nth_snoc_old by lia.
    apply Qle_lt_trans with (nth j pre 0); [apply Hmax; lia | exact Hv].
Qed.

(** The scan of [argmax] keeps the first maximum of what it has read. *)
Lemma argmax_from_first_max (l pre : list Q) (best : nat) :
  first_max pre best ->
  first_max (pre ++ l) (argmax_from best (nth best pre 0) (length pre) l).
Proof.
  revert pre best. induction l as [|v l IH]; intros pre best H.
  - simpl. now rewrite app_nil_r.
  - simpl. destruct (Qltb (nth best pre 0) v) eqn:Hc.
    + apply Qltb_lt in Hc.
      pose proof (first_max_move pre best v H Hc) as H'.
      specialize (IH (pre ++ [v]) (length pre) H').
      rewrite nth_snoc_new, length_app, <- app_assoc in IH. simpl in IH.
      now rewrite Nat.add_1_r in IH.
    + apply Qltb_ge in Hc.
      pose proof (first_max_keep pre best v H Hc) as H'.
      specialize (IH (pre ++ [v]) best H').
      destruct H as (Hb & _).
      rewrite nth_snoc_old, length_app, <- app_assoc in IH by exact Hb. simpl in IH.
      now rewrite Nat.add_1_r in IH.
Qed.

Lemma first_max_unique (l : list Q) (i j : nat) :
  first_max l i -> first_max l j -> i = j.
Proof.
  intros (Hi & Hmi & Hfi) (Hj & Hmj & Hfj).
  destruct (Nat.lt_trichotomy i j) as [H|[H|H]]; [exfalso | exact H | exfalso].
  - apply (Qlt_not_le _ _ (Hfj i H)). now apply Hmi.
  - apply (Qlt_not_le _ _ (Hfi j H)). now apply Hmj.
Qed.

Lemma argmax_first_max {E} (l : list Q) (j : nat) :
  @argmax E l = inr j <-> first_max l j.
Proof.
  destruct l as [|v l].
  - split; [discriminate|]. intros (H & _). simpl in H. lia.
  - assert (H0 : first_max [v] 0).
    { unfold first_max. simpl. split; [lia|]. split.
      - intros [|[|i]] Hi; try lia. apply Qle_refl.
      - intros i Hi. lia. }
    pose proof (argmax_from_first_max l [v] 0%nat H0) as H. simpl in H.
    split.
    + intro Heq. simpl in Heq. injection Heq as <-. exact H.
    + intro Hj. simpl. f_equal. eapply first_max_unique; eassumption.
Qed.

Lemma argmax_nonempty {E} (l : list Q) :
  l <> [] -> exists j, @argmax E l = inr j.
Proof.
  destruct l as [|v l]; [congruence|]. intros _. simpl. eauto.
Qed.

Lemma max_from_in (l : list Q) (v : Q) : In (max_from v l) (v :: l).
Proof.
  revert v. induction l as [|u l IH]; intro v; simpl.
  - now left.
  - destruct (IH (if Qltb v u then u else v)) as [H|H].
    + destruct (Qltb v u); [right; left | left]; exact H.
    + right. right. exact H.
Qed.

Lemma max_from_ge_start (l : list Q) (v : Q) : v <= max_from v l.
Proof.
  revert v. induction l as [|u l IH]; intro v; simpl.
  - apply Qle_refl.
  - destruct (Qltb v u) eqn:Hc.
    + apply Qltb_lt in Hc. apply Qle_trans with u; [now apply Qlt_le_weak | apply IH].
    + apply IH.
Qed.

Lemma max_from_upper (l : list Q) (v u : Q) : In u (v :: l) -> u <= max_from v l.
Proof.
  revert v. induction l as [|w l IH]; intros v [<-|H]; simpl.
  - apply Qle_refl.
  - destruct H.
  - apply max_from_ge_start with (l := w :: l).
  - destruct (Qltb v w) eqn:Hc.
    + apply IH. exact H.
    + apply Qltb_ge in Hc. destruct H as [<-|H].
      * apply Qle_trans with v; [exact Hc | apply max_from_ge_start].
      * apply IH. now right.
Qed.

(* ================================================================== *)
(** * The voice trigger *)

Section Trigger.

Import trigger.
Variable E : Type.

Lemma peak_empty : @peak E [] = inl (ValueError ve_empty_array).
Proof. reflexivity. Qed.

Lemma peak_defined (chunk : list Q) :
  chunk <> [] -> exists p, @peak E chunk = inr p.
Proof.
  destruct chunk as [|c chunk]; [congruence|]. intros _.
  unfold peak, np.abs. simpl. eauto.
Qed.

Lemma peak_in (chunk : list Q) (p : Q) :
  @peak E chunk = inr p -> exists c, In c chunk /\ p = Qabs c.
Proof.
  destruct chunk as [|c chunk]; [discriminate|].
  unfold peak, np.abs. simpl. intro H. injection H as <-.
  pose proof (max_from_in (map Qabs chunk) (Qabs c)) as [Hin|Hin].
  - exists c. split; [now left | now symmetry].
  - apply in_map_iff in Hin. destruct Hin as (c' & Hc' & Hin).
    exists c'. split; [now right | now symmetry].
Qed.

Lemma peak_upper (chunk : list Q) (p c : Q) :
  @peak E chunk = inr p -> In c chunk -> Qabs c <= p.
Proof.
  destruct chunk as [|c0 chunk]; [discriminate|].
  unfold peak, np.abs. simpl. intros H Hin. injection H as <-.
  apply max_from_upper. destruct Hin as [<-|Hin]; [now left | right].
  now apply in_map.
Qed.

Lemma peak_nonneg (chunk : list Q) (p : Q) : @peak E chunk = inr p -> 0 <= p.
Proof.
  intro H. apply peak_in in H. destruct H as (c & _ & ->). apply Qabs_nonneg.
Qed.

Lemma wait_skips_quiet (threshold : Q) (pre : device) (n : nat) (dev : device) :
  Forall (quiet E threshold) pre ->
  @wait_for_voice E threshold n (pre ++ dev)
  = wait_for_voice threshold (n + length pre) dev.
Proof.
  intro H. revert n. induction H as [|c pre (q & Hq & Hle) _ IH]; intro n.
  - simpl. now rewrite Nat.add_0_r.
  - simpl. rewrite Hq.
    apply Qltb_ge in Hle. rewrite Hle, IH. f_equal. lia.
Qed.

Lemma wait_triggers (threshold : Q) (pre : device) (chunk : list Q) (rest : device) (n : nat) :
  Forall (quiet E threshold) pre -> loud E threshold chunk ->
  @wait_for_voice E threshold n (pre ++ chunk :: rest) = Triggered (n + length pre) rest.
Proof.
  intros Hpre (p & Hp & Hlt).
  rewrite wait_skips_quiet by exact Hpre. simpl. rewrite Hp.
  apply Qltb_lt in Hlt. now rewrite Hlt.
Qed.

Lemma wait_triggered_inv (threshold : Q) (dev rest : device) (n m : nat) :
  @wait_for_voice E threshold n dev = Triggered m rest ->
  exists pre chunk,
    dev = pre ++ chunk :: rest /\ m = (n + length pre)%nat
    /\ Forall (quiet E threshold) pre /\ loud E threshold chunk.
Proof.
  revert n. induction dev as [|c dev IH]; intros n H; simpl in H; [discriminate|].
  destruct (@peak E c) as [e|p] eqn:Hp; [discriminate|].
  destruct (Qltb threshold p) eqn:Hc.
  - injection H as <- <-. exists [], c. simpl.
    repeat split; try constructor; try lia.
    exists p. split; [exact Hp | now apply Qltb_lt].
  - apply IH in H. destruct H as (pre & chunk & -> & -> & Hpre & Hloud).
    exists (c :: pre), chunk. simpl. repeat split; try lia; try exact Hloud.
    constructor; [|exact Hpre]. exists p. split; [exact Hp | now apply Qltb_ge].
Qed.

Lemma loud_negative (threshold : Q) (chunk : list Q) :
  threshold < 0 -> chunk <> [] -> loud E threshold chunk.
Proof.
  intros Hneg Hne. destruct (peak_defined chunk Hne) as (p & Hp).
  exists p. split; [exact Hp|].
  apply Qlt_le_trans with 0; [exact Hneg | now apply peak_nonneg with chunk].
Qed.

Lemma loud_zero (chunk : list Q) :
  loud E 0 chunk <-> exists c, In c chunk /\ ~ c == 0.
Proof.
  split.
  - intros (p & Hp & Hlt). destruct (peak_in _ _ Hp) as (c & Hin & ->).
    exists c. split; [exact Hin|]. intro Hz. rewrite Hz in Hlt.
    now apply Qlt_irrefl in Hlt.
  - intros (c & Hin & Hnz).
    assert (Hne : chunk <> []) by (intros ->; destruct Hin).
    destruct (peak_defined chunk Hne) as (p & Hp).
    exists p. split; [exact Hp|].
    apply Qlt_le_trans with (Qabs c); [|now apply peak_upper with chunk].
    destruct (Qlt_le_dec 0 (Qabs c)) as [H|H]; [exact H|].
    exfalso. apply Hnz.
    pose proof (Qabs_nonneg c) as H0.
    assert (Habs : Qabs c == 0) by now apply Qle_antisym.
    revert Habs. apply Qabs_case; intros; lra.
Qed.

End Trigger.

(* ================================================================== *)
(** * Inner products *)

Lemma Qsq_nonneg (q : Q) : 0 <= q * q.
Proof. nra. Qed.

Lemma Qsq_zero (q : Q) : q * q <= 0 -> q == 0.
Proof. intro H. nra. Qed.

Lemma dot_nil_r (x : list Q) : dot x [] = 0.
Proof. now destruct x. Qed.

Lemma dot_comm (x y : list Q) : dot x y == dot y x.
Proof.
  revert y. induction x as [|a x IH]; intros [|b y]; simpl; try reflexivity.
  rewrite IH. ring.
Qed.

Lemma dot_self_nonneg (x : list Q) : 0 <= dot x x.
Proof. induction x as [|a x IH]; simpl; [apply Qle_refl | nra]. Qed.

Lemma dot_self_skipn (x : list Q) (d : nat) :
  dot (skipn d x) (skipn d x) <= dot x x.
Proof.
  revert x. induction d as [|d IH]; intros [|a x]; simpl; try apply Qle_refl.
  specialize (IH x). nra.
Qed.

Lemma dot_zeros_l (m : nat) (a b : list Q) :
  dot (repeat 0 m ++ a) b == dot a (skipn m b).
Proof.
  revert b. induction m as [|m IH]; intro b; simpl; [reflexivity|].
  destruct b as [|y b].
  - now rewrite dot_nil_r.
  - rewrite IH. ring.
Qed.

(** Twice the inner product is at most the sum of the two energies. *)
Lemma dot_energy_bound (a b : list Q) : 2 * dot a b <= dot a a + dot b b.
Proof.
  revert b. induction a as [|x a IH]; intros [|y b]; cbn [dot].
  - lra.
  - pose proof (dot_self_nonneg b). nra.
  - pose proof (dot_self_nonneg a). nra.
  - specialize (IH b).
    pose proof (Qsq_nonneg (x - y)). lra.
Qed.

Lemma dot_self_zero (b : list Q) (i : nat) : dot b b <= 0 -> nth i b 0 == 0.
Proof.
  revert i. induction b as [|y b IH]; intros i H.
  - destruct i; reflexivity.
  - simpl in H. pose proof (dot_self_nonneg b) as Hb.
    pose proof (Qsq_nonneg y) as Hy0.
    destruct i as [|i]; simpl.
    + apply Qsq_zero. lra.
    + apply IH. lra.
Qed.

(** Equality in [dot_energy_bound] only for equal sequences (padded with
    zeros). *)
Lemma dot_energy_tight (a b : list Q) :
  dot a a + dot b b <= 2 * dot a b -> forall i, nth i a 0 == nth i b 0.
Proof.
  revert b. induction a as [|x a IH]; intros [|y b] H i.
  - reflexivity.
  - simpl in H. assert (Hb : dot (y :: b) (y :: b) <= 0) by (simpl; lra).
    rewrite (dot_self_zero _ i Hb). destruct i; reflexivity.
  - simpl in H. assert (Ha : dot (x :: a) (x :: a) <= 0) by (simpl; lra).
    rewrite (dot_self_zero _ i Ha). destruct i; reflexivity.
  - simpl in H. pose proof (dot_energy_bound a b) as Hab.
    pose proof (Qsq_nonneg (x - y)) as Hxy.
    destruct i as [|i]; simpl.
    + assert (Hz : x - y == 0) by (apply Qsq_zero; lra). lra.
    + apply IH. lra.
Qed.

(** A sequence that agrees with itself shifted by [d >= 1] is zero. *)
Lemma periodic_zero (x : list Q) (d : nat) :
  (1 <= d)%nat ->
  (forall i, nth i x 0 == nth (d + i) x 0) ->
  forall i, nth i x 0 == 0.
Proof.
  intros Hd Hper.
  assert (Hm : forall m i, nth i x 0 == nth (m * d + i) x 0).
  { induction m as [|m IH]; intro i; simpl; [reflexivity|].
    rewrite (IH i), (Hper (m * d + i)%nat).
    replace (d + (m * d + i))%nat with (d + m * d + i)%nat by lia. reflexivity. }
  intro i. rewrite (Hm (length x) i).
  rewrite nth_overflow by nia. reflexivity.
Qed.

(** The autocorrelation of a signal that is not silent is strictly below
    its energy at every shift but zero. *)
Lemma autocorr_strict (x : list Q) (d : nat) :
  nonzero x -> (1 <= d)%nat -> dot x (skipn d x) < dot x x.
Proof.
  intros (j & Hj) Hd.
  destruct (Qlt_le_dec (dot x (skipn d x)) (dot x x)) as [H|H]; [exact H|].
  exfalso. apply Hj.
  apply periodic_zero with d; [exact Hd|].
  intro i. rewrite <- nth_skipn.
  apply dot_energy_tight.
  pose proof (dot_self_skipn x d). lra.
Qed.

(* ================================================================== *)
(** * The full cross-correlation *)

Lemma skipn_cons_nth {A} (m : nat) (y : list A) (d : A) :
  (m < length y)%nat -> skipn m y = nth m y d :: skipn (S m) y.
Proof.
  revert y. induction m as [|m IH]; intros [|b y] H; simpl in *; try lia.
  - reflexivity.
  - apply IH. lia.
Qed.

Lemma sum_seq_wsum (x y : list Q) (c : Z) (s : nat) :
  sum (map (fun l => nth (l - s) x 0
                     * signal.at0 y (Z.of_nat l - Z.of_nat s + c))
           (seq s (length x)))
  = wsum x y c.
Proof.
  revert c s. induction x as [|a x IH]; intros c s; simpl; [reflexivity|].
  rewrite Nat.sub_diag. replace (Z.of_nat s - Z.of_nat s + c)%Z with c by lia.
  unfold sum in *. f_equal.
  rewrite <- (IH (c + 1)%Z (S s)).
  f_equal. apply map_ext_in. intros l Hl. apply in_seq in Hl.
  replace (l - s)%nat with (S (l - S s)) by lia.
  replace (Z.of_nat l - Z.of_nat s + c)%Z
    with (Z.of_nat l - Z.of_nat (S s) + (c + 1))%Z by lia.
  reflexivity.
Qed.

Lemma corr_at_wsum (x y : list Q) (k : nat) :
  signal.corr_at x y k = wsum x y (Z.of_nat (length y) - 1 - Z.of_nat k).
Proof.
  unfold signal.corr_at.
  rewrite <- (sum_seq_wsum x y _ 0). f_equal. apply map_ext. intro l.
  rewrite Nat.sub_0_r. do 2 f_equal. lia.
Qed.

Lemma wsum_shift_right (x y : list Q) (m : nat) :
  wsum x y (Z.of_nat m) == dot x (skipn m y).
Proof.
  revert m. induction x as [|a x IH]; intro m; simpl; [reflexivity|].
  replace (Z.of_nat m + 1)%Z with (Z.of_nat (S m)) by lia. rewrite IH.
  unfold signal.at0.
  destruct (Z.ltb_spec (Z.of_nat m) 0) as [Hneg|_]; [lia|].
  rewrite Nat2Z.id.
  destruct (le_lt_dec (length y) m) as [Hle|Hlt].
  - rewrite nth_overflow by exact Hle.
    rewrite (skipn_all2 y Hle), (skipn_all2 y) by lia.
    rewrite dot_nil_r. ring.
  - rewrite (skipn_cons_nth m y 0 Hlt). reflexivity.
Qed.

Lemma wsum_shift_left (x y : list Q) (m : nat) :
  wsum x y (- Z.of_nat m) == dot (skipn m x) y.
Proof.
  revert x. induction m as [|m IH]; intro x.
  - simpl. apply (wsum_shift_right x y 0).
  - destruct x as [|a x]; [reflexivity|].
    cbn [wsum skipn].
    replace (- Z.of_nat (S m) + 1)%Z with (- Z.of_nat m)%Z by lia.
    rewrite IH. unfold signal.at0.
    destruct (Z.ltb_spec (- Z.of_nat (S m)) 0) as [_|Hge]; [ring | lia].
Qed.

(** The value at lag [m >= 0]: [x] advanced by [m] against [y]. *)
Lemma corr_at_lead (x y : list Q) (m : nat) :
  y <> [] ->
  signal.corr_at x y (length y - 1 + m) == dot (skipn m x) y.
Proof.
  intro Hy. rewrite corr_at_wsum.
  assert (0 < length y)%nat by (destruct y; [congruence | simpl; lia]).
  replace (Z.of_nat (length y) - 1 - Z.of_nat (length y - 1 + m))%Z
    with (- Z.of_nat m)%Z by lia.
  apply wsum_shift_left.
Qed.

(** The value at lag [-m <= 0]: [x] against [y] advanced by [m]. *)
Lemma corr_at_lag (x y : list Q) (m : nat) :
  y <> [] -> (m <= length y - 1)%nat ->
  signal.corr_at x y (length y - 1 - m) == dot x (skipn m y).
Proof.
  intros Hy Hm. rewrite corr_at_wsum.
  assert (0 < length y)%nat by (destruct y; [congruence | simpl; lia]).
  replace (Z.of_nat (length y) - 1 - Z.of_nat (length y - 1 - m))%Z
    with (Z.of_nat m) by lia.
  apply wsum_shift_right.
Qed.

Lemma nth_map_seq (f : nat -> Q) (n i : nat) :
  (i < n)%nat -> nth i (map f (seq 0 n)) 0 = f i.
Proof.
  intro H. rewrite (nth_indep _ 0 (f 0%nat)) by now rewrite length_map, length_seq.
  rewrite map_nth, seq_nth by exact H. reflexivity.
Qed.

Lemma correlate_defined {E} (x y : list Q) :
  x <> [] -> y <> [] ->
  @signal.correlate E x y
  = inr (map (signal.corr_at x y) (seq 0 (length x + length y - 1))).
Proof.
  intros Hx Hy. destruct x; [congruence|]. destruct y; [congruence|]. reflexivity.
Qed.

Lemma correlate_empty {E} (x y : list Q) :
  x = [] \/ y = [] -> @signal.correlate E x y = inl (ValueError ve_empty_array).
Proof. intros [-> | ->]; [reflexivity | now destruct x]. Qed.

(* ================================================================== *)
(** * The aligner *)

Section Aligner.

Import aligner.
Variable E : Type.

Lemma nonempty_length {A} (l : list A) : l <> [] -> (0 < length l)%nat.
Proof. destruct l; [congruence | simpl; lia]. Qed.

Lemma nonzero_nonempty (x : list Q) : nonzero x -> x <> [].
Proof. intros (i & Hi) ->. apply Hi. destruct i; reflexivity. Qed.

(** On non-empty inputs [best_index] is the first maximum of the
    correlation sequence, and it always exists. *)
Lemma best_index_first_max (rec_audio ref : list Q) (j : nat) :
  rec_audio <> [] -> ref <> [] ->
  @best_index E rec_audio ref = inr j
  <-> first_max (map (signal.corr_at rec_audio ref)
                     (seq 0 (length rec_audio + length ref - 1))) j.
Proof.
  intros Hx Hy. unfold best_index.
  rewrite (correlate_defined rec_audio ref Hx Hy). simpl.
  apply argmax_first_max.
Qed.

Lemma best_index_defined (rec_audio ref : list Q) :
  rec_audio <> [] -> ref <> [] ->
  exists j, @best_index E rec_audio ref = inr j
            /\ (j < length rec_audio + length ref - 1)%nat.
Proof.
  intros Hx Hy.
  pose proof (nonempty_length _ Hx). pose proof (nonempty_length _ Hy).
  destruct (@argmax_nonempty E
              (map (signal.corr_at rec_audio ref)
                   (seq 0 (length rec_audio + length ref - 1)))) as (j & Hj).
  { intro Hnil. apply (f_equal (@length Q)) in Hnil.
    rewrite length_map, length_seq in Hnil. simpl in Hnil. lia. }
  exists j. split.
  - unfold best_index. rewrite (correlate_defined _ _ Hx Hy). exact Hj.
  - apply argmax_first_max in Hj. destruct Hj as (Hlt & _).
    now rewrite length_map, length_seq in Hlt.
Qed.

Lemma best_index_empty (rec_audio ref : list Q) :
  rec_audio = [] \/ ref = [] ->
  @best_index E rec_audio ref = inl (ValueError ve_empty_array).
Proof.
  intro H. unfold best_index. now rewrite (correlate_empty _ _ H).
Qed.

Lemma align_audio_loaded (f : wav_file) (rec_audio : list Q) (sr : Z) :
  @align_audio E f rec_audio sr
  = align_loaded (fst (sf_read f)) (wav_rate f) rec_audio sr.
Proof. reflexivity. Qed.

(** The function once the guard is passed and the peak is known. *)
Lemma align_audio_with_best (f : wav_file) (rec_audio : list Q) (best : nat) :
  @best_index E rec_audio (loaded_reference f) = inr best ->
  let ref := loaded_reference f in
  let lag := lag_of best ref in
  @align_audio E f rec_audio (wav_rate f)
  = inr (truncate (resync rec_audio lag) ref, offset_of lag (wav_rate f)).
Proof.
  intro Hb. cbv zeta. rewrite align_audio_loaded. unfold align_loaded.
  rewrite Z.eqb_refl. cbn [negb].
  unfold lag_samples. fold (loaded_reference f). rewrite Hb. reflexivity.
Qed.

Lemma resync_length (rec_audio : list Q) (lag : Z) :
  (lag < Z.of_nat (length rec_audio))%Z ->
  Z.of_nat (length (resync rec_audio lag)) = (Z.of_nat (length rec_audio) - lag)%Z.
Proof.
  intro H. unfold resync, slice_from, pad_front.
  destruct (Z.ltb_spec 0 lag) as [Hpos|Hneg].
  - rewrite length_skipn. lia.
  - rewrite length_app, repeat_length. lia.
Qed.

Lemma truncate_length (aligned ref : list Q) :
  length (truncate aligned ref) = Nat.min (length aligned) (length ref).
Proof.
  unfold truncate, slice_to. rewrite length_firstn. lia.
Qed.

Lemma truncate_same (ref : list Q) : truncate ref ref = ref.
Proof.
  unfold truncate, slice_to. rewrite Nat.min_id. apply firstn_all.
Qed.

(** ** A reference delayed by [d] zero samples *)

Lemma skipn_padded (d m : nat) (ref : list Q) :
  skipn m (repeat 0 d ++ ref) = repeat 0 (d - m) ++ skipn (m - d) ref.
Proof.
  revert m. induction d as [|d IH]; intro m; simpl.
  - now rewrite Nat.sub_0_r.
  - destruct m as [|m]; [reflexivity|]. simpl. apply IH.
Qed.

Lemma corr_padded_peak (d : nat) (ref : list Q) :
  ref <> [] ->
  signal.corr_at (repeat 0 d ++ ref) ref (length ref - 1 + d) == dot ref ref.
Proof.
  intro Hne. rewrite (corr_at_lead _ _ d Hne).
  rewrite skipn_padded, Nat.sub_diag. reflexivity.
Qed.

Lemma corr_padded_off_peak (d i : nat) (ref : list Q) :
  nonzero ref -> i <> (length ref - 1 + d)%nat ->
  signal.corr_at (repeat 0 d ++ ref) ref i < dot ref ref.
Proof.
  intros Hnz Hi. pose proof (nonzero_nonempty _ Hnz) as Hne.
  pose proof (nonempty_length _ Hne) as Hlen.
  destruct (le_lt_dec (length ref - 1) i) as [Hge|Hlt].
  - replace i with (length ref - 1 + (i - (length ref - 1)))%nat by lia.
    set (m := (i - (length ref - 1))%nat). assert (Hm : m <> d) by (unfold m; lia).
    rewrite (corr_at_lead _ _ m Hne), skipn_padded.
    destruct (le_lt_dec m d) as [Hmd|Hmd].
    + replace (m - d)%nat with 0%nat by lia. simpl skipn.
      rewrite dot_zeros_l. apply autocorr_strict; [exact Hnz | lia].
    + replace (d - m)%nat with 0%nat by lia. simpl app.
      rewrite dot_comm. apply autocorr_strict; [exact Hnz | lia].
  - replace i with (length ref - 1 - (length ref - 1 - i))%nat by lia.
    set (m := (length ref - 1 - i)%nat).
    rewrite (corr_at_lag _ _ m Hne) by (unfold m; lia).
    rewrite dot_zeros_l, skipn_skipn.
    apply autocorr_strict; [exact Hnz | unfold m; lia].
Qed.

(** The peak of the correlation of a delayed copy sits [d] places after
    lag zero. *)
Lemma best_index_padded (d : nat) (ref : list Q) :
  nonzero ref ->
  @best_index E (repeat 0 d ++ ref) ref = inr (length ref - 1 + d)%nat.
Proof.
  intro Hnz. pose proof (nonzero_nonempty _ Hnz) as Hne.
  pose proof (nonempty_length _ Hne) as Hlen.
  assert (Hcap : repeat 0 d ++ ref <> []).
  { intro H. apply (f_equal (@length Q)) in H. rewrite length_app in H. simpl in H. lia. }
  apply best_index_first_max; [exact Hcap | exact Hne |].
  assert (Hn : (length ref - 1 + d < length (repeat 0%Q d ++ ref) + length ref - 1)%nat).
  { rewrite length_app, repeat_length. lia. }
  unfold first_max. rewrite length_map, length_seq.
  split; [exact Hn|]. rewrite (nth_map_seq _ _ _ Hn). split.
  - intros i Hi. rewrite (nth_map_seq _ _ _ Hi).
    destruct (Nat.eq_dec i (length ref - 1 + d)) as [->|Hne'].
    + apply Qle_refl.
    + rewrite (corr_padded_peak d ref Hne). apply Qlt_le_weak.
      now apply corr_padded_off_peak.
  - intros i Hi. rewrite nth_map_seq by lia.
    rewrite (corr_padded_peak d ref Hne).
    apply corr_padded_off_peak; [exact Hnz | lia].
Qed.

Lemma lag_samples_padded (d : nat) (ref : list Q) :
  nonzero ref ->
  @lag_samples E (repeat 0 d ++ ref) ref = inr (Z.of_nat d).
Proof.
  intro Hnz. pose proof (nonempty_length _ (nonzero_nonempty _ Hnz)) as Hlen.
  unfold lag_samples. rewrite (best_index_padded d ref Hnz). simpl.
  unfold lag_of. f_equal. lia.
Qed.

Lemma resync_padded (d : nat) (ref : list Q) :
  resync (repeat 0 d ++ ref) (Z.of_nat d) = ref.
Proof.
  unfold resync, slice_from, pad_front.
  destruct (Z.ltb_spec 0 (Z.of_nat d)) as [Hpos|Hneg].
  - rewrite Nat2Z.id, skipn_padded, Nat.sub_diag. reflexivity.
  - assert (d = 0%nat) by lia. subst d. reflexivity.
Qed.

Lemma align_audio_padded (f : wav_file) (d : nat) :
  nonzero (loaded_reference f) ->
  @align_audio E f (repeat 0 d ++ loaded_reference f) (wav_rate f)
  = inr (loaded_reference f, offset_of (Z.of_nat d) (wav_rate f)).
Proof.
  intro Hnz.
  pose proof (nonempty_length _ (nonzero_nonempty _ Hnz)) as Hlen.
  rewrite (align_audio_with_best f _ _ (best_index_padded d _ Hnz)).
  replace (lag_of (length (loaded_reference f) - 1 + d) (loaded_reference f))
    with (Z.of_nat d) by (unfold lag_of; lia).
  now rewrite resync_padded, truncate_same.
Qed.

End Aligner.

(* ================================================================== *)
(** * Quantization *)

Lemma wrap16_small (z : Z) : (-32768 <= z <= 32767)%Z -> wrap16 z = z.
Proof. intro H. unfold wrap16. rewrite Z.mod_small; lia. Qed.

Lemma astype_int16_small (q : Q) :
  (-32768 <= trunc q <= 32767)%Z -> astype_int16 q = trunc q.
Proof.
  intro H. unfold astype_int16.
  destruct (Z.leb_spec (-2147483648) (trunc q)); [|lia].
  destruct (Z.leb_spec (trunc q) 2147483647); [|lia].
  simpl. now apply wrap16_small.
Qed.

(** Discarding the fraction moves toward zero by less than one. *)
Lemma trunc_nonneg (q : Q) :
  0 <= q -> inject_Z (trunc q) <= q /\ q < inject_Z (trunc q) + 1.
Proof.
  destruct q as [n p]. unfold trunc, Qle, Qlt. simpl. intro H.
  assert (Hn : (0 <= n)%Z) by lia.
  pose proof (Z.quot_rem' n (Zpos p)) as Hqr.
  pose proof (Z.rem_bound_pos n (Zpos p) Hn ltac:(lia)) as Hr.
  split; nia.
Qed.

Lemma trunc_nonpos (q : Q) :
  q <= 0 -> inject_Z (trunc q) - 1 < q /\ q <= inject_Z (trunc q).
Proof.
  destruct q as [n p]. unfold trunc, Qle, Qlt. simpl. intro H.
  assert (Hn : (n <= 0)%Z) by lia.
  pose proof (Z.quot_rem' n (Zpos p)) as Hqr.
  pose proof (Z.rem_bound_pos (- n) (Zpos p) ltac:(lia) ltac:(lia)) as Hr.
  rewrite Z.rem_opp_l in Hr by lia.
  split; nia.
Qed.

Lemma trunc_range (q : Q) (b : Z) :
  (0 <= b)%Z -> - inject_Z b <= q -> q <= inject_Z b -> (- b <= trunc q <= b)%Z.
Proof.
  destruct q as [n p]. unfold trunc, Qle. simpl. intros Hb Hlo Hhi.
  pose proof (Z.quot_rem' n (Zpos p)) as Hqr.
  destruct (Z.le_ge_cases 0 n) as [Hn|Hn].
  - pose proof (Z.rem_bound_pos n (Zpos p) Hn ltac:(lia)) as Hr. nia.
  - pose proof (Z.rem_bound_pos (- n) (Zpos p) ltac:(lia) ltac:(lia)) as Hr.
    rewrite Z.rem_opp_l in Hr by lia. nia.
Qed.

Lemma quantize_in_range (x : Q) :
  -1 <= x <= 1 ->
  scorer.quantize x = trunc (x * 32767)
  /\ (-32767 <= scorer.quantize x <= 32767)%Z.
Proof.
  intros (Hlo & Hhi).
  assert (Hr : (- 32767 <= trunc (x * 32767) <= 32767)%Z).
  { apply (trunc_range (x * 32767) 32767); [lia | | ];
      change (inject_Z 32767) with 32767; lra. }
  unfold scorer.quantize.
  rewrite astype_int16_small by lia. split; [reflexivity | exact Hr].
Qed.

Lemma trunc_mono (p q : Q) : p <= q -> (trunc p <= trunc q)%Z.
Proof.
  destruct p as [n1 d1], q as [n2 d2]. unfold trunc, Qle. simpl. intro H.
  rewrite <- (Z.quot_mul_cancel_r n1 (Zpos d1) (Zpos d2)) by lia.
  rewrite <- (Z.quot_mul_cancel_r n2 (Zpos d2) (Zpos d1)) by lia.
  rewrite (Z.mul_comm (Zpos d2) (Zpos d1)).
  apply Z.quot_le_mono; lia.
Qed.

Lemma trunc_Qeq (p q : Q) : p == q -> trunc p = trunc q.
Proof.
  intro H. apply Z.le_antisymm; apply trunc_mono; rewrite H; apply Qle_refl.
Qed.

Lemma trunc_inject (z : Z) : trunc (inject_Z z) = z.
Proof. unfold trunc. simpl. apply Z.quot_1_r. Qed.

Lemma astype_int16_Qeq (p q : Q) : p == q -> astype_int16 p = astype_int16 q.
Proof. intro H. unfold astype_int16. now rewrite (trunc_Qeq p q H). Qed.

(** The rounded product. *)
Lemma round_small_integer (f : fl.format) (z : Z) :
  (24 <= fl.prec f)%Z -> (fl.emin f <= 0)%Z -> (Z.abs z < 2 ^ 24)%Z ->
  fl.round f (inject_Z z) == inject_Z z.
Proof.
  intros Hp He Hz. apply round_integer; [lia | exact He |].
  eapply Z.lt_le_trans; [exact Hz|]. apply Z.pow_le_mono_r; lia.
Qed.

Lemma round_product_in_range (f : fl.format) (x : Q) :
  (24 <= fl.prec f)%Z -> (fl.emin f <= 0)%Z -> -1 <= x <= 1 ->
  - (32767) <= fl.round f (x * 32767) /\ fl.round f (x * 32767) <= 32767.
Proof.
  intros Hp He (Hlo & Hhi).
  assert (Hp0 : (0 < fl.prec f)%Z) by lia.
  split.
  - assert (H : fl.round f (inject_Z (-32767)) <= fl.round f (x * 32767)).
    { apply round_mono; [exact Hp0|]. change (inject_Z (-32767)) with (-32767). lra. }
    rewrite round_small_integer in H by (try assumption; reflexivity). exact H.
  - assert (H : fl.round f (x * 32767) <= fl.round f (inject_Z 32767)).
    { apply round_mono; [exact Hp0|]. change (inject_Z 32767) with 32767. lra. }
    rewrite round_small_integer in H by (try assumption; reflexivity). exact H.
Qed.

Lemma quantize_integer (f : fl.format) (x : Q) (z : Z) :
  (24 <= fl.prec f)%Z -> (fl.emin f <= 0)%Z ->
  x * 32767 == inject_Z z -> (Z.abs z < 2 ^ 24)%Z ->
  fp.quantize f x = wrap16 z.
Proof.
  intros Hp He Hx Hz. unfold fp.quantize.
  assert (H : fl.round f (x * 32767) == inject_Z z).
  { rewrite (round_comp f _ _ Hx). now apply round_small_integer. }
  rewrite (astype_int16_Qeq _ _ H). unfold astype_int16. rewrite trunc_inject.
  assert (Hz' : (Z.abs z < 16777216)%Z) by exact Hz.
  destruct (Z.leb_spec (-2147483648) z); [|lia].
  destruct (Z.leb_spec z 2147483647); [|lia].
  reflexivity.
Qed.

(** Where the product is a number of the format, the exact conversion is
    the one of the program. *)
Lemma quantize_exact_product (f : fl.format) (x : Q) :
  (0 < fl.prec f)%Z -> fl.representable f (x * 32767) ->
  fp.quantize f x = scorer.quantize x.
Proof.
  intros Hp Hrep. unfold fp.quantize, scorer.quantize.
  apply astype_int16_Qeq. now apply round_representable.
Qed.

(* ================================================================== *)
(** * File numbering *)

Section Naming.

Import naming.

Lemma max_list_ge_start (ns : list Z) (n : Z) : (n <= max_list n ns)%Z.
Proof.
  unfold max_list. revert n. induction ns as [|m ns IH]; intro n; simpl; [lia|].
  specialize (IH (Z.max n m)). lia.
Qed.

Lemma max_list_upper (ns : list Z) (n m : Z) :
  In m (n :: ns) -> (m <= max_list n ns)%Z.
Proof.
  revert n. induction ns as [|k ns IH]; intros n H.
  - destruct H as [->|[]]. apply max_list_ge_start.
  - change (max_list n (k :: ns)) with (max_list (Z.max n k) ns).
    pose proof (max_list_ge_start ns (Z.max n k)) as Hge.
    destruct H as [->|[->|H]]; [lia | lia |].
    apply IH. now right.
Qed.

Lemma max_list_in (ns : list Z) (n : Z) : In (max_list n ns) (n :: ns).
Proof.
  unfold max_list. revert n. induction ns as [|k ns IH]; intro n; simpl.
  - now left.
  - destruct (IH (Z.max n k)) as [H|H].
    + destruct (Z.max_spec n k) as [(_ & Hm)|(_ & Hm)]; rewrite Hm in H |- *.
      * right. left. exact H.
      * left. exact H.
    + right. right. exact H.
Qed.

Lemma numbers_of_in (files : list string) (n : Z) :
  In n (numbers_of files) <-> exists f, In f files /\ file_number f = Some n.
Proof.
  induction files as [|f files IH]; simpl.
  - split; [tauto | intros (f & [] & _)].
  - destruct (file_number f) as [m|] eqn:Hf; simpl; rewrite IH; split.
    + intros [<-|(g & Hg & Hn)]; [exists f | exists g]; auto.
    + intros (g & [<-|Hg] & Hn); [left; congruence | right; eauto].
    + intros (g & Hg & Hn). eauto.
    + intros (g & [<-|Hg] & Hn); [congruence | eauto].
Qed.

Lemma glob_in (dir : list string) (f : string) :
  In f (glob dir) <-> In f dir /\ matches_pattern f = true.
Proof. unfold glob. apply filter_In. Qed.

(** The result is one more than the largest number read from the
    matching names, and 1 when no name gives a number. *)
Lemma get_next_number_max (dir : list string) :
  match numbers_of (glob dir) with
  | [] => get_next_number dir = 1%Z
  | n :: ns => get_next_number dir = (max_list n ns + 1)%Z
  end.
Proof.
  unfold get_next_number.
  destruct (glob dir) as [|f files] eqn:Hg; [reflexivity|].
  destruct (numbers_of (f :: files)); reflexivity.
Qed.

End Naming.

(* ================================================================== *)
(** * The properties of the pipeline *)

(** ** Lag estimation *)

(** How the library's routine enters the aligner. *)
Lemma full_mode_exact (E : Type) : fp.full_mode E signal.correlate.
Proof.
  split.
  - intros x y H. now apply correlate_empty.
  - intros x y Hx Hy. eexists. split; [now apply correlate_defined|].
    now rewrite length_map, length_seq.
Qed.

Lemma fp_best_index_first_max
    (E : Type) (correlate : list Q -> list Q -> result E (list Q))
    (rec_audio ref corr : list Q) (j : nat) :
  correlate rec_audio ref = inr corr ->
  fp.best_index E correlate rec_audio ref = inr j <-> first_max corr j.
Proof.
  intro Hc. unfold fp.best_index. rewrite Hc. simpl. apply argmax_first_max.
Qed.

Lemma fp_align_audio_with_best
    (E : Type) (correlate : list Q -> list Q -> result E (list Q))
    (f : wav_file) (rec_audio : list Q) (best : nat) :
  fp.best_index E correlate rec_audio (aligner.loaded_reference f) = inr best ->
  let ref := aligner.loaded_reference f in
  let lag := aligner.lag_of best ref in
  fp.align_audio E correlate f rec_audio (wav_rate f)
  = inr (aligner.truncate (aligner.resync rec_audio lag) ref,
         fp.offset_of lag (wav_rate f)).
Proof.
  intro Hb. cbv zeta.
  change (fp.align_audio E correlate f rec_audio (wav_rate f))
    with (fp.align_loaded E correlate (fst (sf_read f)) (wav_rate f)
            rec_audio (wav_rate f)).
  unfold fp.align_loaded. rewrite Z.eqb_refl. cbn [negb].
  unfold fp.lag_samples. fold (aligner.loaded_reference f).
  rewrite Hb. reflexivity.
Qed.

(** The first maximum of values that are within [eps] of [g] is within
    [2 * eps] of the maximum of [g]. *)
Lemma first_max_near (corr : list Q) (g : nat -> Q) (eps : Q) (best : nat) :
  first_max corr best ->
  (forall k, (k < length corr)%nat -> Qabs (nth k corr 0 - g k) <= eps) ->
  forall k, (k < length corr)%nat -> g k <= g best + 2 * eps.
Proof.
  intros (Hb & Hmax & _) Hnear k Hk.
  pose proof (Hmax k Hk) as Hle.
  pose proof (proj1 (Qabs_Qle_condition _ _) (Hnear k Hk)) as [H1 H2].
  pose proof (proj1 (Qabs_Qle_condition _ _) (Hnear best Hb)) as [H3 H4].
  lra.
Qed.

Lemma first_max_exact (corr : list Q) (g : nat -> Q) (best : nat) :
  first_max corr best ->
  (forall k, (k < length corr)%nat -> nth k corr 0 == g k) ->
  first_max (map g (seq 0 (length corr))) best.
Proof.
  intros (Hb & Hmax & Hfirst) Hg.
  unfold first_max. rewrite length_map, length_seq.
  split; [exact Hb|]. split.
  - intros i Hi. rewrite !nth_map_seq by assumption.
    rewrite <- (Hg i Hi), <- (Hg best Hb). now apply Hmax.
  - intros i Hi. assert (Hi' : (i < length corr)%nat) by lia.
    rewrite !nth_map_seq by assumption.
    rewrite <- (Hg i Hi'), <- (Hg best Hb). now apply Hfirst.
Qed.

(** C1, as the code has it.  For a non-empty capture and a non-empty
    reference at the same sample rate, [correlate] returns one
    floating-point value for each of the [len(rec) + len(ref) - 1] lags of
    the full linear cross-correlation; [best_index] is the first index at
    which the returned sequence takes its maximum as a signed value (not
    its maximum magnitude); [lag = best_index - (len(ref) - 1)] and
    [offset_sec] is the quotient [lag / sr_ref] in double precision.
    The returned values approximate the exact cross-correlation (at lag
    [m >= 0] the inner product of the capture advanced by [m] with the
    reference, at lag [-m] that of the capture with the reference advanced
    by [m]): when they are within [eps] of it, the exact cross-correlation
    at [best_index] is within [2 * eps] of its maximum, and when they are
    exact, [best_index] is the first index of the maximum of the exact
    cross-correlation. *)
Theorem C1_lag_from_first_signed_maximum
    (E : Type) (correlate : list Q -> list Q -> result E (list Q))
    (f : wav_file) (rec_audio : list Q) :
  fp.full_mode E correlate ->
  rec_audio <> [] -> aligner.loaded_reference f <> [] ->
  let ref := aligner.loaded_reference f in
  let exact := signal.corr_at rec_audio ref in
  (forall m, exact (length ref - 1 + m)%nat == dot (skipn m rec_audio) ref)
  /\ (forall m, (m <= length ref - 1)%nat ->
                exact (length ref - 1 - m)%nat == dot rec_audio (skipn m ref))
  /\ exists corr best aligned,
       correlate rec_audio ref = inr corr
       /\ length corr = (length rec_audio + length ref - 1)%nat
       /\ first_max corr best
       /\ fp.best_index E correlate rec_audio ref = inr best
       /\ fp.lag_samples E correlate rec_audio ref
          = inr (Z.of_nat best - (Z.of_nat (length ref) - 1))%Z
       /\ fp.align_audio E correlate f rec_audio (wav_rate f)
          = inr (aligned,
                 fl.round fl.binary64
                   (inject_Z (Z.of_nat best - (Z.of_nat (length ref) - 1))
                    / inject_Z (wav_rate f)))
       /\ (forall eps,
             (forall k, (k < length corr)%nat ->
                        Qabs (nth k corr 0 - exact k) <= eps) ->
             forall k, (k < length corr)%nat -> exact k <= exact best + 2 * eps)
       /\ ((forall k, (k < length corr)%nat -> nth k corr 0 == exact k) ->
           first_max (map exact (seq 0 (length rec_audio + length ref - 1))) best).
Proof.
  intros (_ & Hfull) Hrec Href ref exact.
  split; [intro m; now apply corr_at_lead|].
  split; [intros m Hm; now apply corr_at_lag|].
  destruct (Hfull rec_audio ref Hrec Href) as (corr & Hcorr & Hlen).
  pose proof (nonempty_length _ Hrec) as Hlr.
  pose proof (nonempty_length _ Href) as Hlf. fold ref in Hlf.
  destruct (@argmax_nonempty E corr) as (best & Hbest).
  { intros ->. simpl in Hlen. lia. }
  assert (Hfirst : first_max corr best) by now apply (@argmax_first_max E).
  assert (Hb : fp.best_index E correlate rec_audio ref = inr best)
    by now apply (fp_best_index_first_max E correlate rec_audio ref corr).
  exists corr, best. eexists.
  split; [exact Hcorr|]. split; [exact Hlen|]. split; [exact Hfirst|].
  split; [exact Hb|]. split.
  { unfold fp.lag_samples. now rewrite Hb. }
  split.
  { now rewrite (fp_align_audio_with_best E correlate f rec_audio best Hb). }
  split.
  { intros eps Hnear. now apply (first_max_near corr exact eps best). }
  intro Hexact. rewrite <- Hlen. now apply first_max_exact.
Qed.

Lemma C1_lag_from_first_signed_maximum_witness :
  let f := {| wav_rate := 8000; wav_data := Array1 [16384; 8192]%Z |} in
  exists corr aligned,
    @signal.correlate string [0; 1 # 2; 1 # 4] (aligner.loaded_reference f) = inr corr
    /\ first_max corr 2
    /\ fp.lag_samples string signal.correlate [0; 1 # 2; 1 # 4]
         (aligner.loaded_reference f) = inr 1%Z
    /\ fp.align_audio string signal.correlate f [0; 1 # 2; 1 # 4] 8000
       = inr (aligned, fl.round fl.binary64 (inject_Z 1 / inject_Z 8000)).
Proof.
  intro f.
  destruct (C1_lag_from_first_signed_maximum string signal.correlate f
              [0; 1 # 2; 1 # 4] (full_mode_exact string))
    as (_ & _ & corr & best & aligned & Hc & _ & Hm & Hb & Hl & Ha & _).
  - discriminate.
  - discriminate.
  - assert (Hbest : best = 2%nat) by (vm_compute in Hb; congruence).
    subst best. exists corr, aligned.
    split; [exact Hc|]. split; [exact Hm|]. split; [exact Hl | exact Ha].
Defined.

(** C1 as stated fails: on capture [1, -2] and reference [1] the
    correlation is [1, -2] (the products are exact in floating point);
    [np.argmax] picks index 0, the maximum-magnitude value sits at
    index 1. *)
Lemma C1_counterexample :
  @signal.correlate string [1; -2] [1] = inr [1; -2]
  /\ fp.best_index string signal.correlate [1; -2] [1] = inr 0%nat
  /\ @spec.best_index string [1; -2] [1] = inr 1%nat
  /\ fp.best_index string signal.correlate [1; -2] [1]
     <> @spec.best_index string [1; -2] [1].
Proof. vm_compute. repeat split; discriminate. Qed.

(** ** Quantization *)

(** C2, as the code has it.  A sample [x] of an array of floating-point
    format [f] (float32 or wider) is quantized to the product [x * 32767]
    as rounded to that format, with its fraction discarded (rounding
    toward zero); where the product is a number of the format it is
    exact.  No rounding to the nearest integer and no clipping take
    place: a product beyond the 16-bit range wraps around ([2.0] gives
    [-2]).  For [x] in [[-1, 1]] the result lies in [[-32767, 32767]],
    hence in the signed 16-bit range, and the two end points [1.0] and
    [-1.0] give [32767] and [-32767]. *)
Theorem C2_quantize_discards_fraction (f : fl.format) (x : Q) :
  (24 <= fl.prec f)%Z -> (fl.emin f <= 0)%Z ->
  -1 <= x <= 1 ->
  let y := fl.round f (x * 32767) in
  let t := fp.quantize f x in
  t = trunc y
  /\ (0 <= x -> inject_Z t <= y /\ y < inject_Z t + 1)
  /\ (x <= 0 -> inject_Z t - 1 < y /\ y <= inject_Z t)
  /\ (fl.representable f (x * 32767) -> y == x * 32767)
  /\ (-32767 <= t <= 32767)%Z
  /\ fp.quantize f 1 = 32767%Z
  /\ fp.quantize f (-1) = (-32767)%Z
  /\ fp.quantize f 2 = (-2)%Z.
Proof.
  intros Hp He Hx y t.
  assert (Hp0 : (0 < fl.prec f)%Z) by lia.
  destruct (round_product_in_range f x Hp He Hx) as (Hlo & Hhi). fold y in Hlo, Hhi.
  assert (Hr : (- 32767 <= trunc y <= 32767)%Z).
  { apply (trunc_range y 32767); [lia | | ];
      change (inject_Z 32767) with 32767; assumption. }
  assert (Ht : t = trunc y).
  { unfold t, fp.quantize. fold y. apply astype_int16_small. lia. }
  split; [exact Ht|]. rewrite Ht.
  split.
  { intro H0. apply trunc_nonneg. apply round_nonneg.
    apply Qmult_le_0_compat; [exact H0 | discriminate]. }
  split.
  { intro H0. apply trunc_nonpos. apply round_nonpos.
    assert (H : x * 32767 <= 0 * 32767)
      by (apply Qmult_le_compat_r; [exact H0 | discriminate]).
    rewrite Qmult_0_l in H. exact H. }
  split; [intro Hrep; now apply round_representable|].
  split; [lia|].
  split; [|split].
  - apply (quantize_integer f 1 32767 Hp He); reflexivity.
  - apply (quantize_integer f (-1) (-32767) Hp He); reflexivity.
  - apply (quantize_integer f 2 65534 Hp He); reflexivity.
Qed.

Lemma C2_quantize_discards_fraction_witness :
  fp.quantize fl.binary32 (32769 # 1073741824)
  = trunc (fl.round fl.binary32 ((32769 # 1073741824) * 32767))
  /\ (-32767 <= fp.quantize fl.binary32 (32769 # 1073741824) <= 32767)%Z.
Proof.
  destruct (C2_quantize_discards_fraction fl.binary32 (32769 # 1073741824))
    as (H1 & _ & _ & _ & H2 & _).
  - simpl. lia.
  - simpl. lia.
  - split; unfold Qle; simpl; lia.
  - split; [exact H1 | exact H2].
Defined.

(** C2 as stated fails: the float nearest to [0.7], in single and in
    double precision, is quantized to [22936], where rounding
    [0.7 * 32767 = 22936.9] gives [22937]; and [2.0] is quantized to
    [-2], where clipping gives [32767]. *)
Lemma C2_counterexample :
  fp.quantize fl.binary32 (fl.round fl.binary32 (7 # 10)) = 22936%Z
  /\ fp.quantize fl.binary64 (fl.round fl.binary64 (7 # 10)) = 22936%Z
  /\ spec.quantize (fl.round fl.binary32 (7 # 10)) = 22937%Z
  /\ spec.quantize (fl.round fl.binary64 (7 # 10)) = 22937%Z
  /\ fp.quantize fl.binary32 2 = (-2)%Z
  /\ spec.quantize 2 = 32767%Z.
Proof. vm_compute. repeat split. Qed.

(** ** Resynchronization *)

Lemma loaded_reference_length (f : wav_file) :
  length (aligner.loaded_reference f) = np.len (wav_data f).
Proof.
  unfold aligner.loaded_reference, sf_read. simpl.
  destruct (wav_data f) as [d|r]; simpl.
  - apply length_map.
  - unfold mean_axis1. now rewrite !length_map.
Qed.

Lemma prepare_passes_reference (E : Type) (f : wav_file) (deg_audio : list Q) :
  @scorer.prepare E f deg_audio (wav_rate f)
  = inr {| scorer.call_fs := wav_rate f;
           scorer.call_ref := wav_data f;
           scorer.call_deg := map scorer.quantize deg_audio;
           scorer.call_mode := if (wav_rate f =? 8000)%Z then scorer.nb else scorer.wb |}.
Proof.
  unfold scorer.prepare, wavfile_read. now rewrite Z.eqb_refl.
Qed.

(** C3, as the code has it.  For a non-empty capture and reference at the
    same rate: a positive lag drops the first [lag] samples of the
    capture, a lag [<= 0] puts [abs(lag)] zeros in front of it; the
    resynchronized buffer alone is cut to the shorter of its length and
    the reference's, so that
    [len(aligned) = min(len(ref), len(rec) - lag)] (the trim counted
    positive, the padding negative) and [len(aligned) <= len(ref)].  The
    reference is not cut: scoring receives it at its full length. *)
Theorem C3_resync_and_length (E : Type) (f : wav_file) (rec_audio : list Q) :
  rec_audio <> [] -> aligner.loaded_reference f <> [] ->
  let ref := aligner.loaded_reference f in
  exists lag aligned offset call,
    @aligner.lag_samples E rec_audio ref = inr lag
    /\ @aligner.align_audio E f rec_audio (wav_rate f) = inr (aligned, offset)
    /\ ((0 < lag)%Z ->
        aligner.resync rec_audio lag = skipn (Z.to_nat lag) rec_audio)
    /\ ((lag <= 0)%Z ->
        aligner.resync rec_audio lag = repeat 0 (Z.abs_nat lag) ++ rec_audio)
    /\ aligned
       = firstn (Nat.min (length (aligner.resync rec_audio lag)) (length ref))
                (aligner.resync rec_audio lag)
    /\ Z.of_nat (length aligned)
       = Z.min (Z.of_nat (length ref)) (Z.of_nat (length rec_audio) - lag)
    /\ (length aligned <= length ref)%nat
    /\ @scorer.prepare E f aligned (wav_rate f) = inr call
    /\ np.len (scorer.call_ref call) = length ref.
Proof.
  intros Hrec Href ref.
  destruct (best_index_defined E rec_audio ref Hrec Href) as (best & Hbest & Hlt).
  pose proof (nonempty_length _ Href) as Hlen.
  set (lag := aligner.lag_of best ref).
  assert (Hlag : (lag < Z.of_nat (length rec_audio))%Z) by (unfold lag, aligner.lag_of; lia).
  exists lag, (aligner.truncate (aligner.resync rec_audio lag) ref),
         (aligner.offset_of lag (wav_rate f)).
  eexists.
  split; [unfold aligner.lag_samples; now rewrite Hbest|].
  split; [apply (align_audio_with_best E f rec_audio best Hbest)|].
  split.
  { intro Hpos. unfold aligner.resync, slice_from.
    destruct (Z.ltb_spec 0 lag); [reflexivity | lia]. }
  split.
  { intro Hneg. unfold aligner.resync, pad_front.
    destruct (Z.ltb_spec 0 lag); [lia|].
    now rewrite Zabs2Nat.abs_nat_spec. }
  split; [reflexivity|].
  split.
  { rewrite truncate_length, Nat2Z.inj_min, (resync_length rec_audio lag Hlag). lia. }
  split; [rewrite truncate_length; lia|].
  split; [apply prepare_passes_reference|].
  simpl. symmetry. apply loaded_reference_length.
Qed.

Lemma C3_resync_and_length_witness :
  let f := {| wav_rate := 8000; wav_data := Array1 [16384; 8192]%Z |} in
  let g := {| wav_rate := 8000; wav_data := Array1 [0; 16384]%Z |} in
  let late := [0; 1 # 2; 1 # 4; 1 # 8] in
  let early := [1 # 2; 0; 0] in
  (exists offset,
     @aligner.lag_samples string late (aligner.loaded_reference f) = inr 1%Z
     /\ aligner.resync late 1 = [1 # 2; 1 # 4; 1 # 8]
     /\ @aligner.align_audio string f late 8000 = inr ([1 # 2; 1 # 4], offset)
     /\ Z.of_nat (length [1 # 2; 1 # 4]) = Z.min 2 (4 - 1))
  /\ (exists offset,
        @aligner.lag_samples string early (aligner.loaded_reference g) = inr (-1)%Z
        /\ aligner.resync early (-1) = [0; 1 # 2; 0; 0]
        /\ @aligner.align_audio string g early 8000 = inr ([0; 1 # 2], offset)
        /\ Z.of_nat (length [0; 1 # 2]) = Z.min 2 (3 - (-1))).
Proof.
  intros f g late early. split.
  - destruct (C3_resync_and_length string f late)
      as (lag & aligned & offset & call & H1 & H2 & H3 & _ & H5 & H6 & _).
    + discriminate.
    + discriminate.
    + assert (Hlag : lag = 1%Z) by (vm_compute in H1; congruence).
      subst lag.
      assert (Hres : aligner.resync late 1 = [1 # 2; 1 # 4; 1 # 8])
        by (rewrite H3 by lia; reflexivity).
      assert (Hal : aligned = [1 # 2; 1 # 4]) by (rewrite H5, Hres; reflexivity).
      subst aligned. exists offset.
      split; [exact H1|]. split; [exact Hres|]. split; [exact H2 | exact H6].
  - destruct (C3_resync_and_length string g early)
      as (lag & aligned & offset & call & H1 & H2 & _ & H4 & H5 & H6 & _).
    + discriminate.
    + discriminate.
    + assert (Hlag : lag = (-1)%Z) by (vm_compute in H1; congruence).
      subst lag.
      assert (Hres : aligner.resync early (-1) = [0; 1 # 2; 0; 0])
        by (rewrite H4 by lia; reflexivity).
      assert (Hal : aligned = [0; 1 # 2]) by (rewrite H5, Hres; reflexivity).
      subst aligned. exists offset.
      split; [exact H1|]. split; [exact Hres|]. split; [exact H2 | exact H6].
Defined.

(** C3 as stated fails: with the three-sample reference [0.5, 0, 0] and
    the one-sample capture [0.5] the aligned buffer has one sample, the
    shorter length is 1, and the reference handed to scoring still has
    three samples. *)
Lemma C3_counterexample :
  let f := {| wav_rate := 8000; wav_data := Array1 [16384; 0; 0]%Z |} in
  exists aligned offset call,
    @aligner.align_audio string f [1 # 2] 8000 = inr (aligned, offset)
    /\ @scorer.prepare string f aligned 8000 = inr call
    /\ Nat.min (length aligned) (length (aligner.loaded_reference f)) = 1%nat
    /\ np.len (scorer.call_ref call) = 3%nat
    /\ length (scorer.call_deg call) = 1%nat.
Proof.
  intro f. eexists. eexists. eexists.
  split; [vm_compute; reflexivity|].
  split; [vm_compute; reflexivity|].
  vm_compute. repeat split.
Qed.

(** ** Known delay and self-alignment *)

(** C4, as the code has it.  For a reference with at least one non-zero
    sample and [d > 0], a capture made of [d] zeros followed by the
    reference gives [lag = +d] exactly (the capture is late, its front is
    dropped), the aligned buffer is the reference and
    [offset_sec = d / sr_ref]. *)
Theorem C4_known_delay_recovered (E : Type) (f : wav_file) (d : nat) :
  nonzero (aligner.loaded_reference f) -> (0 < d)%nat ->
  let ref := aligner.loaded_reference f in
  let captured := repeat 0 d ++ ref in
  captured = pad_front ref (Z.of_nat d)
  /\ @aligner.lag_samples E captured ref = inr (Z.of_nat d)
  /\ @aligner.align_audio E f captured (wav_rate f)
     = inr (ref, inject_Z (Z.of_nat d) / inject_Z (wav_rate f)).
Proof.
  intros Hnz Hd ref captured.
  split; [unfold pad_front; now rewrite Nat2Z.id|].
  split; [now apply lag_samples_padded|].
  now apply align_audio_padded.
Qed.

Lemma C4_known_delay_recovered_witness :
  let f := {| wav_rate := 8000; wav_data := Array1 [16384; -8192]%Z |} in
  @aligner.lag_samples string
     (repeat 0 3 ++ aligner.loaded_reference f) (aligner.loaded_reference f)
  = inr 3%Z.
Proof.
  intro f.
  destruct (C4_known_delay_recovered string f 3) as (_ & H & _).
  - exists 0%nat. vm_compute. discriminate.
  - lia.
  - exact H.
Defined.

(** C4 as stated fails: one zero in front of the reference [0.5] gives
    lag [+1], not [-1]; and in front of the silent reference [0] it
    gives lag [0]. *)
Lemma C4_counterexample :
  let f := {| wav_rate := 8000; wav_data := Array1 [16384]%Z |} in
  let ref := aligner.loaded_reference f in
  @aligner.lag_samples string (pad_front ref 1) ref = inr 1%Z
  /\ @aligner.lag_samples string (pad_front ref 1) ref <> inr (- 1)%Z
  /\ @aligner.lag_samples string (pad_front [0] 1) [0] = inr 0%Z.
Proof. vm_compute. repeat split; discriminate. Qed.

(** C5, as the code has it.  For a reference with at least one non-zero
    sample, aligning it against itself gives [lag = 0], an offset equal to
    zero, and the reference itself as aligned buffer. *)
Theorem C5_self_alignment (E : Type) (f : wav_file) :
  nonzero (aligner.loaded_reference f) ->
  let ref := aligner.loaded_reference f in
  @aligner.lag_samples E ref ref = inr 0%Z
  /\ exists offset_sec,
       @aligner.align_audio E f ref (wav_rate f) = inr (ref, offset_sec)
       /\ offset_sec == 0.
Proof.
  intros Hnz ref.
  split; [apply (lag_samples_padded E 0 ref Hnz)|].
  exists (aligner.offset_of 0 (wav_rate f)).
  split; [apply (align_audio_padded E f 0 Hnz)|].
  unfold aligner.offset_of, Qdiv. change (inject_Z 0) with 0. ring.
Qed.

Lemma C5_self_alignment_witness :
  let f := {| wav_rate := 8000; wav_data := Array1 [16384; -8192; 0]%Z |} in
  @aligner.lag_samples string (aligner.loaded_reference f) (aligner.loaded_reference f)
  = inr 0%Z.
Proof.
  intro f.
  destruct (C5_self_alignment string f) as (H & _).
  - exists 0%nat. vm_compute. discriminate.
  - exact H.
Defined.

(** C5 as stated fails: the silent two-sample reference correlates to
    zeros everywhere, [np.argmax] returns index 0 and the lag is [-1]. *)
Lemma C5_counterexample :
  let f := {| wav_rate := 8000; wav_data := Array1 [0; 0]%Z |} in
  let ref := aligner.loaded_reference f in
  @aligner.lag_samples string ref ref = inr (- 1)%Z
  /\ @aligner.lag_samples string ref ref <> inr 0%Z
  /\ exists aligned offset_sec,
       @aligner.align_audio string f ref 8000 = inr (aligned, offset_sec)
       /\ ~ offset_sec == 0.
Proof.
  cbv zeta. split; [vm_compute; reflexivity|].
  split; [vm_compute; discriminate|].
  eexists. eexists. split; [vm_compute; reflexivity|].
  vm_compute. discriminate.
Qed.

(** ** Errors *)

Lemma best_index_error (E : Type) (rec_audio ref : list Q) :
  (exists j, @aligner.best_index E rec_audio ref = inr j)
  \/ @aligner.best_index E rec_audio ref = inl (ValueError ve_empty_array).
Proof.
  destruct rec_audio as [|a rec_audio].
  - right. apply best_index_empty. now left.
  - destruct ref as [|b ref].
    + right. apply best_index_empty. now right.
    + left. destruct (best_index_defined E (a :: rec_audio) (b :: ref)) as (j & Hj & _);
        try discriminate. eauto.
Qed.

Lemma align_audio_mismatch (E : Type) (f : wav_file) (rec_audio : list Q) (sr : Z) :
  wav_rate f <> sr ->
  @aligner.align_audio E f rec_audio sr
  = inl (ValueError (ve_sample_rate_mismatch (wav_rate f) sr)).
Proof.
  intro H. rewrite align_audio_loaded. unfold aligner.align_loaded.
  apply Z.eqb_neq in H. now rewrite H.
Qed.

(** C6.  When the sample rates differ, alignment and scoring both fail
    with the sample-rate-mismatch error and produce nothing else; when
    they are equal, neither fails with that error. *)
Theorem C6_sample_rate_guard
    (E Score : Type)
    (pesq : Z -> ndarray Z -> list Z -> scorer.pesq_mode -> E + Score)
    (f : wav_file) (rec_audio deg_audio : list Q) (sr : Z) :
  (wav_rate f <> sr ->
     @aligner.align_audio E f rec_audio sr
     = inl (ValueError (ve_sample_rate_mismatch (wav_rate f) sr))
     /\ scorer.calculate_pesq E Score pesq f deg_audio sr
        = inl (ValueError (ve_sample_rate_mismatch (wav_rate f) sr)))
  /\ (wav_rate f = sr ->
      forall a b,
        @aligner.align_audio E f rec_audio sr
        <> inl (ValueError (ve_sample_rate_mismatch a b))
        /\ scorer.calculate_pesq E Score pesq f deg_audio sr
           <> inl (ValueError (ve_sample_rate_mismatch a b))).
Proof.
  split.
  - intro H. split; [now apply align_audio_mismatch|].
    unfold scorer.calculate_pesq, scorer.prepare, wavfile_read.
    apply Z.eqb_neq in H. now rewrite H.
  - intros <- a b. split.
    + destruct (best_index_error E rec_audio (aligner.loaded_reference f))
        as [(j & Hj)|Hj].
      * rewrite (align_audio_with_best E f rec_audio j Hj). discriminate.
      * rewrite align_audio_loaded. unfold aligner.align_loaded.
        rewrite Z.eqb_refl. cbn [negb]. unfold aligner.lag_samples.
        fold (aligner.loaded_reference f). rewrite Hj. discriminate.
    + unfold scorer.calculate_pesq. rewrite prepare_passes_reference.
      unfold scorer.call_oracle. cbn.
      destruct (pesq _ _ _ _); discriminate.
Qed.

Lemma C6_sample_rate_guard_witness :
  let f := {| wav_rate := 8000; wav_data := Array1 [16384; 0]%Z |} in
  let pesq := fun (_ : Z) (_ : ndarray Z) (_ : list Z) (_ : scorer.pesq_mode) =>
                @inr string Q 4 in
  @aligner.align_audio string f [1 # 2] 16000
  = inl (ValueError (ve_sample_rate_mismatch 8000 16000))
  /\ scorer.calculate_pesq string Q pesq f [1 # 2] 16000
     = inl (ValueError (ve_sample_rate_mismatch 8000 16000))
  /\ @aligner.align_audio string f [1 # 2] 8000
     <> inl (ValueError (ve_sample_rate_mismatch 8000 8000)).
Proof.
  intros f pesq.
  destruct (C6_sample_rate_guard string Q pesq f [1 # 2] [1 # 2] 16000) as (H1 & _).
  destruct (C6_sample_rate_guard string Q pesq f [1 # 2] [1 # 2] 8000) as (_ & H2).
  destruct H1 as (Ha & Hs); [simpl; lia|].
  destruct (H2 eq_refl 8000%Z 8000%Z) as (Hn & _).
  repeat split; assumption.
Defined.

(** C8, as the code has it.  When the reference or the capture is empty,
    alignment fails: with the empty-array [ValueError] of the correlation
    step when the rates are equal, and with the sample-rate-mismatch
    error, which is checked first, when they differ.  Both are
    [ValueError]s; there is no separate error kind. *)
Theorem C8_empty_input_fails
    (E : Type) (f : wav_file) (rec_audio : list Q) (sr : Z) :
  rec_audio = [] \/ aligner.loaded_reference f = [] ->
  @aligner.align_audio E f rec_audio sr
  = inl (ValueError (if (wav_rate f =? sr)%Z then ve_empty_array
                     else ve_sample_rate_mismatch (wav_rate f) sr)).
Proof.
  intro H. destruct (Z.eqb_spec (wav_rate f) sr) as [<-|Hne].
  - rewrite align_audio_loaded. unfold aligner.align_loaded.
    rewrite Z.eqb_refl. cbn [negb]. unfold aligner.lag_samples.
    fold (aligner.loaded_reference f).
    now rewrite (best_index_empty E rec_audio _ H).
  - now apply align_audio_mismatch.
Qed.

Lemma C8_empty_input_fails_witness :
  let f := {| wav_rate := 8000; wav_data := Array1 [16384; 0]%Z |} in
  @aligner.align_audio string f [] 8000 = inl (ValueError ve_empty_array).
Proof.
  intro f. apply (C8_empty_input_fails string f [] 8000). left. reflexivity.
Defined.

(** C8 as stated fails: an empty reference at 8000 Hz against a capture
    at 16000 Hz fails with the sample-rate-mismatch error, the very error
    of the rate guard. *)
Lemma C8_counterexample :
  let f := {| wav_rate := 8000; wav_data := Array1 [] |} in
  aligner.loaded_reference f = []
  /\ @aligner.align_audio string f [1 # 2] 16000
     = inl (ValueError (ve_sample_rate_mismatch 8000 16000))
  /\ @aligner.align_audio string f [1 # 2] 16000
     <> inl (ValueError ve_empty_array).
Proof. vm_compute. repeat split; discriminate. Qed.

(** ** The voice trigger *)

(** The threshold of the comparison. *)
Lemma compared_zero (p : fp.promotion) : fp.compared p 0 == 0.
Proof. destruct p; [reflexivity | now apply round_zero]. Qed.

Lemma compared_negative (p : fp.promotion) (threshold : Q) :
  threshold < 0 -> p = fp.numpy1 \/ threshold <= - fl.pow2 (-149) ->
  fp.compared p threshold < 0.
Proof.
  intros Hneg Hp. destruct p; [exact Hneg|].
  destruct Hp as [Hp | Hp]; [discriminate|].
  assert (Hrep : fl.representable fl.binary32 (- fl.pow2 (-149))).
  { exists (-1)%Z, (-149)%Z. split; [|split].
    - change (inject_Z (-1)) with (-1). ring.
    - reflexivity.
    - simpl. lia. }
  pose proof (round_mono fl.binary32 _ _ eq_refl Hp) as Hle.
  rewrite (round_representable fl.binary32 _ eq_refl Hrep) in Hle.
  pose proof (pow2_pos (-149)). simpl. lra.
Qed.

Lemma wait_for_voice_Qeq (E : Type) (s t : Q) (n : nat) (dev : trigger.device) :
  s == t -> @trigger.wait_for_voice E s n dev = trigger.wait_for_voice t n dev.
Proof.
  intro Hst. revert n. induction dev as [|c dev IH]; intro n; [reflexivity|].
  simpl. destruct (@trigger.peak E c) as [e|q]; [reflexivity|].
  assert (Hb : Qltb s q = Qltb t q).
  { destruct (Qltb s q) eqn:H1; destruct (Qltb t q) eqn:H2; try reflexivity.
    - apply Qltb_lt in H1. apply Qltb_ge in H2. rewrite Hst in H1. lra.
    - apply Qltb_ge in H1. apply Qltb_lt in H2. rewrite Hst in H1. lra. }
  rewrite Hb, IH. reflexivity.
Qed.

(** C7, as the code has it.  The wait ends exactly on the first frame
    whose peak exceeds the threshold of the comparison (the threshold
    itself under NumPy 1, the float32 nearest to it under NumPy 2), all
    frames before it being quiet.  When that threshold is negative, as it
    is for every negative threshold under NumPy 1 and for every threshold
    of at most [-2^-149] under NumPy 2, the wait ends on the first frame,
    whatever that non-empty frame holds; with threshold 0 it ends on the
    first frame exactly when that frame has a non-zero sample. *)
Theorem C7_trigger_on_first_loud_frame (E : Type) (p : fp.promotion) :
  (forall threshold dev n rest,
     @fp.wait_for_voice E p threshold 0 dev = trigger.Triggered n rest
     <-> exists pre chunk,
           dev = pre ++ chunk :: rest /\ n = length pre
           /\ Forall (quiet E (fp.compared p threshold)) pre
           /\ loud E (fp.compared p threshold) chunk)
  /\ (forall threshold chunk rest,
        fp.compared p threshold < 0 -> chunk <> [] ->
        @fp.wait_for_voice E p threshold 0 (chunk :: rest)
        = trigger.Triggered 0 rest)
  /\ (forall threshold,
        threshold < 0 -> p = fp.numpy1 \/ threshold <= - fl.pow2 (-149) ->
        fp.compared p threshold < 0)
  /\ (forall chunk rest,
        @fp.wait_for_voice E p 0 0 (chunk :: rest) = trigger.Triggered 0 rest
        <-> exists c, In c chunk /\ ~ c == 0).
Proof.
  split; [|split; [|split]].
  - intros threshold dev n rest. unfold fp.wait_for_voice. split.
    + intro H. apply wait_triggered_inv in H.
      destruct H as (pre & chunk & H1 & H2 & H3 & H4).
      exists pre, chunk. repeat split; assumption.
    + intros (pre & chunk & -> & -> & Hq & Hl).
      apply (wait_triggers E _ pre chunk rest 0 Hq Hl).
  - intros threshold chunk rest Hneg Hne. unfold fp.wait_for_voice.
    apply (wait_triggers E _ [] chunk rest 0 (Forall_nil _)).
    now apply loud_negative.
  - intros threshold Hneg Hp. now apply compared_negative.
  - intros chunk rest. unfold fp.wait_for_voice.
    rewrite (wait_for_voice_Qeq E _ 0 0 _ (compared_zero p)).
    rewrite <- loud_zero with (E := E). split.
    + intro H. apply wait_triggered_inv in H.
      destruct H as (pre & chunk' & H1 & H2 & _ & H4).
      destruct pre as [|c pre]; [|simpl in H2; lia].
      simpl in H1. injection H1 as ->. exact H4.
    + intro Hl. apply (wait_triggers E 0 [] chunk rest 0 (Forall_nil _) Hl).
Qed.

(** Under NumPy 2 a frame that peaks at the float32 nearest to 0.1 does not
    exceed the threshold 0.1, and the wait goes on to the next frame. *)
Lemma C7_trigger_on_first_loud_frame_witness :
  @fp.wait_for_voice string fp.numpy2 (- (1 # 10)) 0 [[0; 0]; [1 # 2]]
  = trigger.Triggered 0 [[1 # 2]]
  /\ @fp.wait_for_voice string fp.numpy2 (1 # 10) 0
       [[13421773 # 134217728]; [1 # 4]]
     = trigger.Triggered 1 [].
Proof.
  destruct (C7_trigger_on_first_loud_frame string fp.numpy2) as (H1 & H2 & H3 & _).
  split.
  - apply (H2 (- (1 # 10)) [0; 0] [[1 # 2]]).
    + apply H3; [reflexivity|]. right. vm_compute. discriminate.
    + discriminate.
  - apply (H1 (1 # 10) [[13421773 # 134217728]; [1 # 4]] 1%nat []).
    exists [[13421773 # 134217728]], [1 # 4].
    split; [reflexivity|]. split; [reflexivity|]. split.
    + constructor; [|constructor].
      exists (13421773 # 134217728). split; [reflexivity|].
      vm_compute. discriminate.
    + exists (1 # 4). split; [reflexivity|]. vm_compute. reflexivity.
Defined.

(** C7 as stated fails: with threshold 0 a first frame of zeros does not
    end the wait, which ends on the second frame; so it does, under
    NumPy 2, with a negative threshold that float32 rounds to zero. *)
Lemma C7_counterexample :
  @fp.wait_for_voice string fp.numpy1 0 0 [[0; 0]; [1 # 2]] = trigger.Triggered 1 []
  /\ @fp.wait_for_voice string fp.numpy2 0 0 [[0; 0]; [1 # 2]] = trigger.Triggered 1 []
  /\ @fp.wait_for_voice string fp.numpy1 0 0 [[0; 0]; [1 # 2]]
     <> trigger.Triggered 0 [[1 # 2]]
  /\ @fp.wait_for_voice string fp.numpy2
       (- (1 # 100000000000000000000000000000000000000000000000000)) 0
       [[0; 0]; [1 # 2]]
     = trigger.Triggered 1 [].
Proof. vm_compute. repeat split; discriminate. Qed.

(** ** File numbering *)

(** C9, as the code has it.  The index is 1 when no matching file name
    yields a number, and otherwise one more than the largest number read
    from the matching names; it is therefore above the number of every
    existing file (but not in general the smallest unused one, nor
    positive). *)
Theorem C9_next_number_above_all (dir : list string) :
  let N := naming.get_next_number dir in
  let numbers := naming.numbers_of (naming.glob dir) in
  (numbers = [] -> N = 1%Z)
  /\ (numbers <> [] ->
      In (N - 1)%Z numbers /\ forall n, In n numbers -> (n <= N - 1)%Z)
  /\ (forall f n,
        In f dir -> naming.matches_pattern f = true ->
        naming.file_number f = Some n -> (n < N)%Z /\ n <> N).
Proof.
  cbv zeta. pose proof (get_next_number_max dir) as Hmax.
  split; [|split].
  - intro Hnil. now rewrite Hnil in Hmax.
  - intro Hne. destruct (naming.numbers_of (naming.glob dir)) as [|n ns];
      [congruence|].
    rewrite Hmax. replace (naming.max_list n ns + 1 - 1)%Z
      with (naming.max_list n ns) by lia.
    split; [apply max_list_in | intros m Hm; now apply max_list_upper].
  - intros f n Hin Hmatch Hnum.
    assert (Hn : In n (naming.numbers_of (naming.glob dir))).
    { apply numbers_of_in. exists f. split; [|exact Hnum].
      apply glob_in. now split. }
    destruct (naming.numbers_of (naming.glob dir)) as [|k ns]; [destruct Hn|].
    rewrite Hmax. pose proof (max_list_upper ns k n Hn). lia.
Qed.

Lemma C9_next_number_above_all_witness :
  (10 < naming.get_next_number
          ["Degraded_2.wav"; "notes.txt"; "Degraded_10_PESQ_4.210_aligned.wav"]%string)%Z.
Proof.
  destruct (C9_next_number_above_all
              ["Degraded_2.wav"; "notes.txt"; "Degraded_10_PESQ_4.210_aligned.wav"]%string)
    as (_ & _ & H).
  destruct (H "Degraded_10_PESQ_4.210_aligned.wav"%string 10%Z) as (Hlt & _).
  - simpl. auto.
  - reflexivity.
  - reflexivity.
  - exact Hlt.
Defined.

(** C9 as stated fails: with the single file [Degraded_2.wav] the index
    is 3, while the smallest unused positive integer is 1; and with
    [Degraded_-5.wav] the index is -4. *)
Lemma C9_counterexample :
  naming.numbers_of (naming.glob ["Degraded_2.wav"%string]) = [2%Z]
  /\ naming.get_next_number ["Degraded_2.wav"%string] = 3%Z
  /\ spec.smallest_unused [2%Z] 1%Z
  /\ ~ spec.smallest_unused [2%Z] (naming.get_next_number ["Degraded_2.wav"%string])
  /\ naming.get_next_number ["Degraded_-5.wav"%string] = (- 4)%Z.
Proof.
  split; [reflexivity|]. split; [reflexivity|]. split; [|split].
  - unfold spec.smallest_unused. split; [lia|]. split.
    + intros [H|[]]. discriminate.
    + intros m Hm. lia.
  - change (naming.get_next_number ["Degraded_2.wav"%string]) with 3%Z.
    intros (_ & _ & H). destruct (H 1%Z ltac:(lia)) as [H1|[]]. discriminate.
  - reflexivity.
Qed.

(** ** Channels *)

Lemma prepare_fp_passes_reference
    (E : Type) (fmt : fl.format) (f : wav_file) (deg_audio : list Q) :
  @fp.prepare E fmt f deg_audio (wav_rate f)
  = inr {| scorer.call_fs := wav_rate f;
           scorer.call_ref := wav_data f;
           scorer.call_deg := map (fp.quantize fmt) deg_audio;
           scorer.call_mode := if (wav_rate f =? 8000)%Z then scorer.nb else scorer.wb |}.
Proof.
  unfold fp.prepare, wavfile_read. now rewrite Z.eqb_refl.
Qed.

(** The mean of the two channels of a 16-bit stereo frame is exact in
    double precision. *)
Lemma mean_stereo (l r : Z) :
  (-32768 <= l <= 32767)%Z -> (-32768 <= r <= 32767)%Z ->
  np.mean [inject_Z l / 32768; inject_Z r / 32768]
  == (inject_Z l / 32768 + inject_Z r / 32768) / 2.
Proof.
  intros Hl Hr. unfold np.mean.
  assert (Hq : np.sum [inject_Z l / 32768; inject_Z r / 32768]
               / inject_Z (Z.of_nat (length [inject_Z l / 32768; inject_Z r / 32768]))
               == (inject_Z l / 32768 + inject_Z r / 32768) / 2).
  { cbn [np.sum fold_right length]. change (inject_Z (Z.of_nat 2)) with 2. field. }
  rewrite (round_comp fl.binary64 _ _ Hq).
  apply round_representable; [reflexivity|].
  exists (l + r)%Z, (-16)%Z. split; [|split].
  - rewrite inject_Z_plus.
    assert (Hp : fl.pow2 (-16) == 1 # 65536) by reflexivity.
    rewrite Hp. field.
  - simpl. lia.
  - simpl. lia.
Qed.

Lemma nth_map_nth_error {A} (g : A -> Q) (l : list A) (i : nat) (x : A) :
  nth_error l i = Some x -> nth i (map g l) 0 = g x.
Proof.
  revert i. induction l as [|a l IH]; intros [|i] H; try discriminate.
  - injection H as ->. reflexivity.
  - simpl. now apply IH.
Qed.

(** C10.  A reference of several channels is averaged frame by frame
    before the correlation: every sample of the mono signal is the sum of
    the frame's channels divided by their number, in double precision,
    which for a 16-bit stereo frame is exactly half the sum of left and
    right.  Alignment goes on as for the mono signal of the averages (it
    succeeds whenever the file has a frame and the capture a sample).
    Scoring hands the oracle the samples as stored in the file, all
    channels and all frames, whatever the degraded buffer is. *)
Theorem C10_downmix_only_in_alignment
    (E Score : Type)
    (pesq : Z -> ndarray Z -> list Z -> scorer.pesq_mode -> E + Score)
    (correlate : list Q -> list Q -> result E (list Q)) (fmt : fl.format)
    (f : wav_file) (rows : list (list Z)) (rec_audio deg_audio : list Q) :
  fp.full_mode E correlate ->
  wav_data f = Array2 rows ->
  let scale := fun v : Z => inject_Z v / 32768 in
  let mono := map np.mean (map (map scale) rows) in
  let mode := if (wav_rate f =? 8000)%Z then scorer.nb else scorer.wb in
  aligner.loaded_reference f = mono
  /\ length mono = length rows
  /\ (forall i row, nth_error rows i = Some row ->
        nth i mono 0
        = fl.round fl.binary64
            (np.sum (map scale row) / inject_Z (Z.of_nat (length row))))
  /\ (forall i l r, nth_error rows i = Some [l; r] ->
        (-32768 <= l <= 32767)%Z -> (-32768 <= r <= 32767)%Z ->
        nth i mono 0 == (scale l + scale r) / 2)
  /\ fp.align_audio E correlate f rec_audio (wav_rate f)
     = fp.align_loaded E correlate (Array1 mono) (wav_rate f) rec_audio (wav_rate f)
  /\ (rows <> [] -> rec_audio <> [] ->
      exists r, fp.align_audio E correlate f rec_audio (wav_rate f) = inr r)
  /\ @fp.prepare E fmt f deg_audio (wav_rate f)
     = inr {| scorer.call_fs := wav_rate f;
              scorer.call_ref := Array2 rows;
              scorer.call_deg := map (fp.quantize fmt) deg_audio;
              scorer.call_mode := mode |}
  /\ fp.calculate_pesq E Score pesq fmt f deg_audio (wav_rate f)
     = match pesq (wav_rate f) (Array2 rows) (map (fp.quantize fmt) deg_audio) mode with
       | inl e => inl (OracleFailure e)
       | inr s => inr (s, scorer.mode_name mode)
       end.
Proof.
  intros (_ & Hfull) Hdata scale mono mode.
  assert (Href : aligner.loaded_reference f = mono).
  { unfold aligner.loaded_reference, sf_read. simpl. now rewrite Hdata. }
  assert (Hnth : forall i row, nth_error rows i = Some row ->
                   nth i mono 0 = np.mean (map scale row)).
  { intros i row Hi. unfold mono. rewrite map_map.
    now apply (nth_map_nth_error (fun r => np.mean (map scale r)) rows i row). }
  split; [exact Href|].
  split; [unfold mono; now rewrite !length_map|].
  split.
  { intros i row Hi. rewrite (Hnth i row Hi). unfold np.mean.
    now rewrite length_map. }
  split.
  { intros i l r Hi Hl Hr. rewrite (Hnth i _ Hi). now apply mean_stereo. }
  split.
  { change (fp.align_audio E correlate f rec_audio (wav_rate f))
      with (fp.align_loaded E correlate (fst (sf_read f)) (wav_rate f)
              rec_audio (wav_rate f)).
    unfold fp.align_loaded. fold (aligner.loaded_reference f). now rewrite Href. }
  split.
  { intros Hrows Hrec.
    assert (Hne : aligner.loaded_reference f <> []).
    { rewrite Href. unfold mono. destruct rows; [congruence | discriminate]. }
    destruct (Hfull rec_audio _ Hrec Hne) as (corr & Hcorr & Hlen).
    pose proof (nonempty_length _ Hrec). pose proof (nonempty_length _ Hne).
    destruct (@argmax_nonempty E corr) as (j & Hj).
    { intros ->. simpl in Hlen. lia. }
    assert (Hb : fp.best_index E correlate rec_audio (aligner.loaded_reference f)
                 = inr j).
    { unfold fp.best_index. rewrite Hcorr. exact Hj. }
    rewrite (fp_align_audio_with_best E correlate f rec_audio j Hb). eauto. }
  split.
  { rewrite prepare_fp_passes_reference, Hdata. reflexivity. }
  unfold fp.calculate_pesq. rewrite prepare_fp_passes_reference, Hdata.
  unfold scorer.call_oracle. cbn. fold mode.
  destruct (pesq _ _ _ _); reflexivity.
Qed.

Lemma C10_downmix_only_in_alignment_witness :
  let f := {| wav_rate := 16000;
              wav_data := Array2 [[16384; 0]; [8192; -8192]]%Z |} in
  let pesq := fun (_ : Z) (ref : ndarray Z) (_ : list Z) (_ : scorer.pesq_mode) =>
                @inr string nat (np.len ref) in
  nth 0 (aligner.loaded_reference f) 0 == 1 # 4
  /\ nth 1 (aligner.loaded_reference f) 0 == 0
  /\ length (aligner.loaded_reference f) = 2%nat
  /\ (exists r, fp.align_audio string signal.correlate f [1 # 4; 0] 16000 = inr r)
  /\ fp.calculate_pesq string nat pesq fl.binary32 f [1 # 4] 16000
     = inr (2%nat, "wideband"%string).
Proof.
  intros f pesq.
  destruct (C10_downmix_only_in_alignment string nat pesq signal.correlate
              fl.binary32 f [[16384; 0]; [8192; -8192]]%Z [1 # 4; 0] [1 # 4]
              (full_mode_exact string) eq_refl)
    as (H1 & H2 & _ & H4 & _ & H6 & _ & H8).
  rewrite H1.
  split; [rewrite (H4 0%nat 16384 0 eq_refl)%Z by lia; reflexivity|].
  split; [rewrite (H4 1%nat 8192 (-8192) eq_refl)%Z by lia; reflexivity|].
  split; [exact H2|].
  split; [apply H6; discriminate | exact H8].
Defined.

(* ================================================================== *)
(** * Further properties of the aligner *)

Section AlignerMore.

Import aligner.
Variable E : Type.

(** ** Success and ranges *)

Lemma align_audio_fails_or (f : wav_file) (rec_audio : list Q) (sr : Z) :
  wav_rate f <> sr \/ rec_audio = [] \/ loaded_reference f = [] ->
  exists e, @align_audio E f rec_audio sr = inl e.
Proof.
  intro H. destruct (Z.eq_dec (wav_rate f) sr) as [<-|Hne].
  - destruct H as [H|H]; [congruence|].
    rewrite align_audio_loaded. unfold align_loaded.
    rewrite Z.eqb_refl. cbn [negb]. unfold lag_samples.
    fold (loaded_reference f). rewrite (best_index_empty E rec_audio _ H).
    simpl. eauto.
  - rewrite (align_audio_mismatch E f rec_audio sr Hne). eauto.
Qed.

Lemma list_empty_dec {A} (l : list A) : l = [] \/ l <> [].
Proof. destruct l; [now left | right; discriminate]. Qed.

Lemma align_audio_success_inv (f : wav_file) (rec_audio : list Q) (sr : Z) :
  (exists r, @align_audio E f rec_audio sr = inr r) ->
  wav_rate f = sr /\ rec_audio <> [] /\ loaded_reference f <> [].
Proof.
  intros (r & Hr).
  destruct (Z.eq_dec (wav_rate f) sr) as [Heq|Hne].
  - destruct (list_empty_dec rec_audio) as [Hrec|Hrec].
    + destruct (align_audio_fails_or f rec_audio sr) as (e & He); [auto|congruence].
    + destruct (list_empty_dec (loaded_reference f)) as [Href|Href].
      * destruct (align_audio_fails_or f rec_audio sr) as (e & He); [auto|congruence].
      * auto.
  - destruct (align_audio_fails_or f rec_audio sr) as (e & He); [auto|congruence].
Qed.

(** Alignment succeeds exactly when the rates agree and neither buffer is
    empty. *)
Theorem align_audio_succeeds_iff (f : wav_file) (rec_audio : list Q) (sr : Z) :
  (exists r, @align_audio E f rec_audio sr = inr r)
  <-> wav_rate f = sr /\ rec_audio <> [] /\ loaded_reference f <> [].
Proof.
  split; [apply align_audio_success_inv|].
  intros (<- & Hrec & Href).
  destruct (best_index_defined E rec_audio _ Hrec Href) as (j & Hj & _).
  rewrite (align_audio_with_best E f rec_audio j Hj).
  exists (truncate (resync rec_audio (lag_of j (loaded_reference f))) (loaded_reference f),
          offset_of (lag_of j (loaded_reference f)) (wav_rate f)).
  reflexivity.
Qed.

(** On success the lag lies between [-(len(ref) - 1)] and
    [len(rec) - 1], and the aligned buffer has at least one sample. *)
Theorem align_audio_lag_range (f : wav_file) (rec_audio aligned : list Q)
    (sr : Z) (offset_sec : Q) :
  @align_audio E f rec_audio sr = inr (aligned, offset_sec) ->
  exists lag,
    @lag_samples E rec_audio (loaded_reference f) = inr lag
    /\ (- (Z.of_nat (length (loaded_reference f)) - 1) <= lag
        <= Z.of_nat (length rec_audio) - 1)%Z
    /\ offset_sec = inject_Z lag / inject_Z sr
    /\ (1 <= length aligned)%nat.
Proof.
  intro H.
  assert (Hs : exists r, @align_audio E f rec_audio sr = inr r) by eauto.
  apply align_audio_success_inv in Hs. destruct Hs as (<- & Hrec & Href).
  destruct (best_index_defined E rec_audio _ Hrec Href) as (j & Hj & Hlt).
  rewrite (align_audio_with_best E f rec_audio j Hj) in H.
  injection H as <- <-.
  pose proof (nonempty_length _ Hrec). pose proof (nonempty_length _ Href).
  exists (lag_of j (loaded_reference f)).
  split; [unfold lag_samples; now rewrite Hj|].
  split; [unfold lag_of; lia|].
  split; [reflexivity|].
  rewrite truncate_length.
  assert (Hl : (lag_of j (loaded_reference f) < Z.of_nat (length rec_audio))%Z)
    by (unfold lag_of; lia).
  pose proof (resync_length rec_audio _ Hl). lia.
Qed.

End AlignerMore.

Lemma align_audio_succeeds_iff_witness :
  let f := {| wav_rate := 8000; wav_data := Array1 [16384; 0; 0]%Z |} in
  exists r, @aligner.align_audio string f [1 # 2] 8000 = inr r.
Proof.
  intro f. apply (align_audio_succeeds_iff string f [1 # 2] 8000).
  repeat split; discriminate.
Defined.

Lemma align_audio_lag_range_witness :
  let f := {| wav_rate := 8000; wav_data := Array1 [16384; 0; 0]%Z |} in
  exists lag,
    @aligner.lag_samples string [1 # 2] (aligner.loaded_reference f) = inr lag
    /\ (- (3 - 1) <= lag <= 1 - 1)%Z.
Proof.
  intro f.
  destruct (align_audio_lag_range string f [1 # 2] [1 # 2] 8000 (0 # 8000))
    as (lag & H1 & H2 & _).
  - vm_compute. reflexivity.
  - exists lag. split; [exact H1 | exact H2].
Defined.

(* ================================================================== *)
(** * Invariance of the estimated lag *)

Section LagInvariance.

Import aligner.
Variable E : Type.

(** ** Correlation sequences that agree up to a positive factor *)

Lemma first_max_scaled (l1 l2 : list Q) (c : Q) (j : nat) :
  0 < c -> length l1 = length l2 ->
  (forall i, (i < length l2)%nat -> nth i l1 0 == c * nth i l2 0) ->
  first_max l1 j <-> first_max l2 j.
Proof.
  intros Hc Hlen Hpt. unfold first_max. rewrite Hlen.
  split; intros (Hj & Hmax & Hfirst); (split; [exact Hj|]); split.
  - intros i Hi. apply (Qmult_le_l _ _ c Hc).
    rewrite <- (Hpt i Hi), <- (Hpt j Hj). now apply Hmax.
  - intros i Hi. apply (Qmult_lt_l _ _ c Hc).
    rewrite <- (Hpt i ltac:(lia)), <- (Hpt j Hj). now apply Hfirst.
  - intros i Hi. rewrite (Hpt i Hi), (Hpt j Hj).
    apply (Qmult_le_l _ _ c Hc). now apply Hmax.
  - intros i Hi. rewrite (Hpt i ltac:(lia)), (Hpt j Hj).
    apply (Qmult_lt_l _ _ c Hc). now apply Hfirst.
Qed.

Lemma best_index_scaled (x y x' y' : list Q) (c : Q) :
  0 < c -> length x' = length x -> length y' = length y ->
  (forall k, signal.corr_at x' y' k == c * signal.corr_at x y k) ->
  @best_index E x' y' = @best_index E x y.
Proof.
  intros Hc Hx Hy Hcorr.
  destruct (list_empty_dec x) as [->|Hxne].
  { destruct x'; [|discriminate]. reflexivity. }
  destruct (list_empty_dec y) as [->|Hyne].
  { destruct y'; [|discriminate].
    now rewrite !best_index_empty by now right. }
  assert (Hx'ne : x' <> []) by (intros ->; destruct x; [congruence | discriminate]).
  assert (Hy'ne : y' <> []) by (intros ->; destruct y; [congruence | discriminate]).
  destruct (best_index_defined E x y Hxne Hyne) as (j & Hj & Hlt).
  rewrite Hj. apply (best_index_first_max E x' y' j Hx'ne Hy'ne).
  apply (best_index_first_max E x y j Hxne Hyne) in Hj.
  rewrite Hx, Hy.
  apply (first_max_scaled
           (map (signal.corr_at x' y') (seq 0 (length x + length y - 1)))
           (map (signal.corr_at x y) (seq 0 (length x + length y - 1)))
           c j Hc); [now rewrite !length_map| |exact Hj].
  intros i Hi. rewrite length_map, length_seq in Hi.
  rewrite !nth_map_seq by exact Hi. apply Hcorr.
Qed.

Lemma wsum_scaled (x x' y y' : list Q) (g h : Q) (c : Z) :
  Forall2 (fun a' a => a' == g * a) x' x ->
  (forall m, signal.at0 y' m == h * signal.at0 y m) ->
  wsum x' y' c == g * h * wsum x y c.
Proof.
  intros Hx Hy. revert c. induction Hx as [|a' a x' x Ha _ IH]; intro c; cbn [wsum].
  - ring.
  - rewrite IH, Ha, Hy. ring.
Qed.

Lemma corr_at_scaled (x x' y y' : list Q) (g h : Q) (k : nat) :
  Forall2 (fun a' a => a' == g * a) x' x ->
  (forall m, signal.at0 y' m == h * signal.at0 y m) ->
  length y' = length y ->
  signal.corr_at x' y' k == g * h * signal.corr_at x y k.
Proof.
  intros Hx Hy Hlen. rewrite !corr_at_wsum, Hlen. now apply wsum_scaled.
Qed.

Lemma nth_map_scale (h : Q) (y : list Q) (i : nat) :
  nth i (map (Qmult h) y) 0 == h * nth i y 0.
Proof.
  revert i. induction y as [|b y IH]; intros [|i]; simpl.
  - ring.
  - ring.
  - reflexivity.
  - apply IH.
Qed.

Lemma at0_map_scale (h : Q) (y : list Q) (m : Z) :
  signal.at0 (map (Qmult h) y) m == h * signal.at0 y m.
Proof.
  unfold signal.at0. destruct (m <? 0)%Z; [ring | apply nth_map_scale].
Qed.

Lemma Forall2_map_scale (g : Q) (x : list Q) :
  Forall2 (fun a' a => a' == g * a) (map (Qmult g) x) x.
Proof. induction x; simpl; constructor; [reflexivity | assumption]. Qed.

(** The scaling that [soundfile.read] applies to the stored integers has
    no effect on the lag: it is the lag against the integers themselves. *)
Theorem lag_samples_on_stored_integers (f : wav_file) (data : list Z)
    (rec_audio : list Q) :
  wav_data f = Array1 data ->
  @lag_samples E rec_audio (loaded_reference f)
  = @lag_samples E rec_audio (map inject_Z data).
Proof.
  intro Hdata.
  assert (Href : loaded_reference f = map (fun v => inject_Z v / 32768) data).
  { unfold loaded_reference, sf_read. simpl. now rewrite Hdata. }
  rewrite Href. unfold lag_samples.
  rewrite (best_index_scaled rec_audio (map inject_Z data) _ _ (1 * (1 # 32768))).
  - destruct (best_index rec_audio (map inject_Z data)); simpl; [reflexivity|].
    unfold lag_of. now rewrite !length_map.
  - reflexivity.
  - reflexivity.
  - now rewrite !length_map.
  - intro k. apply corr_at_scaled.
    + clear. induction rec_audio; constructor; [ring | assumption].
    + intro m. unfold signal.at0. destruct (m <? 0)%Z; [ring|].
      generalize (Z.to_nat m). clear. induction data as [|v data IH]; intros [|i]; simpl.
      * ring.
      * ring.
      * unfold Qdiv. change (/ 32768) with (1 # 32768). ring.
      * apply IH.
    + now rewrite !length_map.
Qed.

End LagInvariance.

Lemma lag_samples_on_stored_integers_witness :
  let f := {| wav_rate := 8000; wav_data := Array1 [16384; -8192]%Z |} in
  @aligner.lag_samples string [0; 1 # 2] (aligner.loaded_reference f)
  = @aligner.lag_samples string [0; 1 # 2] (map inject_Z [16384; -8192]%Z).
Proof.
  intro f.
  apply (lag_samples_on_stored_integers string f [16384; -8192]%Z). reflexivity.
Defined.

(* ================================================================== *)
(** * Silence around the capture *)

Section Silence.

Import aligner.
Variable E : Type.

Lemma wsum_zeros (e : nat) (y : list Q) (c : Z) : wsum (repeat 0 e) y c == 0.
Proof.
  revert c. induction e as [|e IH]; intro c; cbn [repeat wsum]; [reflexivity|].
  rewrite IH. ring.
Qed.

Lemma wsum_trailing_zeros (x y : list Q) (e : nat) (c : Z) :
  wsum (x ++ repeat 0 e) y c == wsum x y c.
Proof.
  revert c. induction x as [|a x IH]; intro c; cbn [app wsum].
  - apply wsum_zeros.
  - now rewrite IH.
Qed.

Lemma corr_at_trailing_zeros (x y : list Q) (e k : nat) :
  signal.corr_at (x ++ repeat 0 e) y k == signal.corr_at x y k.
Proof. rewrite !corr_at_wsum. apply wsum_trailing_zeros. Qed.

Lemma corr_at_leading_zero (x y : list Q) (k : nat) :
  signal.corr_at (0 :: x) y (S k) == signal.corr_at x y k.
Proof.
  rewrite !corr_at_wsum. cbn [wsum].
  replace (Z.of_nat (length y) - 1 - Z.of_nat (S k) + 1)%Z
    with (Z.of_nat (length y) - 1 - Z.of_nat k)%Z by lia.
  ring.
Qed.

Lemma corr_at_leading_zero_first (x y : list Q) :
  signal.corr_at (0 :: x) y 0 == 0.
Proof.
  rewrite corr_at_wsum. cbn [wsum].
  replace (Z.of_nat (length y) - 1 - Z.of_nat 0 + 1)%Z
    with (Z.of_nat (length y)) by lia.
  rewrite wsum_shift_right, skipn_all, dot_nil_r. ring.
Qed.

(** Beyond the last lag the sum is empty. *)
Lemma corr_at_beyond (x y : list Q) (k : nat) :
  y <> [] -> (length x + length y - 1 <= k)%nat -> signal.corr_at x y k == 0.
Proof.
  intros Hy Hk. pose proof (nonempty_length _ Hy).
  replace k with (length y - 1 + (k - (length y - 1)))%nat by lia.
  rewrite (corr_at_lead _ _ _ Hy), skipn_all2 by lia. reflexivity.
Qed.

Lemma first_max_after_zero (l l' : list Q) (j : nat) :
  length l' = S (length l) ->
  nth 0 l' 0 == 0 ->
  (forall i, nth (S i) l' 0 == nth i l 0) ->
  first_max l j -> 0 < nth j l 0 -> first_max l' (S j).
Proof.
  intros Hlen H0 HS (Hj & Hmax & Hfirst) Hpos.
  unfold first_max. rewrite Hlen. split; [lia|]. split.
  - intros [|i] Hi; rewrite (HS j).
    + rewrite H0. now apply Qlt_le_weak.
    + rewrite (HS i). apply Hmax. lia.
  - intros [|i] Hi; rewrite (HS j).
    + now rewrite H0.
    + rewrite (HS i). apply Hfirst. lia.
Qed.

Lemma first_max_before_zeros (l l' : list Q) (j : nat) :
  (length l <= length l')%nat ->
  (forall i, (i < length l)%nat -> nth i l' 0 == nth i l 0) ->
  (forall i, (length l <= i)%nat -> nth i l' 0 == 0) ->
  first_max l j -> 0 <= nth j l 0 -> first_max l' j.
Proof.
  intros Hlen Hlow Hhigh (Hj & Hmax & Hfirst) Hpos.
  unfold first_max. split; [lia|]. split.
  - intros i Hi. rewrite (Hlow j Hj).
    destruct (le_lt_dec (length l) i) as [Hge|Hlt].
    + now rewrite (Hhigh i Hge).
    + rewrite (Hlow i Hlt). now apply Hmax.
  - intros i Hi. rewrite (Hlow j Hj), (Hlow i ltac:(lia)). now apply Hfirst.
Qed.

(** One more sample of silence in front moves a positive peak by one. *)
Lemma best_index_leading_zero (rec_audio ref : list Q) (j : nat) :
  @best_index E rec_audio ref = inr j ->
  0 < signal.corr_at rec_audio ref j ->
  @best_index E (0 :: rec_audio) ref = inr (S j).
Proof.
  intros Hj Hpos.
  destruct (list_empty_dec rec_audio) as [Hx|Hx].
  { rewrite (best_index_empty E rec_audio ref (or_introl Hx)) in Hj. discriminate. }
  destruct (list_empty_dec ref) as [Hy|Hy].
  { rewrite (best_index_empty E rec_audio ref (or_intror Hy)) in Hj. discriminate. }
  pose proof (nonempty_length _ Hx). pose proof (nonempty_length _ Hy).
  apply (best_index_first_max E rec_audio ref j Hx Hy) in Hj.
  apply best_index_first_max; [discriminate | exact Hy |].
  assert (Hlt : (j < length rec_audio + length ref - 1)%nat).
  { destruct Hj as (Hlt & _). now rewrite length_map, length_seq in Hlt. }
  eapply first_max_after_zero; [ | | | exact Hj | ].
  - rewrite !length_map, !length_seq. simpl. lia.
  - rewrite nth_map_seq by (simpl; lia). apply corr_at_leading_zero_first.
  - intro i. simpl length.
    destruct (le_lt_dec (length rec_audio + length ref - 1) i) as [Hge|Hi].
    + rewrite !nth_overflow by (rewrite length_map, length_seq; lia). reflexivity.
    + rewrite !nth_map_seq by lia. apply corr_at_leading_zero.
  - now rewrite nth_map_seq by exact Hlt.
Qed.

Lemma best_index_leading_zeros (rec_audio ref : list Q) (j d : nat) :
  @best_index E rec_audio ref = inr j ->
  0 < signal.corr_at rec_audio ref j ->
  @best_index E (repeat 0 d ++ rec_audio) ref = inr (j + d)%nat
  /\ 0 < signal.corr_at (repeat 0 d ++ rec_audio) ref (j + d).
Proof.
  intros Hj Hpos. induction d as [|d (IH1 & IH2)].
  - simpl. now rewrite Nat.add_0_r.
  - cbn [repeat app]. replace (j + S d)%nat with (S (j + d)) by lia. split.
    + now apply best_index_leading_zero.
    + now rewrite corr_at_leading_zero.
Qed.

Lemma best_index_trailing_zeros (rec_audio ref : list Q) (j e : nat) :
  @best_index E rec_audio ref = inr j ->
  0 <= signal.corr_at rec_audio ref j ->
  @best_index E (rec_audio ++ repeat 0 e) ref = inr j.
Proof.
  intros Hj Hpos.
  destruct (list_empty_dec rec_audio) as [Hx|Hx].
  { rewrite (best_index_empty E rec_audio ref (or_introl Hx)) in Hj. discriminate. }
  destruct (list_empty_dec ref) as [Hy|Hy].
  { rewrite (best_index_empty E rec_audio ref (or_intror Hy)) in Hj. discriminate. }
  pose proof (nonempty_length _ Hx). pose proof (nonempty_length _ Hy).
  apply (best_index_first_max E rec_audio ref j Hx Hy) in Hj.
  assert (Hlt : (j < length rec_audio + length ref - 1)%nat).
  { destruct Hj as (Hlt & _). now rewrite length_map, length_seq in Hlt. }
  apply best_index_first_max;
    [intro Hnil; apply app_eq_nil in Hnil; tauto | exact Hy |].
  rewrite length_app, repeat_length.
  eapply first_max_before_zeros; [ | | | exact Hj | ].
  - rewrite !length_map, !length_seq. lia.
  - intros i Hi. rewrite length_map, length_seq in Hi.
    rewrite !nth_map_seq by lia. apply corr_at_trailing_zeros.
  - intros i Hi. rewrite length_map, length_seq in Hi.
    destruct (le_lt_dec (length rec_audio + e + length ref - 1) i) as [Hge|Hin].
    + rewrite nth_overflow by (rewrite length_map, length_seq; lia). reflexivity.
    + rewrite nth_map_seq by lia.
      rewrite corr_at_trailing_zeros. now apply corr_at_beyond.
  - now rewrite nth_map_seq by exact Hlt.
Qed.

Lemma repeat_snoc_app (n : nat) (l : list Q) :
  repeat 0 n ++ 0 :: l = repeat 0 (S n) ++ l.
Proof.
  change (0 :: l) with ([0] ++ l). rewrite app_assoc.
  change [0] with (repeat 0 1). rewrite <- repeat_app.
  now replace (n + 1)%nat with (S n) by lia.
Qed.

(** The resynchronized buffer does not change when [d] zeros are put in
    front of the capture and the lag grows by [d]. *)
Lemma resync_leading_zeros (rec_audio : list Q) (lag : Z) (d : nat) :
  resync (repeat 0 d ++ rec_audio) (lag + Z.of_nat d) = resync rec_audio lag.
Proof.
  unfold resync, slice_from, pad_front.
  destruct (Z.ltb_spec 0 (lag + Z.of_nat d)) as [Hpos|Hneg];
    destruct (Z.ltb_spec 0 lag) as [Hl|Hl]; try lia.
  - rewrite skipn_padded.
    replace (d - Z.to_nat (lag + Z.of_nat d))%nat with 0%nat by lia.
    replace (Z.to_nat (lag + Z.of_nat d) - d)%nat with (Z.to_nat lag) by lia.
    reflexivity.
  - rewrite skipn_padded.
    replace (d - Z.to_nat (lag + Z.of_nat d))%nat with (Z.to_nat (Z.abs lag)) by lia.
    replace (Z.to_nat (lag + Z.of_nat d) - d)%nat with 0%nat by lia.
    reflexivity.
  - rewrite app_assoc, <- repeat_app. f_equal. f_equal. lia.
Qed.

(** Silence in front of the capture: when the correlation peak is
    positive, [d] zeros in front of the capture raise the lag by [d] and
    leave the aligned buffer as it was. *)
Theorem align_audio_leading_silence
    (f : wav_file) (rec_audio aligned : list Q) (best d : nat) (offset_sec : Q) :
  @best_index E rec_audio (loaded_reference f) = inr best ->
  0 < signal.corr_at rec_audio (loaded_reference f) best ->
  @align_audio E f rec_audio (wav_rate f) = inr (aligned, offset_sec) ->
  @lag_samples E (repeat 0 d ++ rec_audio) (loaded_reference f)
  = inr (lag_of best (loaded_reference f) + Z.of_nat d)%Z
  /\ @align_audio E f (repeat 0 d ++ rec_audio) (wav_rate f)
     = inr (aligned,
            inject_Z (lag_of best (loaded_reference f) + Z.of_nat d)
            / inject_Z (wav_rate f)).
Proof.
  intros Hb Hpos Ha.
  destruct (best_index_leading_zeros rec_audio _ best d Hb Hpos) as (Hb' & _).
  rewrite (align_audio_with_best E f rec_audio best Hb) in Ha.
  injection Ha as <- <-.
  assert (Hlag : lag_of (best + d) (loaded_reference f)
                 = (lag_of best (loaded_reference f) + Z.of_nat d)%Z)
    by (unfold lag_of; lia).
  split.
  - unfold lag_samples. rewrite Hb'. simpl. now rewrite Hlag.
  - rewrite (align_audio_with_best E f _ _ Hb'), Hlag, resync_leading_zeros.
    reflexivity.
Qed.

(** Silence after the capture: when the correlation peak is not
    negative, zeros after the capture leave the lag as it was. *)
Theorem lag_samples_trailing_silence (rec_audio ref : list Q) (best e : nat) :
  @best_index E rec_audio ref = inr best ->
  0 <= signal.corr_at rec_audio ref best ->
  @lag_samples E (rec_audio ++ repeat 0 e) ref = @lag_samples E rec_audio ref.
Proof.
  intros Hb Hpos. unfold lag_samples.
  now rewrite (best_index_trailing_zeros rec_audio ref best e Hb Hpos), Hb.
Qed.

Lemma dot_self_pos (x : list Q) : nonzero x -> 0 < dot x x.
Proof.
  intros (i & Hi). destruct (Qlt_le_dec 0 (dot x x)) as [H|H]; [exact H|].
  exfalso. apply Hi. now apply dot_self_zero.
Qed.

(** A reference with a non-zero sample that sits in the capture between
    [d] zeros and [e] zeros is found at lag [d], and the aligned buffer
    is the reference itself. *)
Theorem align_audio_reference_in_silence (f : wav_file) (d e : nat) :
  nonzero (loaded_reference f) ->
  let ref := loaded_reference f in
  @align_audio E f (repeat 0 d ++ ref ++ repeat 0 e) (wav_rate f)
  = inr (ref, inject_Z (Z.of_nat d) / inject_Z (wav_rate f)).
Proof.
  intros Hnz ref.
  pose proof (nonzero_nonempty _ Hnz) as Hne.
  pose proof (nonempty_length _ Hne) as Hlen. fold ref in Hlen.
  pose proof (best_index_padded E 0 ref Hnz) as H0. cbn [repeat app] in H0.
  rewrite Nat.add_0_r in H0.
  assert (Hpeak : 0 < signal.corr_at ref ref (length ref - 1)).
  { pose proof (corr_padded_peak 0 ref Hne) as Hp. cbn [repeat app] in Hp.
    rewrite Nat.add_0_r in Hp. rewrite Hp. now apply dot_self_pos. }
  pose proof (best_index_trailing_zeros ref ref _ e H0 (Qlt_le_weak _ _ Hpeak)) as H1.
  assert (Hpeak1 : 0 < signal.corr_at (ref ++ repeat 0 e) ref (length ref - 1))
    by now rewrite corr_at_trailing_zeros.
  destruct (best_index_leading_zeros _ _ _ d H1 Hpeak1) as (H2 & _).
  rewrite (align_audio_with_best E f _ _ H2). fold ref.
  replace (lag_of (length ref - 1 + d) ref) with (0 + Z.of_nat d)%Z
    by (unfold lag_of; lia).
  rewrite resync_leading_zeros. cbn [Z.add]. f_equal. f_equal.
  unfold resync, pad_front. cbn. unfold truncate, slice_to.
  rewrite length_app, Nat.min_r by lia.
  rewrite firstn_app, Nat.sub_diag, firstn_all. cbn. apply app_nil_r.
Qed.

End Silence.

Lemma align_audio_leading_silence_witness :
  let f := {| wav_rate := 8000; wav_data := Array1 [16384; 8192]%Z |} in
  @aligner.lag_samples string (repeat 0 2 ++ [0; 1 # 2; 1 # 4]) (aligner.loaded_reference f)
  = inr 3%Z.
Proof.
  intro f.
  destruct (align_audio_leading_silence string f [0; 1 # 2; 1 # 4] [1 # 2; 1 # 4]
              2 2 (1 # 8000)) as (H & _).
  - vm_compute. reflexivity.
  - vm_compute. reflexivity.
  - vm_compute. reflexivity.
  - exact H.
Defined.

Lemma lag_samples_trailing_silence_witness :
  @aligner.lag_samples string ([0; 1; 2] ++ repeat 0 4) [1; 2]
  = @aligner.lag_samples string [0; 1; 2] [1; 2].
Proof.
  apply (lag_samples_trailing_silence string [0; 1; 2] [1; 2] 2 4).
  - vm_compute. reflexivity.
  - vm_compute. discriminate.
Defined.

Lemma align_audio_reference_in_silence_witness :
  let f := {| wav_rate := 8000; wav_data := Array1 [16384; -8192]%Z |} in
  @aligner.align_audio string f
     (repeat 0 2 ++ aligner.loaded_reference f ++ repeat 0 3) 8000
  = inr (aligner.loaded_reference f, inject_Z 2 / inject_Z 8000).
Proof.
  intro f.
  apply (align_audio_reference_in_silence string f 2 3).
  exists 0%nat. vm_compute. discriminate.
Defined.

(* ================================================================== *)
(** * Further properties of the voice trigger *)

Lemma peak_error (E : Type) (chunk : list Q) (e : exn E) :
  @trigger.peak E chunk = inl e <-> chunk = [] /\ e = ValueError ve_empty_array.
Proof.
  destruct chunk as [|c chunk].
  - cbn. split; [intro H; injection H as <-; auto | intros (_ & ->); reflexivity].
  - cbn. split; [discriminate | intros (H & _); discriminate].
Qed.

Lemma wait_waiting_inv (E : Type) (threshold : Q) (dev : trigger.device) (n : nat) :
  @trigger.wait_for_voice E threshold n dev = trigger.Waiting ->
  Forall (quiet E threshold) dev.
Proof.
  revert n. induction dev as [|c dev IH]; intros n H; [constructor|].
  simpl in H. destruct (@trigger.peak E c) as [e|p] eqn:Hp; [discriminate|].
  destruct (Qltb threshold p) eqn:Hc; [discriminate|].
  constructor; [|now apply IH with (S n)].
  exists p. split; [exact Hp | now apply Qltb_ge].
Qed.

(** The wait is still running after the frames read so far exactly when
    every one of them is quiet. *)
Theorem wait_for_voice_still_waiting (E : Type) (threshold : Q) (dev : trigger.device) :
  @trigger.wait_for_voice E threshold 0 dev = trigger.Waiting
  <-> Forall (quiet E threshold) dev.
Proof.
  split; [apply wait_waiting_inv|].
  intro H. rewrite <- (app_nil_r dev).
  now rewrite (wait_skips_quiet E threshold dev 0 [] H).
Qed.

(** Frames whose samples all stay within the threshold in absolute value
    never end the wait; this is the case of a threshold of 1.0 or more on
    samples in [[-1, 1]]. *)
Theorem wait_for_voice_never_triggers (E : Type) (threshold : Q) (dev : trigger.device) :
  (forall chunk, In chunk dev ->
     chunk <> [] /\ forall c, In c chunk -> Qabs c <= threshold) ->
  @trigger.wait_for_voice E threshold 0 dev = trigger.Waiting.
Proof.
  intro H. apply wait_for_voice_still_waiting. apply Forall_forall.
  intros chunk Hin. destruct (H chunk Hin) as (Hne & Hb).
  destruct (peak_defined E chunk Hne) as (p & Hp).
  exists p. split; [exact Hp|].
  destruct (peak_in E chunk p Hp) as (c & Hc & ->). now apply Hb.
Qed.

Lemma wait_for_voice_never_triggers_witness :
  @trigger.wait_for_voice string 1 0 [[1 # 2; -1]; [0]; [1; 1 # 3]] = trigger.Waiting.
Proof.
  apply (wait_for_voice_never_triggers string 1).
  intros chunk Hin. split.
  - simpl in Hin. intuition (subst; discriminate).
  - intros c Hc. simpl in Hin.
    assert (Hall : Forall (fun c => Qabs c <= 1) chunk).
    { intuition subst; repeat constructor; discriminate. }
    rewrite Forall_forall in Hall. now apply Hall.
Defined.

(** The wait fails exactly when an empty frame is read before any frame
    that exceeds the threshold of the comparison, and then with numpy's
    error on a zero-size array. *)
Theorem wait_for_voice_raises (E : Type) (p : fp.promotion) (threshold : Q)
    (dev : trigger.device) (e : exn E) :
  @fp.wait_for_voice E p threshold 0 dev = trigger.Raised e
  <-> e = ValueError ve_empty_array
      /\ exists pre rest,
           dev = pre ++ [] :: rest
           /\ Forall (quiet E (fp.compared p threshold)) pre.
Proof.
  unfold fp.wait_for_voice. set (t := fp.compared p threshold).
  split.
  - generalize 0%nat. induction dev as [|c dev IH]; intros n H; [discriminate|].
    simpl in H. destruct (@trigger.peak E c) as [e'|q] eqn:Hq.
    + injection H as <-. apply peak_error in Hq. destruct Hq as (-> & ->).
      split; [reflexivity|]. exists [], dev. split; [reflexivity | constructor].
    + destruct (Qltb t q) eqn:Hc; [discriminate|].
      destruct (IH _ H) as (He & pre & rest & -> & Hpre).
      split; [exact He|]. exists (c :: pre), rest. split; [reflexivity|].
      constructor; [|exact Hpre]. exists q. split; [exact Hq | now apply Qltb_ge].
  - intros (-> & pre & rest & -> & Hpre).
    now rewrite (wait_skips_quiet E t pre 0 _ Hpre).
Qed.

(** Threshold 0.1 under NumPy 2: the frame that peaks at the float32
    nearest to 0.1 is passed over, and the empty frame after it fails. *)
Lemma wait_for_voice_raises_witness :
  @fp.wait_for_voice string fp.numpy2 (1 # 10) 0 [[13421773 # 134217728]; []; [1]]
  = trigger.Raised (ValueError ve_empty_array).
Proof.
  apply (wait_for_voice_raises string fp.numpy2 (1 # 10)).
  split; [reflexivity|].
  exists [[13421773 # 134217728]], [[1]]. split; [reflexivity|].
  constructor; [|constructor].
  exists (13421773 # 134217728). split; [reflexivity|].
  vm_compute. discriminate.
Defined.

(** The frame that ends the wait is not part of the recording: the
    recording is the read that follows it. *)
Theorem record_skips_trigger_frame
    (E : Type) (p : fp.promotion) (threshold : Q) (pre : trigger.device)
    (chunk audio : list Q) (rest : trigger.device) :
  Forall (quiet E (fp.compared p threshold)) pre ->
  loud E (fp.compared p threshold) chunk ->
  @fp.record_with_voice_trigger E p threshold (pre ++ chunk :: audio :: rest)
  = (trigger.Triggered (length pre) rest, Some audio).
Proof.
  intros Hq Hl.
  unfold fp.record_with_voice_trigger, trigger.record_with_voice_trigger.
  now rewrite (wait_triggers E _ pre chunk (audio :: rest) 0 Hq Hl).
Qed.

(** Threshold 0.1 under NumPy 2: the frame at the float32 nearest to 0.1
    does not trigger, the next one does, and the third is the recording. *)
Lemma record_skips_trigger_frame_witness :
  @fp.record_with_voice_trigger string fp.numpy2 (1 # 10)
     ([[13421773 # 134217728]] ++ [1 # 4] :: [1 # 8] :: [])
  = (trigger.Triggered 1 [], Some [1 # 8]).
Proof.
  apply (record_skips_trigger_frame string fp.numpy2 (1 # 10)
           [[13421773 # 134217728]]).
  - constructor; [|constructor].
    exists (13421773 # 134217728). split; [reflexivity|].
    vm_compute. discriminate.
  - exists (1 # 4). split; [reflexivity|]. vm_compute. reflexivity.
Defined.

(* ================================================================== *)
(** * Further properties of the quantization *)

Lemma trunc_opp (q : Q) : trunc (- q) = (- trunc q)%Z.
Proof.
  destruct q as [n p]. unfold trunc. simpl. apply Z.quot_opp_l. lia.
Qed.

(** Quantization is odd on [[-1, 1]]: a sample and its opposite give
    opposite integers. *)
Theorem quantize_odd (x : Q) :
  -1 <= x <= 1 -> scorer.quantize (- x) = (- scorer.quantize x)%Z.
Proof.
  intro Hx.
  destruct (quantize_in_range x Hx) as (Hq & _).
  destruct (quantize_in_range (- x)) as (Hq' & _); [lra|].
  rewrite Hq, Hq', <- trunc_opp. apply trunc_Qeq. ring.
Qed.

Lemma quantize_odd_witness :
  scorer.quantize (- (7 # 10)) = (- scorer.quantize (7 # 10))%Z.
Proof.
  apply (quantize_odd (7 # 10)). split; discriminate.
Defined.

(** Quantization keeps the order of samples in [[-1, 1]]. *)
Theorem quantize_monotone (x y : Q) :
  -1 <= x -> x <= y -> y <= 1 -> (scorer.quantize x <= scorer.quantize y)%Z.
Proof.
  intros Hlo Hxy Hhi.
  destruct (quantize_in_range x) as (Hqx & _); [lra|].
  destruct (quantize_in_range y) as (Hqy & _); [lra|].
  rewrite Hqx, Hqy. apply trunc_mono. lra.
Qed.

Lemma quantize_monotone_witness :
  (scorer.quantize (- (1 # 3)) <= scorer.quantize (7 # 10))%Z.
Proof.
  apply (quantize_monotone (- (1 # 3)) (7 # 10)); discriminate.
Defined.

Lemma trunc_loaded_sample (v : Z) :
  (-32768 <= v <= 32767)%Z ->
  trunc (inject_Z v / 32768 * 32767) = (v - Z.sgn v)%Z.
Proof.
  intro Hv. unfold trunc. cbn.
  pose proof (Z.quot_rem' (v * 1 * 32767) 32768) as Hqr.
  destruct (Z.lt_trichotomy v 0) as [Hneg|[->|Hpos]].
  - pose proof (Z.rem_bound_pos (- (v * 1 * 32767)) 32768 ltac:(lia) ltac:(lia)) as Hr.
    rewrite Z.rem_opp_l in Hr by lia.
    rewrite (Z.sgn_neg v Hneg). lia.
  - reflexivity.
  - pose proof (Z.rem_bound_pos (v * 1 * 32767) 32768 ltac:(lia) ltac:(lia)) as Hr.
    rewrite (Z.sgn_pos v Hpos). lia.
Qed.

Lemma toward_zero_in_range (v : Z) :
  (-32768 <= v <= 32767)%Z -> (-32768 <= v - Z.sgn v <= 32767)%Z.
Proof.
  intro Hv. destruct (Z.lt_trichotomy v 0) as [Hneg|[->|Hpos]].
  - rewrite (Z.sgn_neg v Hneg). lia.
  - simpl. lia.
  - rewrite (Z.sgn_pos v Hpos). lia.
Qed.

(** A stored 16-bit sample that is read by [soundfile.read] (division by
    32768) and quantized again (multiplication by 32767, fraction
    discarded) comes back one step nearer to zero, and zero stays zero. *)
Theorem quantize_loaded_sample (v : Z) :
  (-32768 <= v <= 32767)%Z ->
  scorer.quantize (inject_Z v / 32768) = (v - Z.sgn v)%Z.
Proof.
  intro Hv. unfold scorer.quantize.
  pose proof (toward_zero_in_range v Hv) as Hr.
  rewrite astype_int16_small; rewrite (trunc_loaded_sample v Hv); [reflexivity | lia].
Qed.

Lemma quantize_loaded_sample_witness :
  scorer.quantize (inject_Z (-32768) / 32768) = (-32767)%Z.
Proof.
  apply (quantize_loaded_sample (-32768)). lia.
Defined.

(** A mono reference aligned against itself and handed to scoring: the
    oracle receives the stored integers as reference and, as degraded
    signal, the same integers each moved one step toward zero. *)
Theorem self_scoring_is_not_identical (E : Type) (f : wav_file) (data : list Z) :
  wav_data f = Array1 data ->
  Forall (fun v => (-32768 <= v <= 32767)%Z) data ->
  nonzero (aligner.loaded_reference f) ->
  exists aligned offset_sec,
    @aligner.align_audio E f (aligner.loaded_reference f) (wav_rate f)
    = inr (aligned, offset_sec)
    /\ @scorer.prepare E f aligned (wav_rate f)
       = inr {| scorer.call_fs := wav_rate f;
                scorer.call_ref := Array1 data;
                scorer.call_deg := map (fun v => (v - Z.sgn v)%Z) data;
                scorer.call_mode :=
                  if (wav_rate f =? 8000)%Z then scorer.nb else scorer.wb |}.
Proof.
  intros Hdata Hrange Hnz.
  exists (aligner.loaded_reference f), (aligner.offset_of 0 (wav_rate f)).
  split; [apply (align_audio_padded E f 0 Hnz)|].
  rewrite prepare_passes_reference, Hdata. do 2 f_equal.
  unfold aligner.loaded_reference, sf_read. simpl. rewrite Hdata. simpl.
  rewrite map_map. apply map_ext_in. intros v Hin.
  rewrite Forall_forall in Hrange. specialize (Hrange v Hin).
  unfold scorer.quantize.
  pose proof (toward_zero_in_range v Hrange) as Hr.
  rewrite astype_int16_small; rewrite (trunc_loaded_sample v Hrange); [reflexivity | lia].
Qed.

Lemma self_scoring_is_not_identical_witness :
  let f := {| wav_rate := 8000; wav_data := Array1 [16384; -8192; 0]%Z |} in
  exists aligned offset_sec call,
    @aligner.align_audio string f (aligner.loaded_reference f) 8000
    = inr (aligned, offset_sec)
    /\ @scorer.prepare string f aligned 8000 = inr call
    /\ scorer.call_deg call = [16383; -8191; 0]%Z.
Proof.
  intro f.
  destruct (self_scoring_is_not_identical string f [16384; -8192; 0]%Z)
    as (aligned & offset_sec & Ha & Hp).
  - reflexivity.
  - repeat constructor; discriminate.
  - exists 0%nat. vm_compute. discriminate.
  - exists aligned, offset_sec. eexists. split; [exact Ha|].
    split; [exact Hp | reflexivity].
Defined.

(* ================================================================== *)
(** * Exact arithmetic and floating point *)

(** In double precision, the format of the samples [soundfile.read]
    returns, the product of a loaded 16-bit sample with 32767 is a number
    of the format: the conversion rounds nothing, and the sample comes
    back one step nearer to zero. *)
Theorem quantize_double_loaded_sample (v : Z) :
  (-32768 <= v <= 32767)%Z ->
  fl.representable fl.binary64 (inject_Z v / 32768 * 32767)
  /\ fp.quantize fl.binary64 (inject_Z v / 32768) = (v - Z.sgn v)%Z.
Proof.
  intro Hv.
  assert (Hrep : fl.representable fl.binary64 (inject_Z v / 32768 * 32767)).
  { exists (v * 32767)%Z, (-15)%Z. split; [|split].
    - rewrite inject_Z_mult.
      assert (Hp : fl.pow2 (-15) == 1 # 32768) by reflexivity.
      rewrite Hp. change (inject_Z 32767) with 32767. field.
    - simpl. lia.
    - simpl. lia. }
  split; [exact Hrep|].
  rewrite (quantize_exact_product fl.binary64 _ eq_refl Hrep).
  unfold scorer.quantize.
  pose proof (toward_zero_in_range v Hv) as Hr.
  rewrite astype_int16_small; rewrite (trunc_loaded_sample v Hv); [reflexivity | lia].
Qed.

Lemma quantize_double_loaded_sample_witness :
  fl.representable fl.binary64 (inject_Z 32767 / 32768 * 32767)
  /\ fp.quantize fl.binary64 (inject_Z 32767 / 32768) = 32766%Z.
Proof.
  apply (quantize_double_loaded_sample 32767). lia.
Defined.

(** The rounding of the product decides the integer: the float32 sample
    [32769 / 2^30] times 32767 is just below 1; single precision rounds
    the product to 1.0, which converts to 1, double precision keeps it,
    and it converts to 0. *)
Theorem quantize_depends_on_format :
  fl.representable fl.binary32 (32769 # 1073741824)
  /\ (32769 # 1073741824) * 32767 < 1
  /\ fl.round fl.binary32 ((32769 # 1073741824) * 32767) == 1
  /\ fp.quantize fl.binary32 (32769 # 1073741824) = 1%Z
  /\ fp.quantize fl.binary64 (32769 # 1073741824) = 0%Z.
Proof.
  split.
  { exists 32769%Z, (-30)%Z. split; [reflexivity | split; simpl; lia]. }
  split; [reflexivity|].
  split; [vm_compute; reflexivity|].
  split; vm_compute; reflexivity.
Qed.

(** With a correlation routine that returns the exact values, the
    floating-point aligner returns the buffer of the exact one, and its
    offset rounded to double precision. *)
Lemma align_audio_exact_routine
    (E : Type) (f : wav_file) (rec_audio : list Q) (sr : Z) :
  fp.align_audio E signal.correlate f rec_audio sr
  = match @aligner.align_audio E f rec_audio sr with
    | inl e => inl e
    | inr (aligned, offset_sec) => inr (aligned, fl.round fl.binary64 offset_sec)
    end.
Proof.
  rewrite align_audio_loaded.
  change (fp.align_audio E signal.correlate f rec_audio sr)
    with (fp.align_loaded E signal.correlate (fst (sf_read f)) (wav_rate f)
            rec_audio sr).
  unfold fp.align_loaded, aligner.align_loaded.
  destruct (negb (wav_rate f =? sr)%Z); [reflexivity|].
  change (fp.lag_samples E signal.correlate rec_audio
            (aligner.to_mono (fst (sf_read f))))
    with (@aligner.lag_samples E rec_audio (aligner.to_mono (fst (sf_read f)))).
  destruct (@aligner.lag_samples E rec_audio (aligner.to_mono (fst (sf_read f))))
    as [e|lag]; reflexivity.
Qed.

(* ================================================================== *)
(** * Numbers in file names *)

Section Names.

Import naming names.
Open Scope string_scope.

Lemma append_assoc (a b c : string) : (a ++ b) ++ c = a ++ (b ++ c).
Proof. induction a as [|x a IH]; simpl; [reflexivity | now rewrite IH]. Qed.

Lemma length_append (a b : string) :
  String.length (a ++ b) = (String.length a + String.length b)%nat.
Proof. induction a as [|x a IH]; simpl; [reflexivity | now rewrite IH]. Qed.

Lemma append_inv_head (a b c : string) : a ++ b = a ++ c -> b = c.
Proof.
  induction a as [|x a IH]; simpl; intro H; [exact H|].
  injection H as H. now apply IH.
Qed.

Lemma plain_app (a b : string) : plain (a ++ b) = plain a && plain b.
Proof.
  induction a as [|x a IH]; simpl; [reflexivity|].
  now rewrite IH, andb_assoc.
Qed.

Lemma digit_cases (d : Z) :
  (0 <= d <= 9)%Z ->
  d = 0%Z \/ d = 1%Z \/ d = 2%Z \/ d = 3%Z \/ d = 4%Z
  \/ d = 5%Z \/ d = 6%Z \/ d = 7%Z \/ d = 8%Z \/ d = 9%Z.
Proof. lia. Qed.

Ltac by_digit H :=
  apply digit_cases in H;
  repeat (destruct H as [H|H]; [subst; reflexivity|]); subst; reflexivity.

Lemma digits_step (a : Z) (seen : bool) (d : Z) (s : string) :
  (0 <= d <= 9)%Z ->
  digits a seen (String (digit_char d) s) = digits (10 * a + d)%Z true s.
Proof. intro H. by_digit H. Qed.

Lemma digit_char_plain (d : Z) : (0 <= d <= 9)%Z -> plain_char (digit_char d) = true.
Proof. intro H. by_digit H. Qed.

Lemma int_digit_head (d : Z) (rest : string) :
  (0 <= d <= 9)%Z ->
  int (String (digit_char d) rest) = digits 0 false (String (digit_char d) rest).
Proof. intro H. by_digit H. Qed.

Lemma mod10_digit (n : Z) : (0 <= n mod 10 <= 9)%Z.
Proof. pose proof (Z.mod_pos_bound n 10 ltac:(lia)). lia. Qed.

Lemma decimal_S (f : nat) (n : Z) (acc : string) :
  decimal (S f) n acc
  = if (n <? 10)%Z then String (digit_char (n mod 10)) acc
    else decimal f (n / 10) (String (digit_char (n mod 10)) acc).
Proof. reflexivity. Qed.

Lemma decimal_parse (f : nat) (n : Z) (acc : string) :
  (0 <= n < 2 ^ Z.of_nat (S f))%Z ->
  digits 0 false (decimal (S f) n acc) = digits n true acc.
Proof.
  revert n acc. induction f as [|f IH]; intros n acc Hn.
  - change (2 ^ Z.of_nat 1)%Z with 2%Z in Hn. rewrite decimal_S.
    destruct (Z.ltb_spec n 10) as [_|Hge]; [|lia].
    rewrite digits_step by apply mod10_digit.
    f_equal. rewrite Z.mod_small; lia.
  - rewrite (decimal_S (S f)).
    destruct (Z.ltb_spec n 10) as [Hlt|Hge].
    + rewrite digits_step by apply mod10_digit.
      f_equal. rewrite Z.mod_small; lia.
    + rewrite IH.
      * rewrite digits_step by apply mod10_digit.
        f_equal. pose proof (Z.div_mod n 10 ltac:(lia)). lia.
      * rewrite Nat2Z.inj_succ, Z.pow_succ_r in Hn by lia.
        split; [apply Z.div_pos; lia|].
        apply Z.div_lt_upper_bound; lia.
Qed.

Lemma decimal_head (f : nat) (n : Z) (acc : string) :
  exists d rest, (0 <= d <= 9)%Z /\ decimal (S f) n acc = String (digit_char d) rest.
Proof.
  revert n acc. induction f as [|f IH]; intros n acc.
  - rewrite decimal_S. exists (n mod 10)%Z, acc. split; [apply mod10_digit|].
    now destruct (n <? 10)%Z.
  - rewrite (decimal_S (S f)). destruct (n <? 10)%Z.
    + exists (n mod 10)%Z, acc. split; [apply mod10_digit | reflexivity].
    + apply IH.
Qed.

Lemma decimal_plain (f : nat) (n : Z) (acc : string) :
  plain acc = true -> plain (decimal f n acc) = true.
Proof.
  revert n acc. induction f as [|f IH]; intros n acc Hacc; [exact Hacc|].
  rewrite decimal_S.
  assert (Hp : plain (String (digit_char (n mod 10)) acc) = true).
  { cbn [plain]. now rewrite digit_char_plain, Hacc by apply mod10_digit. }
  destruct (n <? 10)%Z; [exact Hp | now apply IH].
Qed.

Lemma digits_fuel_enough (n : Z) :
  (0 <= n)%Z -> (0 <= n < 2 ^ Z.of_nat (digits_fuel n))%Z.
Proof.
  intro Hn. split; [exact Hn|]. unfold digits_fuel.
  rewrite Nat2Z.inj_succ, Z2Nat.id by apply Z.log2_nonneg.
  destruct (Z.eq_dec n 0) as [->|Hne]; [reflexivity|].
  apply Z.log2_spec. lia.
Qed.

(** [int(str(n)) == n] *)
Lemma int_str (n : Z) : int (str n) = Some n.
Proof.
  unfold str. destruct (Z.ltb_spec n 0) as [Hneg|Hpos].
  - change (int (String "-" (decimal (digits_fuel (- n)) (- n) "")))
      with (option_map Z.opp (digits 0 false (decimal (digits_fuel (- n)) (- n) ""))).
    unfold digits_fuel at 1.
    rewrite decimal_parse by (apply digits_fuel_enough; lia).
    simpl. f_equal. lia.
  - unfold digits_fuel at 1.
    destruct (decimal_head (Z.to_nat (Z.log2 n)) n "") as (d & rest & Hd & Heq).
    rewrite Heq, (int_digit_head d rest Hd), <- Heq.
    rewrite decimal_parse by (apply digits_fuel_enough; lia).
    reflexivity.
Qed.

Lemma str_plain (n : Z) : plain (str n) = true.
Proof.
  unfold str. destruct (n <? 0)%Z.
  - cbn [plain]. rewrite decimal_plain by reflexivity. reflexivity.
  - now apply decimal_plain.
Qed.

Lemma plain_char_not_D (c : ascii) : plain_char c = true -> Ascii.eqb "D" c = false.
Proof.
  unfold plain_char. rewrite !andb_true_iff, !negb_true_iff.
  intros ((H & _) & _). now rewrite Ascii.eqb_sym.
Qed.

Lemma plain_char_not_underscore (c : ascii) :
  plain_char c = true -> Ascii.eqb c "_" = false.
Proof.
  unfold plain_char. rewrite !andb_true_iff, !negb_true_iff. tauto.
Qed.

Lemma plain_char_not_dot (c : ascii) : plain_char c = true -> Ascii.eqb c "." = false.
Proof.
  unfold plain_char. rewrite !andb_true_iff, !negb_true_iff. tauto.
Qed.

Lemma remove_all_plain (ds rest : string) (k : nat) :
  plain ds = true ->
  remove_all (String.length ds + k) "Degraded_" (ds ++ rest)
  = ds ++ remove_all k "Degraded_" rest.
Proof.
  induction ds as [|c ds IH]; intro Hp; [reflexivity|].
  cbn [plain] in Hp. apply andb_true_iff in Hp. destruct Hp as (Hc & Hp).
  cbn [String.length Nat.add append remove_all strip_prefix].
  rewrite (plain_char_not_D c Hc). now rewrite IH.
Qed.

Lemma split_head_plain_underscore (ds t : string) :
  plain ds = true -> split_head "_" (ds ++ String "_" t) = ds.
Proof.
  induction ds as [|c ds IH]; intro Hp; [reflexivity|].
  cbn [plain] in Hp. apply andb_true_iff in Hp. destruct Hp as (Hc & Hp).
  cbn [append split_head]. rewrite (plain_char_not_underscore c Hc). now rewrite IH.
Qed.

Lemma split_head_plain_dot (ds t : string) :
  plain ds = true -> split_head "." (ds ++ String "." t) = ds.
Proof.
  induction ds as [|c ds IH]; intro Hp; [reflexivity|].
  cbn [plain] in Hp. apply andb_true_iff in Hp. destruct Hp as (Hc & Hp).
  cbn [append split_head]. rewrite (plain_char_not_dot c Hc). now rewrite IH.
Qed.

Lemma split_head_plain_past_dot (ds t : string) :
  plain ds = true ->
  split_head "_" (ds ++ String "." t) = ds ++ String "." (split_head "_" t).
Proof.
  induction ds as [|c ds IH]; intro Hp; [reflexivity|].
  cbn [plain] in Hp. apply andb_true_iff in Hp. destruct Hp as (Hc & Hp).
  cbn [append split_head]. rewrite (plain_char_not_underscore c Hc). now rewrite IH.
Qed.

Lemma split_head_plain_whole (ds : string) :
  plain ds = true -> split_head "." ds = ds.
Proof.
  induction ds as [|c ds IH]; intro Hp; [reflexivity|].
  cbn [plain] in Hp. apply andb_true_iff in Hp. destruct Hp as (Hc & Hp).
  cbn [split_head]. rewrite (plain_char_not_dot c Hc). now rewrite IH.
Qed.

Lemma strip_prefix_append (p s : string) : strip_prefix p (p ++ s) = Some s.
Proof.
  induction p as [|a p IH]; [reflexivity|].
  cbn [append strip_prefix]. now rewrite Ascii.eqb_refl.
Qed.

Lemma remove_all_S (k : nat) (old s : string) :
  remove_all (S k) old s
  = match strip_prefix old s with
    | Some rest => remove_all k old rest
    | None =>
        match s with
        | EmptyString => EmptyString
        | String c s' => String c (remove_all k old s')
        end
    end.
Proof. reflexivity. Qed.

Lemma remove_all_separator (k : nat) (c : ascii) (t : string) :
  c = "."%char \/ c = "_"%char ->
  remove_all (S k) "Degraded_" (String c t) = String c (remove_all k "Degraded_" t).
Proof. intros [-> | ->]; reflexivity. Qed.

(** The string handed to [int] for a name ["Degraded_" + ds + c + t]
    where [c] is ["."] or ["_"] and [ds] has none of ["D"], ["_"],
    ["."]. *)
Lemma num_str_written (ds t : string) (c : ascii) :
  plain ds = true -> c = "."%char \/ c = "_"%char ->
  num_str ("Degraded_" ++ ds ++ String c t) = ds.
Proof.
  intros Hp Hc. unfold num_str, replace_with_empty.
  assert (Hlen : String.length ("Degraded_" ++ ds ++ String c t)
                 = S (String.length ds + S (7 + S (String.length t)))).
  { rewrite !length_append. change (String.length "Degraded_") with 9%nat.
    cbn [String.length]. lia. }
  rewrite Hlen, remove_all_S, strip_prefix_append.
  rewrite (remove_all_plain ds (String c t) _ Hp).
  rewrite (remove_all_separator _ c t Hc).
  destruct Hc as [-> | ->].
  - now rewrite split_head_plain_past_dot, split_head_plain_dot.
  - now rewrite split_head_plain_underscore, split_head_plain_whole.
Qed.

Lemma ends_with_append (suffix a b : string) :
  ends_with suffix b = true -> ends_with suffix (a ++ b) = true.
Proof.
  intro H. induction a as [|c a IH]; [exact H|].
  cbn [append ends_with]. now destruct (suffix =? String c (a ++ b)).
Qed.

Lemma written_name_matches (ds tail : string) :
  ends_with ".wav" tail = true ->
  matches_pattern ("Degraded_" ++ ds ++ tail) = true.
Proof.
  intro Hend. unfold matches_pattern. rewrite strip_prefix_append.
  now apply ends_with_append.
Qed.

Lemma written_name_file_number (n : Z) (c : ascii) (t : string) :
  c = "."%char \/ c = "_"%char ->
  file_number ("Degraded_" ++ str n ++ String c t) = Some n.
Proof.
  intro Hc. unfold file_number.
  rewrite (num_str_written (str n) t c (str_plain n) Hc). apply int_str.
Qed.

(** A name ["Degraded_" + str(n) + tail] whose tail starts with ["."] or
    ["_"] and ends with [".wav"] is found by the scan, which reads the
    number [n] from it. *)
Theorem written_name_is_read_back (n : Z) (c : ascii) (t : string) :
  c = "."%char \/ c = "_"%char ->
  ends_with ".wav" (String c t) = true ->
  matches_pattern ("Degraded_" ++ str n ++ String c t) = true
  /\ file_number ("Degraded_" ++ str n ++ String c t) = Some n.
Proof.
  intros Hc Hend. split.
  - unfold matches_pattern. cbn [append strip_prefix Ascii.eqb Bool.eqb].
    now apply ends_with_append.
  - unfold file_number. rewrite (num_str_written (str n) t c (str_plain n) Hc).
    apply int_str.
Qed.

End Names.

Lemma written_name_is_read_back_witness :
  naming.file_number ("Degraded_" ++ names.str 12 ++ "_PESQ_4.210_aligned.wav")%string
  = Some 12%Z.
Proof.
  destruct (written_name_is_read_back 12 "_" "PESQ_4.210_aligned.wav"%string) as (_ & H).
  - right. reflexivity.
  - reflexivity.
  - exact H.
Defined.

(* ================================================================== *)
(** * Successive numbers *)

Section Numbering.

Import naming names.
Open Scope string_scope.

Lemma number_in_dir (dir : list string) (n : Z) :
  In n (numbers_of (glob dir))
  <-> exists f, In f dir /\ matches_pattern f = true /\ file_number f = Some n.
Proof.
  rewrite numbers_of_in. split.
  - intros (f & Hf & Hn). apply glob_in in Hf. exists f. tauto.
  - intros (f & Hf & Hm & Hn). exists f. split; [|exact Hn]. apply glob_in. tauto.
Qed.

Lemma numbers_below (dir : list string) (n : Z) :
  In n (numbers_of (glob dir)) -> (n < get_next_number dir)%Z.
Proof.
  intro Hn. pose proof (get_next_number_max dir) as Hmax.
  destruct (numbers_of (glob dir)) as [|k ns]; [destruct Hn|].
  rewrite Hmax. pose proof (max_list_upper ns k n Hn). lia.
Qed.

Lemma get_next_number_is_max (dir : list string) (M : Z) :
  In M (numbers_of (glob dir)) ->
  (forall n, In n (numbers_of (glob dir)) -> (n <= M)%Z) ->
  get_next_number dir = (M + 1)%Z.
Proof.
  intros HM Hub. pose proof (get_next_number_max dir) as Hmax.
  destruct (numbers_of (glob dir)) as [|k ns]; [destruct HM|].
  rewrite Hmax.
  pose proof (max_list_upper ns k M HM).
  pose proof (Hub _ (max_list_in ns k)). lia.
Qed.

(** The index depends only on which names exist, not on the order in
    which [glob] lists them. *)
Theorem get_next_number_same_names (dir dir' : list string) :
  (forall f, In f dir <-> In f dir') ->
  get_next_number dir = get_next_number dir'.
Proof.
  intro Hsame.
  assert (Hnum : forall n, In n (numbers_of (glob dir)) <-> In n (numbers_of (glob dir'))).
  { intro n. rewrite !number_in_dir. split; intros (f & Hf & H); exists f;
      (split; [now apply Hsame | exact H]). }
  pose proof (get_next_number_max dir) as Hmax.
  destruct (numbers_of (glob dir)) as [|k ns] eqn:Hk.
  - pose proof (get_next_number_max dir') as Hmax'.
    destruct (numbers_of (glob dir')) as [|k' ns'] eqn:Hk'; [congruence|].
    exfalso. apply (proj2 (Hnum k')). now left.
  - rewrite Hmax. symmetry. apply get_next_number_is_max.
    + apply Hnum. apply max_list_in.
    + intros n Hn. apply Hnum in Hn. now apply max_list_upper.
Qed.

Lemma get_next_number_same_names_witness :
  get_next_number ["Degraded_2.wav"; "Degraded_7_aligned.wav"; "a.txt"]
  = get_next_number ["a.txt"; "Degraded_7_aligned.wav"; "Degraded_2.wav";
                     "Degraded_7_aligned.wav"].
Proof.
  apply get_next_number_same_names. intro f. simpl. tauto.
Defined.

Lemma numbered_name_below (dir : list string) (f : string) (n : Z) :
  In f dir -> matches_pattern f = true -> file_number f = Some n ->
  (n < get_next_number dir)%Z.
Proof.
  intros Hin Hm Hn. apply numbers_below. apply number_in_dir. eauto.
Qed.

(** No file of the directory bears a name built from the new index:
    neither the recording, nor the aligned file, nor the renamed ones. *)
Theorem next_name_is_fresh (dir : list string) (c : ascii) (t : string) :
  c = "."%char \/ c = "_"%char ->
  ends_with ".wav" (String c t) = true ->
  ~ In ("Degraded_" ++ str (get_next_number dir) ++ String c t) dir.
Proof.
  intros Hc Hend Hin.
  pose proof (written_name_matches (str (get_next_number dir)) (String c t) Hend) as Hm.
  pose proof (written_name_file_number (get_next_number dir) c t Hc) as Hn.
  pose proof (numbered_name_below dir _ _ Hin Hm Hn). lia.
Qed.

(** Once a file bearing the new index exists, the next index is one
    more. *)
Theorem get_next_number_advances (dir : list string) (c : ascii) (t : string) :
  c = "."%char \/ c = "_"%char ->
  ends_with ".wav" (String c t) = true ->
  get_next_number (("Degraded_" ++ str (get_next_number dir) ++ String c t) :: dir)
  = (get_next_number dir + 1)%Z.
Proof.
  intros Hc Hend.
  pose proof (written_name_matches (str (get_next_number dir)) (String c t) Hend) as Hm.
  pose proof (written_name_file_number (get_next_number dir) c t Hc) as Hn.
  apply get_next_number_is_max.
  - apply number_in_dir. eexists. split; [now left | now split].
  - intros n Hin. apply number_in_dir in Hin.
    destruct Hin as (f & [<-|Hf] & Hmf & Hnf).
    + rewrite Hn in Hnf. injection Hnf as <-. lia.
    + assert (n < get_next_number dir)%Z; [|lia].
      apply numbers_below. apply number_in_dir. eauto.
Qed.

End Numbering.

Lemma next_name_is_fresh_witness :
  ~ In ("Degraded_" ++ names.str (naming.get_next_number ["Degraded_3.wav"; "ref.wav"])
        ++ ".wav")%string
       ["Degraded_3.wav"; "ref.wav"]%string.
Proof.
  apply (next_name_is_fresh ["Degraded_3.wav"; "ref.wav"]%string "." "wav"%string).
  - left. reflexivity.
  - reflexivity.
Defined.

Lemma get_next_number_advances_witness :
  naming.get_next_number
    (("Degraded_" ++ names.str (naming.get_next_number ["Degraded_3.wav"]) ++ "_aligned.wav")
     :: ["Degraded_3.wav"])%string
  = (naming.get_next_number ["Degraded_3.wav"%string] + 1)%Z.
Proof.
  apply (get_next_number_advances ["Degraded_3.wav"%string] "_" "aligned.wav"%string).
  - right. reflexivity.
  - reflexivity.
Defined.

(* ================================================================== *)
(** * The files of a run *)

Section Files.

Import pipeline.
Open Scope string_scope.

Lemma lookup_remove_same (n : string) (fs : filesystem) : lookup n (remove n fs) = None.
Proof.
  induction fs as [|(m, w) fs IH]; [reflexivity|].
  unfold remove in *. cbn [filter fst].
  destruct (String.eqb_spec n m) as [->|Hne]; cbn [negb]; [exact IH|].
  cbn [lookup]. destruct (String.eqb_spec n m); [congruence | exact IH].
Qed.

Lemma lookup_remove_other (x n : string) (fs : filesystem) :
  x <> n -> lookup x (remove n fs) = lookup x fs.
Proof.
  intro Hne. induction fs as [|(m, w) fs IH]; [reflexivity|].
  unfold remove in *. cbn [filter fst].
  destruct (String.eqb_spec n m) as [<-|Hnm]; cbn [negb lookup].
  - destruct (String.eqb_spec x n); [congruence | exact IH].
  - destruct (String.eqb_spec x m); [reflexivity | exact IH].
Qed.

Lemma lookup_write_same (n : string) (w : wav_file) (fs : filesystem) :
  lookup n (write n w fs) = Some w.
Proof. unfold write. cbn [lookup]. now rewrite String.eqb_refl. Qed.

Lemma lookup_write_other (x n : string) (w : wav_file) (fs : filesystem) :
  x <> n -> lookup x (write n w fs) = lookup x fs.
Proof.
  intro Hne. unfold write. cbn [lookup].
  destruct (String.eqb_spec x n); [congruence | now apply lookup_remove_other].
Qed.

Lemma lookup_listdir (x : string) (fs : filesystem) :
  In x (listdir fs) <-> lookup x fs <> None.
Proof.
  induction fs as [|(m, w) fs IH]; cbn [listdir map fst In lookup].
  - split; [tauto | congruence].
  - destruct (String.eqb_spec x m) as [->|Hne].
    + split; [discriminate | auto].
    + unfold listdir in IH. rewrite <- IH. split; [intros [H|H]; congruence || exact H | auto].
Qed.

End Files.

(* ================================================================== *)
(** * The four names of a run *)

Section RunNames.

Import naming names.
Open Scope string_scope.

Lemma replace_from_S (k : nat) (old new s : string) :
  replace_from (S k) old new s
  = match strip_prefix old s with
    | Some rest => new ++ replace_from k old new rest
    | None =>
        match s with
        | EmptyString => EmptyString
        | String c s' => String c (replace_from k old new s')
        end
    end.
Proof. reflexivity. Qed.

Lemma replace_from_plain (ds rest new : string) (k : nat) :
  plain ds = true ->
  replace_from (String.length ds + k) ".wav" new (ds ++ rest)
  = ds ++ replace_from k ".wav" new rest.
Proof.
  induction ds as [|c ds IH]; intro Hp; [reflexivity|].
  cbn [plain] in Hp. apply andb_true_iff in Hp. destruct Hp as (Hc & Hp).
  cbn [String.length Nat.add append]. rewrite replace_from_S.
  cbn [strip_prefix]. rewrite Ascii.eqb_sym, (plain_char_not_dot c Hc).
  now rewrite IH.
Qed.

(** [filename.replace('.wav', '_aligned.wav')] changes the extension
    only. *)
Lemma aligned_filename_form (n : Z) :
  aligned_filename n = "Degraded_" ++ str n ++ "_aligned.wav".
Proof.
  unfold aligned_filename, filename, replace.
  assert (Hlen : String.length ("Degraded_" ++ str n ++ ".wav")
                 = (9 + (String.length (str n) + 4))%nat).
  { rewrite !length_append. reflexivity. }
  rewrite Hlen.
  change ("Degraded_" ++ str n ++ ".wav")
    with (String "D" (String "e" (String "g" (String "r" (String "a"
          (String "d" (String "e" (String "d" (String "_" (str n ++ ".wav")))))))))).
  cbn [Nat.add].
  do 9 (rewrite replace_from_S; cbn [strip_prefix Ascii.eqb Bool.eqb]).
  rewrite (replace_from_plain (str n) ".wav" "_aligned.wav" 4 (str_plain n)).
  reflexivity.
Qed.

Lemma run_name_form (n : Z) (score name : string) :
  In name (run_names n score) ->
  exists c t, (c = "."%char \/ c = "_"%char)
              /\ ends_with ".wav" (String c t) = true
              /\ name = "Degraded_" ++ str n ++ String c t.
Proof.
  intros [<-|[<-|[<-|[<-|[]]]]].
  - exists "."%char, "wav". repeat split; auto.
  - exists "_"%char, "aligned.wav". rewrite aligned_filename_form. repeat split; auto.
  - exists "_"%char, ("PESQ_" ++ score ++ ".wav"). split; [auto|]. split; [|reflexivity].
    apply (ends_with_append ".wav" "_PESQ_" (score ++ ".wav")).
    now apply ends_with_append.
  - exists "_"%char, ("PESQ_" ++ score ++ "_aligned.wav"). split; [auto|].
    split; [|reflexivity].
    apply (ends_with_append ".wav" "_PESQ_" (score ++ "_aligned.wav")).
    now apply ends_with_append.
Qed.

Lemma run_names_fresh (dir : list string) (score name : string) :
  In name (run_names (get_next_number dir) score) -> ~ In name dir.
Proof.
  intros H Hin. destruct (run_name_form _ _ _ H) as (c & t & Hc & Hend & ->).
  pose proof (written_name_matches (str (get_next_number dir)) (String c t) Hend) as Hm.
  pose proof (written_name_file_number (get_next_number dir) c t Hc) as Hn.
  pose proof (numbered_name_below dir _ _ Hin Hm Hn). lia.
Qed.

Lemma run_names_distinct (n : Z) (score : string) :
  filename n <> aligned_filename n
  /\ filename n <> new_filename n score
  /\ filename n <> new_aligned_filename n score
  /\ aligned_filename n <> new_filename n score
  /\ aligned_filename n <> new_aligned_filename n score
  /\ new_filename n score <> new_aligned_filename n score.
Proof.
  rewrite aligned_filename_form. unfold filename, new_filename, new_aligned_filename.
  repeat split; intro H;
    apply (append_inv_head "Degraded_") in H; apply append_inv_head in H;
    try discriminate.
  apply (append_inv_head "_PESQ_") in H. apply append_inv_head in H. discriminate.
Qed.

End RunNames.

(* ================================================================== *)
(** * Runs of [main] *)

Section MainProps.

Import naming names pipeline.
Open Scope string_scope.

Variable E : Type.
Variable pesq : Z -> ndarray Z -> list Z -> scorer.pesq_mode -> E + Q.
Variable sf_encode : list Q -> Z -> wav_file.
Variable format_score : Q -> string.

Lemma existing_is_not_run_name (fs : filesystem) (x score : string) :
  lookup x fs <> None ->
  ~ In x (run_names (get_next_number (listdir fs)) score).
Proof.
  intros Hx Hin. apply (run_names_fresh (listdir fs) score x Hin).
  now apply lookup_listdir.
Qed.

(** The files after the two writes and the two renames. *)
Lemma lookup_after_writes (fs : filesystem) (x : string) (n : Z) (raw al : wav_file) :
  x <> filename n -> x <> aligned_filename n ->
  lookup x (write (aligned_filename n) al (write (filename n) raw fs)) = lookup x fs.
Proof. intros H1 H2. now rewrite !lookup_write_other. Qed.

Lemma lookup_after_renames (fs : filesystem) (x score : string) (n : Z)
    (raw al : wav_file) :
  ~ In x (run_names n score) ->
  lookup x
    (write (new_aligned_filename n score) al
       (remove (aligned_filename n)
          (write (new_filename n score) raw
             (remove (filename n)
                (write (aligned_filename n) al (write (filename n) raw fs))))))
  = lookup x fs.
Proof.
  intro H. unfold run_names in H. cbn [In] in H.
  rewrite lookup_write_other, lookup_remove_other, lookup_write_other,
    lookup_remove_other, !lookup_write_other by (intros ->; apply H; auto).
  reflexivity.
Qed.

(** How a run ends, and the files it leaves, once the reference
    exists. *)
Lemma main_outcomes (a : args) (fs : filesystem) (dev : trigger.device)
    (ref : wav_file) :
  lookup (reference a) fs = Some ref ->
  let n := get_next_number (listdir fs) in
  let sr := sample_rate a in
  main E pesq sf_encode format_score a fs dev = (fs, StillBlocked)
  \/ (exists e,
        main E pesq sf_encode format_score a fs dev = (fs, Error (Raise e)))
  \/ (exists audio e,
        @aligner.align_audio E ref audio sr = inl e
        /\ main E pesq sf_encode format_score a fs dev
           = (write (filename n) (sf_encode audio sr) fs, Error (Raise e)))
  \/ (exists audio aligned offset e,
        @aligner.align_audio E ref audio sr = inr (aligned, offset)
        /\ scorer.calculate_pesq E Q pesq ref aligned sr = inl e
        /\ main E pesq sf_encode format_score a fs dev
           = (write (aligned_filename n) (sf_encode aligned sr)
                (write (filename n) (sf_encode audio sr) fs),
              Error (Raise e)))
  \/ (exists audio aligned offset score mode,
        @aligner.align_audio E ref audio sr = inr (aligned, offset)
        /\ scorer.calculate_pesq E Q pesq ref aligned sr = inr (score, mode)
        /\ main E pesq sf_encode format_score a fs dev
           = (write (new_aligned_filename n (format_score score)) (sf_encode aligned sr)
                (remove (aligned_filename n)
                   (write (new_filename n (format_score score)) (sf_encode audio sr)
                      (remove (filename n)
                         (write (aligned_filename n) (sf_encode aligned sr)
                            (write (filename n) (sf_encode audio sr) fs))))),
              Completed
                {| original_file := new_filename n (format_score score);
                   aligned_file := new_aligned_filename n (format_score score);
                   time_offset := offset;
                   pesq_score := score;
                   pesq_mode := mode;
                   quality_rating := rating score |})).
Proof.
  intros Href n sr.
  assert (Hex : lookup (reference a) fs <> None) by congruence.
  pose proof (existing_is_not_run_name fs (reference a) "" Hex) as Hnot.
  fold n in Hnot. unfold run_names in Hnot. cbn [In] in Hnot.
  assert (Hr1 : reference a <> filename n) by (intro; apply Hnot; auto).
  assert (Hr2 : reference a <> aligned_filename n) by (intro; apply Hnot; auto).
  unfold main. rewrite Href. cbv zeta.
  unfold body, iobind, record, sf_write, open_wav, lift, os_rename, ret.
  fold n. fold sr.
  destruct (trigger.record_with_voice_trigger (threshold a) dev) as [o [audio|]].
  2:{ destruct o; [left; reflexivity | right; left; eauto | left; reflexivity]. }
  destruct o as [polled rest|e|]; [|right; left; eauto | left; reflexivity].
  rewrite (lookup_write_other _ _ _ _ Hr1), Href.
  destruct (@aligner.align_audio E ref audio sr) as [e|[aligned offset]] eqn:Halign.
  { right. right. left. exists audio, e. split; [exact Halign | reflexivity]. }
  cbn [fst snd].
  rewrite (lookup_after_writes fs _ n _ _ Hr1 Hr2), Href.
  destruct (scorer.calculate_pesq E Q pesq ref aligned sr) as [e|[score mode]] eqn:Hpesq.
  { right. right. right. left. exists audio, aligned, offset, e.
    split; [exact Halign | split; [exact Hpesq | reflexivity]]. }
  cbn [fst snd].
  destruct (run_names_distinct n (format_score score))
    as (D1 & D2 & D3 & D4 & D5 & D6).
  rewrite (lookup_write_other _ _ _ _ D1), lookup_write_same.
  rewrite (lookup_write_other _ _ _ _ D4), (lookup_remove_other _ _ _ (not_eq_sym D1)),
    lookup_write_same.
  right. right. right. right.
  exists audio, aligned, offset, score, mode.
  split; [exact Halign | split; [exact Hpesq | reflexivity]].
Qed.

End MainProps.

Section MainTheorems.

Import naming names pipeline.
Open Scope string_scope.

Variable E : Type.
Variable pesq : Z -> ndarray Z -> list Z -> scorer.pesq_mode -> E + Q.
Variable sf_encode : list Q -> Z -> wav_file.
Variable format_score : Q -> string.

Lemma main_without_reference (a : args) (fs : filesystem) (dev : trigger.device) :
  lookup (reference a) fs = None ->
  main E pesq sf_encode format_score a fs dev = (fs, ReferenceNotFound).
Proof. intro H. unfold main. now rewrite H. Qed.

(** Either the run left the files as they were, or it changed only names
    of its own number and at least one of them exists afterwards. *)
Lemma main_footprint (a : args) (fs : filesystem) (dev : trigger.device) :
  let n := get_next_number (listdir fs) in
  let fs' := fst (main E pesq sf_encode format_score a fs dev) in
  fs' = fs
  \/ exists score,
       (forall x, ~ In x (run_names n score) -> lookup x fs' = lookup x fs)
       /\ exists name, In name (run_names n score) /\ lookup name fs' <> None.
Proof.
  intros n fs'. subst fs'.
  destruct (lookup (reference a) fs) as [ref|] eqn:Href;
    [|left; now rewrite main_without_reference].
  destruct (main_outcomes E pesq sf_encode format_score a fs dev ref Href)
    as [H|[(e & H)|[(audio & e & _ & H)|[(audio & aligned & offset & e & _ & _ & H)
       |(audio & aligned & offset & score & mode & _ & _ & H)]]]];
    rewrite H; cbn [fst]; fold n.
  - now left.
  - now left.
  - right. exists "". split.
    + intros x Hx. apply lookup_write_other. intros ->. apply Hx. cbn. auto.
    + exists (filename n). split; [cbn; auto|].
      rewrite lookup_write_same. discriminate.
  - right. exists "". split.
    + intros x Hx. apply lookup_after_writes; intros ->; apply Hx; cbn; auto.
    + exists (aligned_filename n). split; [cbn; auto|].
      rewrite lookup_write_same. discriminate.
  - right. exists (format_score score). split.
    + intros x Hx. now apply lookup_after_renames.
    + exists (new_aligned_filename n (format_score score)). split; [cbn; auto|].
      rewrite lookup_write_same. discriminate.
Qed.

(** A run never changes or removes a file that existed before it. *)
Theorem main_keeps_existing_files
    (a : args) (fs : filesystem) (dev : trigger.device) (x : string) (w : wav_file) :
  lookup x fs = Some w ->
  lookup x (fst (main E pesq sf_encode format_score a fs dev)) = Some w.
Proof.
  intro Hx. destruct (main_footprint a fs dev) as [H|(score & Hframe & _)].
  - now rewrite H.
  - rewrite Hframe; [exact Hx|].
    apply existing_is_not_run_name. congruence.
Qed.

(** A run that changed the files leaves the directory in a state where
    the next index is one more: two runs never share an index. *)
Theorem main_advances_number (a : args) (fs : filesystem) (dev : trigger.device) :
  let fs' := fst (main E pesq sf_encode format_score a fs dev) in
  fs' = fs
  \/ get_next_number (listdir fs') = (get_next_number (listdir fs) + 1)%Z.
Proof.
  intro fs'. destruct (main_footprint a fs dev) as [H|(score & Hframe & name & Hin & Hex)];
    [now left|right].
  fold fs' in Hframe, Hex. set (n := get_next_number (listdir fs)) in *.
  assert (Hread : forall f, In f (run_names n score) ->
                    matches_pattern f = true /\ file_number f = Some n).
  { intros f Hf. destruct (run_name_form _ _ _ Hf) as (c & t & Hc & Hend & ->).
    split; [now apply written_name_matches | now apply written_name_file_number]. }
  apply get_next_number_is_max.
  - apply number_in_dir. exists name. split; [now apply lookup_listdir|].
    now apply Hread.
  - intros m Hm. apply number_in_dir in Hm. destruct Hm as (f & Hf & Hmf & Hnf).
    destruct (in_dec string_dec f (run_names n score)) as [Hrun|Hrun].
    + destruct (Hread f Hrun) as (_ & Hn). rewrite Hn in Hnf. injection Hnf as <-. lia.
    + apply lookup_listdir in Hf. rewrite (Hframe f Hrun) in Hf.
      apply lookup_listdir in Hf.
      assert (m < n)%Z; [|lia].
      apply numbers_below. apply number_in_dir. eauto.
Qed.

(** A completed run leaves the recording and the aligned buffer under
    the two names that carry the score, and nothing under the two
    temporary names. *)
Theorem main_completed_files
    (a : args) (fs fs' : filesystem) (dev : trigger.device) (r : report) :
  main E pesq sf_encode format_score a fs dev = (fs', Completed r) ->
  let n := get_next_number (listdir fs) in
  let sr := sample_rate a in
  exists ref audio aligned,
    lookup (reference a) fs = Some ref
    /\ @aligner.align_audio E ref audio sr = inr (aligned, time_offset r)
    /\ scorer.calculate_pesq E Q pesq ref aligned sr = inr (pesq_score r, pesq_mode r)
    /\ original_file r = new_filename n (format_score (pesq_score r))
    /\ aligned_file r = new_aligned_filename n (format_score (pesq_score r))
    /\ quality_rating r = rating (pesq_score r)
    /\ lookup (original_file r) fs' = Some (sf_encode audio sr)
    /\ lookup (aligned_file r) fs' = Some (sf_encode aligned sr)
    /\ lookup (filename n) fs' = None
    /\ lookup (aligned_filename n) fs' = None.
Proof.
  intros Hmain n sr.
  destruct (lookup (reference a) fs) as [ref|] eqn:Href;
    [|rewrite main_without_reference in Hmain by exact Href; discriminate].
  destruct (main_outcomes E pesq sf_encode format_score a fs dev ref Href)
    as [H|[(e & H)|[(audio & e & _ & H)|[(audio & aligned & offset & e & _ & _ & H)
       |(audio & aligned & offset & score & mode & Ha & Hp & H)]]]];
    rewrite H in Hmain; try discriminate.
  pose proof (f_equal fst Hmain) as Hfs. pose proof (f_equal snd Hmain) as Hr.
  cbn [fst snd] in Hfs, Hr. clear Hmain H. subst fs'. injection Hr as <-.
  fold n. fold sr.
  exists ref, audio, aligned. cbn [original_file aligned_file time_offset pesq_score
                                   pesq_mode quality_rating].
  destruct (run_names_distinct n (format_score score))
    as (D1 & D2 & D3 & D4 & D5 & D6).
  repeat (split; [first [reflexivity | assumption]|]).
  split; [|split; [|split]].
  - rewrite (lookup_write_other _ _ _ _ D6), (lookup_remove_other _ _ _ (not_eq_sym D4)).
    apply lookup_write_same.
  - apply lookup_write_same.
  - rewrite (lookup_write_other _ _ _ _ D3), (lookup_remove_other _ _ _ D1),
      (lookup_write_other _ _ _ _ D2).
    apply lookup_remove_same.
  - rewrite (lookup_write_other _ _ _ _ D5). apply lookup_remove_same.
Qed.

(** When the reference has another sample rate than the capture, the run
    fails in alignment, after the recording was written: the raw
    recording stays under [Degraded_<n>.wav] and nothing else changes. *)
Theorem main_rate_mismatch_keeps_recording
    (a : args) (fs : filesystem) (dev rest : trigger.device) (ref : wav_file)
    (audio : list Q) (polled : nat) :
  lookup (reference a) fs = Some ref ->
  wav_rate ref <> sample_rate a ->
  @trigger.record_with_voice_trigger E (threshold a) dev
  = (trigger.Triggered polled rest, Some audio) ->
  main E pesq sf_encode format_score a fs dev
  = (write (filename (get_next_number (listdir fs)))
           (sf_encode audio (sample_rate a)) fs,
     Error (Raise (ValueError
                     (ve_sample_rate_mismatch (wav_rate ref) (sample_rate a))))).
Proof.
  intros Href Hrate Hrec.
  assert (Hex : lookup (reference a) fs <> None) by congruence.
  pose proof (existing_is_not_run_name fs (reference a) "" Hex) as Hnot.
  assert (Hr1 : reference a <> filename (get_next_number (listdir fs)))
    by (intro Heq; apply Hnot; rewrite Heq; cbn; auto).
  unfold main. rewrite Href. cbv zeta.
  unfold body, iobind, record, sf_write, open_wav, lift, os_rename, ret.
  rewrite Hrec, (lookup_write_other _ _ _ _ Hr1), Href.
  now rewrite (align_audio_mismatch E ref audio (sample_rate a) Hrate).
Qed.

End MainTheorems.

Lemma main_keeps_existing_files_witness :
  let ref := {| wav_rate := 8000; wav_data := Array1 [16384; 8192]%Z |} in
  let enc := fun (x : list Q) (sr : Z) =>
               {| wav_rate := sr; wav_data := Array1 (map scorer.quantize x) |} in
  let orc := fun (_ : Z) (_ : ndarray Z) (_ : list Z) (_ : scorer.pesq_mode) =>
               @inr string Q (421 # 100) in
  let a := {| pipeline.reference := "ref.wav"; pipeline.threshold := 3 # 100;
              pipeline.sample_rate := 8000 |} in
  let fs := [("ref.wav", ref); ("Degraded_2_PESQ_3.000.wav", ref)]%string in
  pipeline.lookup "Degraded_2_PESQ_3.000.wav"
    (fst (pipeline.main string orc enc (fun _ => "4.210"%string) a fs
            [[0]; [1 # 2]; [0; 1 # 2; 1 # 4; 0]]))
  = Some ref.
Proof.
  intros ref enc orc a fs.
  apply (main_keeps_existing_files string orc enc (fun _ => "4.210"%string) a fs).
  reflexivity.
Defined.

Lemma main_completed_files_witness :
  let ref := {| wav_rate := 8000; wav_data := Array1 [16384; 8192]%Z |} in
  let enc := fun (x : list Q) (sr : Z) =>
               {| wav_rate := sr; wav_data := Array1 (map scorer.quantize x) |} in
  let orc := fun (_ : Z) (_ : ndarray Z) (_ : list Z) (_ : scorer.pesq_mode) =>
               @inr string Q (421 # 100) in
  let a := {| pipeline.reference := "ref.wav"; pipeline.threshold := 3 # 100;
              pipeline.sample_rate := 8000 |} in
  let fs := [("ref.wav", ref); ("Degraded_2_PESQ_3.000.wav", ref)]%string in
  exists fs' r,
    pipeline.main string orc enc (fun _ => "4.210"%string) a fs
      [[0]; [1 # 2]; [0; 1 # 2; 1 # 4; 0]]
    = (fs', pipeline.Completed r)
    /\ pipeline.lookup (names.filename (naming.get_next_number (pipeline.listdir fs))) fs'
       = None.
Proof.
  intros ref enc orc a fs.
  destruct (pipeline.main string orc enc (fun _ => "4.210"%string) a fs
              [[0]; [1 # 2]; [0; 1 # 2; 1 # 4; 0]]) as [fs' [| |e|r]] eqn:Hm;
    try (vm_compute in Hm; discriminate).
  exists fs', r. split; [reflexivity|].
  destruct (main_completed_files string orc enc (fun _ => "4.210"%string)
              a fs fs' _ r Hm)
    as (ref' & audio & aligned & _ & _ & _ & _ & _ & _ & _ & _ & H & _).
  exact H.
Defined.

Lemma main_rate_mismatch_keeps_recording_witness :
  let ref := {| wav_rate := 8000; wav_data := Array1 [16384; 8192]%Z |} in
  let enc := fun (x : list Q) (sr : Z) =>
               {| wav_rate := sr; wav_data := Array1 (map scorer.quantize x) |} in
  let orc := fun (_ : Z) (_ : ndarray Z) (_ : list Z) (_ : scorer.pesq_mode) =>
               @inr string Q (421 # 100) in
  let a := {| pipeline.reference := "ref.wav"; pipeline.threshold := 3 # 100;
              pipeline.sample_rate := 16000 |} in
  let fs := [("ref.wav", ref)]%string in
  pipeline.main string orc enc (fun _ => "4.210"%string) a fs [[1 # 2]; [0; 1 # 2]]
  = (pipeline.write (names.filename (naming.get_next_number (pipeline.listdir fs)))
       (enc [0; 1 # 2] 16000%Z) fs,
     pipeline.Error
       (pipeline.Raise (ValueError (ve_sample_rate_mismatch 8000 16000)))).
Proof.
  intros ref enc orc a fs.
  apply (main_rate_mismatch_keeps_recording string orc enc (fun _ => "4.210"%string)
           a fs [[1 # 2]; [0; 1 # 2]] [] ref [0; 1 # 2] 0).
  - reflexivity.
  - simpl. lia.
  - vm_compute. reflexivity.
Defined.

(* ================================================================== *)
(** * From the capture to the oracle *)

Lemma Forall_firstn_part {A} (P : A -> Prop) (n : nat) (l : list A) :
  Forall P l -> Forall P (firstn n l).
Proof.
  intro H. rewrite <- (firstn_skipn n l) in H. apply Forall_app in H. tauto.
Qed.

Lemma Forall_skipn_part {A} (P : A -> Prop) (n : nat) (l : list A) :
  Forall P l -> Forall P (skipn n l).
Proof.
  intro H. rewrite <- (firstn_skipn n l) in H. apply Forall_app in H. tauto.
Qed.

Lemma Forall_repeat_all {A} (P : A -> Prop) (x : A) (k : nat) :
  P x -> Forall P (repeat x k).
Proof. intro H. induction k; simpl; constructor; assumption. Qed.

(** A capture whose samples lie in [[-1, 1]] reaches the oracle without
    leaving the 16-bit range: the aligned buffer has its samples in
    [[-1, 1]] and the integers handed over, one per aligned sample, lie in
    [[-32767, 32767]]. *)
Theorem captured_samples_stay_in_range
    (E : Type) (f : wav_file) (rec_audio aligned : list Q) (sr : Z)
    (offset_sec : Q) (call : scorer.pesq_call) :
  Forall (fun x => -1 <= x <= 1) rec_audio ->
  @aligner.align_audio E f rec_audio sr = inr (aligned, offset_sec) ->
  @scorer.prepare E f aligned sr = inr call ->
  Forall (fun x => -1 <= x <= 1) aligned
  /\ length (scorer.call_deg call) = length aligned
  /\ Forall (fun z => (-32767 <= z <= 32767)%Z) (scorer.call_deg call).
Proof.
  intros Hrange Ha Hp.
  assert (Hs : exists r, @aligner.align_audio E f rec_audio sr = inr r) by eauto.
  apply align_audio_success_inv in Hs. destruct Hs as (<- & Hrec & Href).
  destruct (best_index_defined E rec_audio _ Hrec Href) as (j & Hj & _).
  rewrite (align_audio_with_best E f rec_audio j Hj) in Ha.
  injection Ha as <- _.
  rewrite prepare_passes_reference in Hp. injection Hp as <-. cbn [scorer.call_deg].
  assert (Hal : Forall (fun x => -1 <= x <= 1)
                  (aligner.truncate
                     (aligner.resync rec_audio
                        (aligner.lag_of j (aligner.loaded_reference f)))
                     (aligner.loaded_reference f))).
  { unfold aligner.truncate, slice_to. apply Forall_firstn_part.
    unfold aligner.resync, slice_from, pad_front.
    destruct (0 <? aligner.lag_of j (aligner.loaded_reference f))%Z.
    - now apply Forall_skipn_part.
    - apply Forall_app. split; [|exact Hrange].
      apply Forall_repeat_all. split; discriminate. }
  split; [exact Hal|]. split; [apply length_map|].
  apply Forall_forall. intros z Hz. apply in_map_iff in Hz.
  destruct Hz as (x & <- & Hx).
  rewrite Forall_forall in Hal. now apply quantize_in_range, Hal.
Qed.

Lemma captured_samples_stay_in_range_witness :
  let f := {| wav_rate := 8000; wav_data := Array1 [16384; 8192]%Z |} in
  Forall (fun z => (-32767 <= z <= 32767)%Z) [16383; 8191]%Z.
Proof.
  intro f.
  destruct (captured_samples_stay_in_range string f [0; 1 # 2; 1 # 4; -1]
              [1 # 2; 1 # 4] 8000 (1 # 8000)
              {| scorer.call_fs := 8000; scorer.call_ref := Array1 [16384; 8192]%Z;
                 scorer.call_deg := [16383; 8191]%Z; scorer.call_mode := scorer.nb |})
    as (_ & _ & H).
  - repeat constructor; discriminate.
  - vm_compute. reflexivity.
  - vm_compute. reflexivity.
  - exact H.
Defined.

(** Names that the pattern does not match, and names from which no
    number can be read, do not count. *)
Theorem get_next_number_ignores (dir : list string) (f : string) :
  naming.matches_pattern f = false \/ naming.file_number f = None ->
  naming.get_next_number (f :: dir) = naming.get_next_number dir.
Proof.
  intro H.
  assert (Hnum : naming.numbers_of (naming.glob (f :: dir))
                 = naming.numbers_of (naming.glob dir)).
  { unfold naming.glob. cbn [filter].
    destruct (naming.matches_pattern f) eqn:Hm; [|reflexivity].
    destruct H as [H|H]; [discriminate|].
    cbn [naming.numbers_of]. now rewrite H. }
  pose proof (get_next_number_max (f :: dir)) as H1.
  pose proof (get_next_number_max dir) as H2.
  rewrite Hnum in H1.
  destruct (naming.numbers_of (naming.glob dir)); congruence.
Qed.

Lemma get_next_number_ignores_witness :
  naming.get_next_number ["Degraded_final.wav"; "Degraded_4.wav"]%string
  = naming.get_next_number ["Degraded_4.wav"]%string.
Proof.
  apply (get_next_number_ignores ["Degraded_4.wav"%string] "Degraded_final.wav"%string).
  right. reflexivity.
Defined.
